(** * rails-console-mcp: the session manager of [src/index.ts]

    A shallow embedding of the [RailsConsole] class, of the two regular
    expressions it relies on ([ANSI_REGEX], [PROMPT_REGEX]), of the two
    error-classification expressions, of the tool-call handler and of the
    server on which tool calls overlap, followed by the properties of the
    specification that can be settled on it.

    Strings are JavaScript strings: sequences of UTF-16 code units.  A code
    unit is a natural number ([N]); [String.length] is the length of the
    list.  Numbers that hold integers (timeouts, sizes, exit codes) are [Z]. *)

From Stdlib Require Import String Ascii DecimalString DecimalN.
From Stdlib Require Import List ZArith NArith Bool Lia.
Import ListNotations.

Local Open Scope Z_scope.

(** ** JavaScript strings *)

Definition char := N.
Definition str := list char.

(** A string literal of the source, as code units. *)
Definition js (s : string) : str := List.map N_of_ascii (list_ascii_of_string s).

Definition NL : char := 10%N.
Definition CR : char := 13%N.
Definition ESC : char := 27%N.
Definition BEL : char := 7%N.

Definition ch (a : ascii) : char := N_of_ascii a.

Definition code_eqb (a b : char) : bool := N.eqb a b.
Definition in_range (lo hi : N) (c : char) : bool := (N.leb lo c && N.leb c hi)%bool.

Fixpoint str_eqb (a b : str) : bool :=
  match a, b with
  | [], [] => true
  | x :: a', y :: b' => (code_eqb x y && str_eqb a' b')%bool
  | _, _ => false
  end.

(** ECMAScript [LineTerminator]: LF, CR, LS (U+2028), PS (U+2029). *)
Definition isLineTerminator (c : char) : bool :=
  (code_eqb c 10 || code_eqb c 13 || code_eqb c 8232 || code_eqb c 8233)%N%bool.

(** ECMAScript [WhiteSpace]: TAB, VT, FF, SP, NBSP, ZWNBSP and the Unicode
    space separators. *)
Definition isWhiteSpace (c : char) : bool :=
  (code_eqb c 9 || code_eqb c 11 || code_eqb c 12 || code_eqb c 32
   || code_eqb c 160 || code_eqb c 5760 || in_range 8192 8202 c
   || code_eqb c 8239 || code_eqb c 8287 || code_eqb c 12288
   || code_eqb c 65279)%N%bool.

(** What [String.prototype.trim] removes at both ends. *)
Definition isTrimmed (c : char) : bool := (isWhiteSpace c || isLineTerminator c)%bool.

Fixpoint trimStart (s : str) : str :=
  match s with
  | c :: t => if isTrimmed c then trimStart t else s
  | [] => []
  end.

Definition trimEnd (s : str) : str := rev (trimStart (rev s)).

Definition trim (s : str) : str := trimEnd (trimStart s).

(** [s.slice(start)]: a negative [start] counts from the end; the result
    runs to the end of the string.  [Z] has a single zero, as
    [ToIntegerOrInfinity] maps both zeros of a JavaScript number to it. *)
Definition slice_from (start : Z) (s : str) : str :=
  let len := Z.of_nat (length s) in
  let from := if start <? 0 then Z.max (len + start) 0 else Z.min start len in
  skipn (Z.to_nat from) s.

(** [s.slice(0, i)] for an index [i] of [s]. *)
Definition slice_to (i : nat) (s : str) : str := firstn i s.

(** ** Regular expressions

    The fragment of ECMAScript patterns the source uses: character classes,
    literals, sequence, alternation, the quantifiers [*], [*?], [+] and [?]
    on a single class, [^] under the [m] flag and [$] without it.  The
    matcher is the backtracking matcher of the language definition: a
    pattern is run against the rest of the input with a continuation, and
    alternatives are tried in priority order. *)

Inductive regex : Type :=
| Eps
| Cls (p : char -> bool)
| Seq (a b : regex)
| Alt (a b : regex)
| Star (p : char -> bool)
| StarLazy (p : char -> bool)
| Plus (p : char -> bool)
| Opt (p : char -> bool)
| Bol
| Eoi.

(** [prev] is the code unit before the current position, if any. *)
Definition at_line_start (prev : option char) : bool :=
  match prev with
  | None => true
  | Some c => isLineTerminator c
  end.

Fixpoint star_greedy {A} (p : char -> bool) (prev : option char) (s : str)
  (k : option char -> str -> option A) : option A :=
  match s with
  | c :: t =>
      if p c then
        match star_greedy p (Some c) t k with
        | Some a => Some a
        | None => k prev s
        end
      else k prev s
  | [] => k prev s
  end.

Fixpoint star_lazy {A} (p : char -> bool) (prev : option char) (s : str)
  (k : option char -> str -> option A) : option A :=
  match k prev s with
  | Some a => Some a
  | None =>
      match s with
      | c :: t => if p c then star_lazy p (Some c) t k else None
      | [] => None
      end
  end.

Fixpoint rmatch {A} (r : regex) (prev : option char) (s : str)
  (k : option char -> str -> option A) : option A :=
  match r with
  | Eps => k prev s
  | Cls p =>
      match s with
      | c :: t => if p c then k (Some c) t else None
      | [] => None
      end
  | Seq a b => rmatch a prev s (fun prev' s' => rmatch b prev' s' k)
  | Alt a b =>
      match rmatch a prev s k with
      | Some x => Some x
      | None => rmatch b prev s k
      end
  | Star p => star_greedy p prev s k
  | StarLazy p => star_lazy p prev s k
  | Plus p =>
      match s with
      | c :: t => if p c then star_greedy p (Some c) t k else None
      | [] => None
      end
  | Opt p =>
      match s with
      | c :: t =>
          if p c then
            match k (Some c) t with
            | Some x => Some x
            | None => k prev s
            end
          else k prev s
      | [] => k prev s
      end
  | Bol => if at_line_start prev then k prev s else None
  | Eoi => match s with [] => k prev s | _ :: _ => None end
  end.

(** A literal run of code units. *)
Fixpoint lit (w : str) : regex :=
  match w with
  | [] => Eps
  | c :: t => Seq (Cls (code_eqb c)) (lit t)
  end.

(** Sequence of several patterns. *)
Fixpoint seqs (rs : list regex) : regex :=
  match rs with
  | [] => Eps
  | [r] => r
  | r :: rest => Seq r (seqs rest)
  end.

(** Alternation of several patterns, leftmost first. *)
Fixpoint alts (rs : list regex) : regex :=
  match rs with
  | [] => Cls (fun _ => false)
  | [r] => r
  | r :: rest => Alt r (alts rest)
  end.

(** Length of the match of [r] that starts at the current position. *)
Definition match_here (r : regex) (prev : option char) (s : str) : option nat :=
  match rmatch r prev s (fun _ rest => Some (length rest)) with
  | Some n => Some (length s - n)%nat
  | None => None
  end.

(** [RegExp.prototype.exec] without the [g] flag: the leftmost position at
    which the pattern matches, with the length of the match. *)
Fixpoint search_from (r : regex) (prev : option char) (s : str) (i : nat)
  : option (nat * nat) :=
  match match_here r prev s with
  | Some n => Some (i, n)
  | None =>
      match s with
      | [] => None
      | c :: t => search_from r (Some c) t (S i)
      end
  end.

Definition search (r : regex) (s : str) : option (nat * nat) := search_from r None s 0.

(** [re.test(s)]. *)
Definition test (r : regex) (s : str) : bool :=
  match search r s with Some _ => true | None => false end.

(** [s.replace(re, '')] with the [g] flag.  [skip] counts the code units of
    the current match that are still to be dropped; an empty match keeps
    the code unit and moves on, as the language does. *)
Fixpoint remove_all (r : regex) (skip : nat) (prev : option char) (s : str) : str :=
  match s with
  | [] => []
  | c :: t =>
      match skip with
      | S n => remove_all r n (Some c) t
      | O =>
          match match_here r prev s with
          | Some (S n) => remove_all r n (Some c) t
          | Some O => c :: remove_all r 0 (Some c) t
          | None => c :: remove_all r 0 (Some c) t
          end
      end
  end.

(** *** Character classes of the source *)

Definition is_digit (c : char) : bool := in_range 48 57 c.            (* \d *)
Definition is_upper (c : char) : bool := in_range 65 90 c.
Definition is_lower (c : char) : bool := in_range 97 122 c.
Definition is_alpha (c : char) : bool := (is_upper c || is_lower c)%bool. (* [A-Za-z] *)
Definition is_word (c : char) : bool :=                                (* \w *)
  (is_alpha c || is_digit c || code_eqb c (ch "_"))%bool.
Definition is_dot (c : char) : bool := negb (isLineTerminator c).      (* . *)
Definition is_csi_param (c : char) : bool :=                           (* [0-9;?] *)
  (is_digit c || code_eqb c (ch ";") || code_eqb c (ch "?"))%bool.
Definition not_rparen (c : char) : bool := negb (code_eqb c (ch ")")). (* [^)] *)
Definition not_gt (c : char) : bool := negb (code_eqb c (ch ">")).     (* [^>] *)
Definition not_gt_nl (c : char) : bool :=                              (* [^>\n] *)
  negb (code_eqb c (ch ">") || code_eqb c NL).
Definition gt_or_star (c : char) : bool :=                             (* [>*] *)
  (code_eqb c (ch ">") || code_eqb c (ch "*"))%bool.

(** [/\x1b\[[0-9;?]*[A-Za-z]|\x1b\].*?\x07/g] *)
Definition ANSI_REGEX : regex :=
  Alt (seqs [lit [ESC; ch "["]; Star is_csi_param; Cls is_alpha])
      (seqs [lit [ESC; ch "]"]; StarLazy is_dot; Cls (code_eqb BEL)]).

Definition stripAnsi (s : str) : str := remove_all ANSI_REGEX 0 None s.

(** The three alternatives of the group of [PROMPT_REGEX]. *)
Definition irb_prompt : regex :=      (* irb\([^)]+\):\d+:\d+[>*] ? *)
  seqs [lit (js "irb("); Plus not_rparen; lit (js "):"); Plus is_digit;
        lit (js ":"); Plus is_digit; Cls gt_or_star; Opt (code_eqb (ch " "))].
Definition pry_prompt : regex :=      (* \[\d+\] [^>]+>  *)
  seqs [lit (js "["); Plus is_digit; lit (js "] "); Plus not_gt; lit (js "> ")].
Definition custom_prompt : regex :=   (* [^>\n]+\(\w+\)>  *)
  seqs [Plus not_gt_nl; lit (js "("); Plus is_word; lit (js ")> ")].

Definition prompt_group : regex := alts [irb_prompt; pry_prompt; custom_prompt].

(** [/\n(irb\([^)]+\):\d+:\d+[>*] ?|\[\d+\] [^>]+> |[^>\n]+\(\w+\)> )$/] *)
Definition PROMPT_REGEX : regex := seqs [Cls (code_eqb NL); prompt_group; Eoi].

(** The exception names of the first classification pattern. *)
Definition exception_names : list str :=
  [js "SyntaxError"; js "NameError"; js "NoMethodError"; js "ArgumentError";
   js "TypeError"; js "RuntimeError"; js "StandardError"].

(** [/^(SyntaxError|NameError|NoMethodError|ArgumentError|TypeError|RuntimeError|StandardError)/m] *)
Definition EXCEPTION_REGEX : regex := Seq Bol (alts (List.map lit exception_names)).

Definition traceback_header : str := js "Traceback (most recent call last)".

(** [/^Traceback \(most recent call last\)/m] *)
Definition TRACEBACK_REGEX : regex := Seq Bol (lit traceback_header).

Definition hasError (output : str) : bool :=
  (test EXCEPTION_REGEX output || test TRACEBACK_REGEX output)%bool.

(** The completion detector: what [check] of [waitForPrompt] asks of the
    buffer. *)
Definition isComplete (buffer : str) : bool := test PROMPT_REGEX (stripAnsi buffer).

(** The response of a completed command (lines 193-195). *)
Definition extractResponse (buffer : str) : str :=
  let cleanBuffer := stripAnsi buffer in
  match search PROMPT_REGEX cleanBuffer with
  | Some (index, _) => slice_to index cleanBuffer
  | None => cleanBuffer
  end.

(** ** The session

    [Config] and [ExecResult] are the interfaces of the source.  The
    configuration object is shared by the handler and the session (the
    handler writes [commandTimeout], the session reads it), so it is a field
    of the one state record. *)

Inductive Mode := docker | kubectl.

Record Config := mkConfig {
  mode : Mode;
  container : str;
  kubeContext : str;
  kubeNamespace : str;
  kubeSelector : str;
  kubeContainer : str;
  commandTimeout : Z;
  inactivityTimeout : Z;
  maxOutput : Z
}.

Record ExecResult := mkResult {
  success : bool;
  output : str;
  error : option str
}.

(** What the session does to the outside: a handle is the serial number of
    the [spawn] call that returned it. *)
Inductive effect :=
| Spawn (h : nat) (cmd : str) (args : list str)
| Write (h : nat) (data : str)
| Kill (h : nat).

(** The fields of [RailsConsole] (the mutex apart), and two observers:
    [spawned] counts the calls of [spawn], [trace] lists the effects, oldest
    first. *)
Record RailsConsole := mkConsole {
  config : Config;
  process : option nat;
  buffer : str;
  inactivityTimer : bool;
  hasRestarted : bool;
  spawned : nat;
  trace : list effect
}.

Definition set_commandTimeout (t : Z) (c : Config) : Config :=
  mkConfig (mode c) (container c) (kubeContext c) (kubeNamespace c) (kubeSelector c)
           (kubeContainer c) t (inactivityTimeout c) (maxOutput c).

Definition with_config (c : Config) (s : RailsConsole) : RailsConsole :=
  mkConsole c (process s) (buffer s) (inactivityTimer s) (hasRestarted s)
            (spawned s) (trace s).
Definition with_process (p : option nat) (s : RailsConsole) : RailsConsole :=
  mkConsole (config s) p (buffer s) (inactivityTimer s) (hasRestarted s)
            (spawned s) (trace s).
Definition with_buffer (b : str) (s : RailsConsole) : RailsConsole :=
  mkConsole (config s) (process s) b (inactivityTimer s) (hasRestarted s)
            (spawned s) (trace s).
Definition with_inactivityTimer (t : bool) (s : RailsConsole) : RailsConsole :=
  mkConsole (config s) (process s) (buffer s) t (hasRestarted s)
            (spawned s) (trace s).
Definition with_hasRestarted (f : bool) (s : RailsConsole) : RailsConsole :=
  mkConsole (config s) (process s) (buffer s) (inactivityTimer s) f
            (spawned s) (trace s).
Definition emit (e : effect) (s : RailsConsole) : RailsConsole :=
  mkConsole (config s) (process s) (buffer s) (inactivityTimer s) (hasRestarted s)
            (spawned s) (trace s ++ [e]).
Definition fresh_handle (s : RailsConsole) : RailsConsole :=
  mkConsole (config s) (process s) (buffer s) (inactivityTimer s) (hasRestarted s)
            (S (spawned s)) (trace s).

(** [new RailsConsole(config)]. *)
Definition new_RailsConsole (c : Config) : RailsConsole :=
  mkConsole c None [] false false 0 [].

(** The stdout handler of [start] (lines 91-97). *)
Definition append_output (maxOut : Z) (buf chunk : str) : str :=
  let b := buf ++ chunk in
  if Z.of_nat (length b) >? maxOut then slice_from (- maxOut) b else b.

Definition kill (s : RailsConsole) : RailsConsole :=
  let s1 := if inactivityTimer s then with_inactivityTimer false s else s in
  match process s1 with
  | Some h => with_process None (emit (Kill h) s1)
  | None => s1
  end.

Definition close (s : RailsConsole) : RailsConsole := kill s.

Definition resetInactivityTimer (s : RailsConsole) : RailsConsole :=
  with_inactivityTimer true s.

(** What can happen while the session waits, or between calls: data on the
    subprocess's stdout or stderr, its [close] event with the exit code
    ([None] when a signal ended it), the inactivity timer running out.  The
    handlers are closures over the session, not over the handle that emits
    the event. *)
Inductive event :=
| StdoutData (chunk : str)
| StderrData (chunk : str)
| ProcClose (code : option Z)
| InactivityElapsed.

Definition deliver (e : event) (s : RailsConsole) : RailsConsole :=
  match e with
  | StdoutData chunk =>
      with_buffer (append_output (maxOutput (config s)) (buffer s) chunk) s
  | StderrData _ => s
  | ProcClose _ => with_process None s
  | InactivityElapsed => if inactivityTimer s then kill s else s
  end.

Definition deliver_all (es : list event) (s : RailsConsole) : RailsConsole :=
  fold_left (fun st e => deliver e st) es s.

(** One later run of [check]: the events delivered since the previous run,
    and [Date.now() - startTime] at this run. *)
Record Poll := mkPoll {
  arrived : list event;
  elapsed : Z
}.

Definition has_process (s : RailsConsole) : bool :=
  match process s with Some _ => true | None => false end.

(** The runs of [check] after the first.  When the script ends nothing more
    arrives: the run that finds the deadline passed resolves [false]. *)
Fixpoint poll_loop (timeoutMs : Z) (polls : list Poll) (s : RailsConsole)
  : bool * RailsConsole :=
  match polls with
  | [] => (false, s)
  | p :: rest =>
      let s' := deliver_all (arrived p) s in
      if isComplete (buffer s') then (true, s')
      else if elapsed p >? timeoutMs then (false, s')
      else if negb (has_process s') then (false, s')
      else poll_loop timeoutMs rest s'
  end.

(** [waitForPrompt]: the first run of [check] is synchronous, zero
    milliseconds after [startTime]. *)
Definition waitForPrompt (timeoutMs : Z) (polls : list Poll) (s : RailsConsole)
  : bool * RailsConsole :=
  if isComplete (buffer s) then (true, s)
  else if 0 >? timeoutMs then (false, s)
  else if negb (has_process s) then (false, s)
  else poll_loop timeoutMs polls s.

Definition remove_quotes (s : str) : str :=
  filter (fun c => negb (code_eqb c (ch "'"))) s.

(** [discoverPod], given what [execSync] returns ([None] when it throws). *)
Definition discoverPod (queried : option str) : option str :=
  match queried with
  | None => None
  | Some raw =>
      match remove_quotes (trim raw) with
      | [] => None
      | result => Some result
      end
  end.

Definition console_args : list str :=
  [js "bundle"; js "exec"; js "rails"; js "console"; js "--"; js "--nomultiline"].

Definition buildSpawnArgs (c : Config) (queried : option str) : option (str * list str) :=
  match mode c with
  | docker => Some (js "docker", [js "exec"; js "-i"; container c] ++ console_args)
  | kubectl =>
      match discoverPod queried with
      | None => None
      | Some podName =>
          Some (js "kubectl",
                [js "exec"; js "-i"; js "--context"; kubeContext c;
                 js "--namespace"; kubeNamespace c; js "-c"; kubeContainer c;
                 podName; js "--"] ++ console_args)
      end
  end.

(** The world during one call of [start]: the answer to the pod query, the
    error [spawn] throws if it does, the polls of the wait for the first
    prompt. *)
Record Boot := mkBoot {
  podQuery : option str;
  spawnFault : option str;
  bootPolls : list Poll
}.

Definition failure (out : str) (msg : str) : ExecResult := mkResult false out (Some msg).

Definition start (w : Boot) (s : RailsConsole) : ExecResult * RailsConsole :=
  match buildSpawnArgs (config s) (podQuery w) with
  | None => (failure [] (js "Failed to build spawn arguments"), s)
  | Some (cmd, args) =>
      match spawnFault w with
      | Some err => (failure [] (js "Failed to start: " ++ err), s)
      | None =>
          let h := spawned s in
          let s1 := with_buffer [] (with_process (Some h)
                      (fresh_handle (emit (Spawn h cmd args) s))) in
          let startTimeout := match mode (config s1) with
                              | kubectl => 60000
                              | docker => 30000
                              end in
          let (ready, s2) := waitForPrompt startTimeout (bootPolls w) s1 in
          if ready
          then (mkResult true [] None, with_hasRestarted false (with_buffer [] s2))
          else (failure [] (js "Timeout waiting for Rails console to start"), kill s2)
      end
  end.

(** [`${ms / 1000}`] for an integer number of milliseconds (of magnitude
    below 2^53, where the quotient prints in positional notation). *)
Definition digits (n : Z) : str := js (NilZero.string_of_uint (N.to_uint (Z.to_N n))).

Definition fraction (r : Z) : str :=
  if r =? 0 then []
  else if r mod 100 =? 0 then js "." ++ digits (r / 100)
  else if r mod 10 =? 0 then js "." ++ digits (r / 100) ++ digits (r / 10 mod 10)
  else js "." ++ digits (r / 100) ++ digits (r / 10 mod 10) ++ digits (r mod 10).

Definition seconds (ms : Z) : str :=
  (if ms <? 0 then js "-" else [])
    ++ digits (Z.abs ms / 1000) ++ fraction (Z.abs ms mod 1000).

Definition timed_out_message (c : Config) : str :=
  js "Command timed out after " ++ seconds (commandTimeout c) ++ js "s".

Definition restarted_message (c : Config) : str :=
  timed_out_message c ++ js ". Session restarted.".

(** The world during one call of [exec]: the lazy start if there is one,
    the wait for the command's prompt, the restart if there is one. *)
Record Call := mkCall {
  lazyStart : Boot;
  commandPolls : list Poll;
  restart : Boot
}.

(** Lines 166-169 of [executeCommand]: clear the buffer, write the code,
    wait for the prompt. *)
Definition await_command (h : nat) (code : str) (w : Call) (s : RailsConsole)
  : bool * RailsConsole :=
  let s1 := emit (Write h (code ++ [NL])) (with_buffer [] s) in
  waitForPrompt (commandTimeout (config s1)) (commandPolls w) s1.

Definition executeCommand (code : str) (w : Call) (s : RailsConsole)
  : ExecResult * RailsConsole :=
  match process s with
  | None => (failure [] (js "No active session"), s)
  | Some h =>
      let (completed, s2) := await_command h code w s in
      if negb completed then
        let s3 := kill s2 in
        if negb (hasRestarted s3) then
          let s4 := with_hasRestarted true s3 in
          let (restarted, s5) := start (restart w) s4 in
          if success restarted
          then (failure (buffer s5) (restarted_message (config s5)), s5)
          else (failure (buffer s5) (timed_out_message (config s5)), s5)
        else (failure (buffer s3) (timed_out_message (config s3)), s3)
      else
        let output := extractResponse (buffer s2) in
        let err := hasError output in
        (mkResult (negb err) (trim output)
                  (if err then Some (js "Ruby error (see output)") else None), s2)
  end.

(** The body that [exec] runs under the mutex, from line 57 to its return,
    with the configuration as the session finds it.  (What other requests
    do to [commandTimeout] during its awaits is the matter of the server
    below, which runs the body in the stretches between its awaits.) *)
Definition exec (code : str) (w : Call) (s : RailsConsole) : ExecResult * RailsConsole :=
  match process s with
  | None =>
      let (started, s1) := start (lazyStart w) s in
      if negb (success started) then (started, s1)
      else executeCommand code w (resetInactivityTimer s1)
  | Some _ => executeCommand code w (resetInactivityTimer s)
  end.

(** ** The tool-call handler (lines 321-345) *)

Record Request := mkRequest {
  name : str;
  code : str;
  timeout : option Z
}.

(** Truthiness of an optional integer and of an optional string. *)
Definition truthy_number (t : option Z) : bool :=
  match t with Some n => negb (n =? 0) | None => false end.
Definition truthy_string (e : option str) : bool :=
  match e with Some (_ :: _) => true | _ => false end.

(** The configuration the call of [session.exec] runs under. *)
Definition override (req : Request) (s : RailsConsole) : RailsConsole :=
  match timeout req with
  | Some t => if truthy_number (timeout req)
              then with_config (set_commandTimeout t (config s)) s else s
  | None => s
  end.

Definition response_text (result : ExecResult) : str :=
  match error result with
  | Some e => if truthy_string (error result)
              then js "Error: " ++ e ++ [NL; NL] ++ output result
              else output result
  | None => output result
  end.

(** The handler when no other request is served while it awaits
    [session.exec]: [inr] is the text of the response, [inl] the message of
    the error it throws.  (Requests that overlap are the matter of the
    server below, whose steps [Arrive] and [Respond] are the two halves of
    this function; [handler_is_a_run] relates the two.) *)
Definition handler (req : Request) (w : Call) (s : RailsConsole)
  : (str + str) * RailsConsole :=
  if negb (str_eqb (name req) (js "rails_console_exec"))
  then (inl (js "Unknown tool: " ++ name req), s)
  else
    let originalTimeout := commandTimeout (config s) in
    let s1 := override req s in
    let (result, s2) := exec (code req) w s1 in
    let s3 := with_config (set_commandTimeout originalTimeout (config s2)) s2 in
    (inr (response_text result), s3).

(** ** Reading the patterns as languages

    [Matches r prev w rest]: the pattern [r] can consume exactly [w] when
    [prev] is the code unit before it and [rest] is what follows. *)

Definition last_of (prev : option char) (w : str) : option char :=
  fold_left (fun _ c => Some c) w prev.

Inductive Matches : regex -> option char -> str -> str -> Prop :=
| M_Eps prev rest : Matches Eps prev [] rest
| M_Cls p c prev rest : p c = true -> Matches (Cls p) prev [c] rest
| M_Seq a b prev w1 w2 rest :
    Matches a prev w1 (w2 ++ rest) ->
    Matches b (last_of prev w1) w2 rest ->
    Matches (Seq a b) prev (w1 ++ w2) rest
| M_AltL a b prev w rest : Matches a prev w rest -> Matches (Alt a b) prev w rest
| M_AltR a b prev w rest : Matches b prev w rest -> Matches (Alt a b) prev w rest
| M_Star p prev w rest : forallb p w = true -> Matches (Star p) prev w rest
| M_StarLazy p prev w rest : forallb p w = true -> Matches (StarLazy p) prev w rest
| M_Plus p prev c w rest :
    p c = true -> forallb p w = true -> Matches (Plus p) prev (c :: w) rest
| M_OptSome p prev c rest : p c = true -> Matches (Opt p) prev [c] rest
| M_OptNone p prev rest : Matches (Opt p) prev [] rest
| M_Bol prev rest : at_line_start prev = true -> Matches Bol prev [] rest
| M_Eoi prev : Matches Eoi prev [] [].

(** ** The words of the specification *)

(** A line begins right after [pre]: at the start of the text or after a
    line terminator. *)
Definition line_begins_after (pre : str) : Prop :=
  pre = [] \/ exists pre' c, pre = pre' ++ [c] /\ isLineTerminator c = true.

Definition begins_a_line_with (w out : str) : Prop :=
  exists pre suf, out = pre ++ w ++ suf /\ line_begins_after pre.

(** The output begins a line with one of the exception names, or has a
    line that starts with the stack-trace header. *)
Definition classified_as_error (out : str) : Prop :=
  (exists n, In n exception_names /\ begins_a_line_with n out)
  \/ begins_a_line_with traceback_header out.

(** A customised prompt: [user@host(main)> ] and the like. *)
Definition custom_shape (p : str) : Prop :=
  exists who ctx,
    p = who ++ js "(" ++ ctx ++ js ")> "
    /\ who <> [] /\ forallb not_gt_nl who = true
    /\ ctx <> [] /\ forallb is_word ctx = true.

(** The five prompts the specification lists. *)
Definition listed_prompts : list str :=
  [js "irb(main):001:0> "; js "irb(main):002:0* "; js "[1] pry(main)> ";
   js "pry(main)> "; js "user@host(main)> "].

(** The last line of a text: what follows its last line feed. *)
Fixpoint final_line (s : str) : str :=
  match s with
  | [] => []
  | c :: t => if existsb (code_eqb NL) t then final_line t
              else if code_eqb c NL then t else s
  end.

(** A line is a prompt when the group of [PROMPT_REGEX] matches the whole
    of it. *)
Definition is_prompt_line (line : str) : bool :=
  match rmatch (Seq prompt_group Eoi) (Some NL) line (fun _ _ => Some tt) with
  | Some _ => true
  | None => false
  end.

(** The command writes that a list of effects holds, oldest first. *)
Fixpoint writes_of (es : list effect) : list (nat * str) :=
  match es with
  | [] => []
  | Write h d :: t => (h, d) :: writes_of t
  | _ :: t => writes_of t
  end.

Inductive subseq {A} : list A -> list A -> Prop :=
| subseq_nil : subseq [] []
| subseq_skip x l1 l2 : subseq l1 l2 -> subseq l1 (x :: l2)
| subseq_keep x l1 l2 : subseq l1 l2 -> subseq (x :: l1) (x :: l2).

(** Whenever a handle is held, the restart has not been used. *)
Definition live_is_fresh (s : RailsConsole) : Prop :=
  process s <> None -> hasRestarted s = false.

Definition well_formed (r : ExecResult) : Prop :=
  error r <> None <-> success r = false.

(** The last [n] code units of a text (all of it when it has fewer). *)
Definition tail_of (n : nat) (s : str) : str := skipn (length s - n) s.

(** The buffer after the chunks of [chunks] have arrived in order. *)
Definition feed (maxOut : Z) (chunks : list str) (buf : str) : str :=
  fold_left (append_output maxOut) chunks buf.

(** A step that spawns nothing and writes nothing: it leaves the
    configuration and the restart flag alone, keeps the handle or drops it,
    and adds no command write to the trace. *)
Definition quiet (s s' : RailsConsole) : Prop :=
  config s' = config s
  /\ hasRestarted s' = hasRestarted s
  /\ spawned s' = spawned s
  /\ (process s' = process s \/ process s' = None)
  /\ exists ks, trace s' = trace s ++ ks /\ writes_of ks = [].

(** ** Scenarios *)

Definition cfg0 : Config :=
  mkConfig docker (js "web") [] (js "default") [] (js "web") 60000 7200000 1048576.

(** The same configuration with [RAILS_MCP_MAX_OUTPUT=0]. *)
Definition cfg_zero_ceiling : Config :=
  mkConfig docker (js "web") [] (js "default") [] (js "web") 60000 7200000 0.

Definition irb (n : string) : str := NL :: js "irb(main):" ++ js n ++ js ":0> ".

(** The console boots and shows its first prompt. *)
Definition boots : Boot :=
  mkBoot None None
    [mkPoll [StdoutData (js "Loading development environment" ++ irb "001")] 50].

(** The console says nothing until the start-up deadline has passed. *)
Definition silent : Boot := mkBoot None None [].

(** The command answers [body] and the next prompt within 50 ms. *)
Definition answers (body : str) : list Poll :=
  [mkPoll [StdoutData (body ++ irb "002")] 50].

(** The command prints [partial] and then nothing until 60.05 s. *)
Definition hangs (partial : str) : list Poll :=
  [mkPoll [StdoutData partial] 50; mkPoll [] 60050].

(** A session brought up by a first, successful call. *)
Definition ready_session : RailsConsole :=
  snd (exec (js "x = 42") (mkCall boots (answers (js "=> 42" ++ [NL])) silent)
         (new_RailsConsole cfg0)).

(** A long query that prints progress and never returns to the prompt,
    while a restarted console boots. *)
Definition slow_query : str * Call :=
  (js "User.find_each { |u| puts u.id }",
   mkCall silent (hangs (js "1" ++ NL :: js "2" ++ [NL])) boots).

(** A request with [timeout: 0], answered after 100 ms. *)
Definition zero_timeout_request : Request :=
  mkRequest (js "rails_console_exec") (js "1 + 1") (Some 0).
Definition answers_late : Call :=
  mkCall silent
    [mkPoll [] 50; mkPoll [StdoutData (js "=> 2" ++ irb "002")] 100]
    boots.

(** A request with [timeout: 5000], on a command that hangs. *)
Definition short_timeout_request : Request :=
  mkRequest (js "rails_console_exec") (js "sleep 10") (Some 5000).
Definition hangs_6s : Call :=
  mkCall silent [mkPoll [] 50; mkPoll [] 6000] boots.

(** A second command on a session that is up. *)
Definition doubles : Call := mkCall silent (answers (js "=> 84" ++ [NL])) silent.

(** Texts in which a pattern of the first two alternatives runs over a
    line feed. *)
Definition two_line_irb : str := js "x" ++ NL :: js "irb(a" ++ NL :: js "b):1:1>".
Definition nested_shell : str :=
  js "=> nil" ++ NL :: js "[1] connecting" ++ NL :: js "mysql> ".
Definition numbered_output : str :=
  js "z" ++ NL :: js "[1] a" ++ NL :: js "[2] pry(main)> ".

(** ** The configuration from the environment (lines 260-278)

    [process.env] maps a variable to its value if it is set.  [parseInt]
    with radix 10 skips leading white space, reads a sign and the longest
    run of decimal digits, and yields [NaN] ([None]) when there is no
    digit; the integer is exact for magnitudes below 2^53.  The mode is
    cast, not checked, so the loaded configuration keeps it as text. *)

Definition Env := str -> option str.

(** [value || fallback] on the value of a variable. *)
Definition or_default (value : option str) (fallback : str) : str :=
  match value with
  | Some (c :: t) => c :: t
  | _ => fallback
  end.

Fixpoint leading_digits (s : str) : str :=
  match s with
  | c :: t => if is_digit c then c :: leading_digits t else []
  | [] => []
  end.

Definition decimal_value (ds : str) : Z :=
  fold_left (fun acc c => 10 * acc + (Z.of_N c - 48)) ds 0.

Definition parseInt (s : str) : option Z :=
  let t := trimStart s in
  let (sign, u) :=
    match t with
    | c :: r => if code_eqb c (ch "-") then (-1, r)
                else if code_eqb c (ch "+") then (1, r)
                else (1, t)
    | [] => (1, t)
    end in
  match leading_digits u with
  | [] => None
  | ds => Some (sign * decimal_value ds)
  end.

Module Loaded.
Record Config := mkConfig {
  mode : str;
  container : str;
  kubeContext : str;
  kubeNamespace : str;
  kubeSelector : str;
  kubeContainer : str;
  commandTimeout : option Z;
  inactivityTimeout : option Z;
  maxOutput : option Z
}.
End Loaded.

Definition loadConfig (env : Env) : Loaded.Config :=
  let mode := or_default (env (js "RAILS_MCP_MODE")) (js "docker") in
  Loaded.mkConfig
    mode
    (or_default (env (js "RAILS_MCP_CONTAINER")) (js "web"))
    (or_default (env (js "RAILS_MCP_KUBE_CONTEXT")) [])
    (or_default (env (js "RAILS_MCP_KUBE_NAMESPACE")) (js "default"))
    (or_default (env (js "RAILS_MCP_KUBE_SELECTOR")) [])
    (or_default (env (js "RAILS_MCP_KUBE_CONTAINER")) (js "web"))
    (parseInt (or_default (env (js "RAILS_MCP_COMMAND_TIMEOUT")) (js "60000")))
    (parseInt (or_default (env (js "RAILS_MCP_INACTIVITY_TIMEOUT")) (js "7200000")))
    (parseInt (or_default (env (js "RAILS_MCP_MAX_OUTPUT")) (js "1048576"))).

(** The loaded configurations the session model covers: the mode is one
    of the two of the type, the three numbers are integers. *)
Definition checked (l : Loaded.Config) : option Config :=
  match (if str_eqb (Loaded.mode l) (js "docker") then Some docker
         else if str_eqb (Loaded.mode l) (js "kubectl") then Some kubectl
         else None),
        Loaded.commandTimeout l, Loaded.inactivityTimeout l, Loaded.maxOutput l with
  | Some m, Some ct, Some it, Some mo =>
      Some (mkConfig m (Loaded.container l) (Loaded.kubeContext l)
              (Loaded.kubeNamespace l) (Loaded.kubeSelector l)
              (Loaded.kubeContainer l) ct it mo)
  | _, _, _, _ => None
  end.

(** The value of a decimal numeral, digit by digit. *)
Fixpoint uint_value (u : Decimal.uint) (acc : Z) : Z :=
  match u with
  | Decimal.Nil => acc
  | Decimal.D0 l => uint_value l (10 * acc)
  | Decimal.D1 l => uint_value l (10 * acc + 1)
  | Decimal.D2 l => uint_value l (10 * acc + 2)
  | Decimal.D3 l => uint_value l (10 * acc + 3)
  | Decimal.D4 l => uint_value l (10 * acc + 4)
  | Decimal.D5 l => uint_value l (10 * acc + 5)
  | Decimal.D6 l => uint_value l (10 * acc + 6)
  | Decimal.D7 l => uint_value l (10 * acc + 7)
  | Decimal.D8 l => uint_value l (10 * acc + 8)
  | Decimal.D9 l => uint_value l (10 * acc + 9)
  end.

(** No variable is set to a non-empty value. *)
Definition blank (env : Env) : Prop := forall v, env v = None \/ env v = Some [].

(** A text that does not go on with a digit. *)
Definition stops_number (rest : str) : Prop :=
  rest = [] \/ exists c r, rest = c :: r /\ is_digit c = false.

(** A text that begins with a code unit with which no integer begins. *)
Definition starts_no_number (t : str) : Prop :=
  exists c r, t = c :: r
              /\ isTrimmed c = false /\ is_digit c = false
              /\ code_eqb c (ch "-") = false /\ code_eqb c (ch "+") = false.

(** ** Notions for the properties of the rest of the file *)

(** Only data of the subprocess arrives: no [close] event, no expiry of the
    inactivity timer. *)
Definition is_data (e : event) : bool :=
  match e with
  | StdoutData _ | StderrData _ => true
  | _ => false
  end.

Definition only_data (polls : list Poll) : bool :=
  forallb (fun p => forallb is_data (arrived p)) polls.

(** The stdout chunks among the events, in order of arrival. *)
Fixpoint stdout_of (es : list event) : list str :=
  match es with
  | [] => []
  | StdoutData chunk :: t => chunk :: stdout_of t
  | _ :: t => stdout_of t
  end.

Definition no_ESC (s : str) : bool := forallb (fun c => negb (code_eqb c ESC)) s.

(** A complete control sequence of the first kind: [ESC [], parameters, a
    letter. *)
Definition csi_sequence (q : str) : Prop :=
  exists ps l,
    q = ESC :: ch "[" :: ps ++ [l]
    /\ forallb is_csi_param ps = true /\ is_alpha l = true.

(** A complete control sequence of the second kind: [ESC ]], a text on one
    line, the first BEL. *)
Definition osc_sequence (q : str) : Prop :=
  exists body,
    q = ESC :: ch "]" :: body ++ [BEL]
    /\ forallb is_dot body = true
    /\ forallb (fun c => negb (code_eqb c BEL)) body = true.

Definition control_sequence (q : str) : Prop := csi_sequence q \/ osc_sequence q.

(** A pattern that never looks at the code unit before the position. *)
Fixpoint no_bol (r : regex) : bool :=
  match r with
  | Bol => false
  | Seq a b | Alt a b => (no_bol a && no_bol b)%bool
  | _ => true
  end.

(** The code units a prompt can end in. *)
Definition prompt_mark (c : char) : Prop := c = ch " " \/ c = ch ">" \/ c = ch "*".

(** Every word of [r] that reaches the end of the text ends in such a code
    unit. *)
Definition ends_in_mark (r : regex) : Prop :=
  forall prev w, Matches r prev w [] -> w <> [] /\ prompt_mark (last w NL).

Definition is_quote (c : char) : bool := code_eqb c (ch "'").

(** The arguments of [kubectl exec] for a pod. *)
Definition kubectl_args (c : Config) (podName : str) : list str :=
  [js "exec"; js "-i"; js "--context"; kubeContext c;
   js "--namespace"; kubeNamespace c; js "-c"; kubeContainer c;
   podName; js "--"] ++ console_args.

(** The session holds no handle, or its inactivity timer is set. *)
Definition armed_or_gone (s : RailsConsole) : Prop :=
  process s = None \/ inactivityTimer s = true.

(** The error text of a completed command whose output shows a Ruby
    error. *)
Definition ruby_error : str := js "Ruby error (see output)".

(** The result is the outcome of a command that ran to its prompt. *)
Definition is_command_outcome (r : ExecResult) : Prop :=
  error r = None \/ error r = Some ruby_error.

(** The result reports a command that timed out, restarted or not. *)
Definition is_timeout_report (c : Config) (r : ExecResult) : Prop :=
  error r = Some (timed_out_message c) \/ error r = Some (restarted_message c).

(** The handles of the spawns of a trace, oldest first. *)
Fixpoint spawns_of (es : list effect) : list nat :=
  match es with
  | [] => []
  | Spawn h _ _ :: t => h :: spawns_of t
  | _ :: t => spawns_of t
  end.

(** The console a trace leaves running under the session's control: the
    one spawned last, unless it was killed since. *)
Fixpoint holder_from (cur : option nat) (es : list effect) : option nat :=
  match es with
  | [] => cur
  | Spawn h _ _ :: t => holder_from (Some h) t
  | Write _ _ :: t => holder_from cur t
  | Kill _ :: t => holder_from None t
  end.

Definition holds (cur : option nat) (h : nat) : bool :=
  match cur with Some h' => Nat.eqb h h' | None => false end.

(** Every write and every kill of the trace goes to the console that the
    trace before it leaves running. *)
Fixpoint aimed_from (cur : option nat) (es : list effect) : bool :=
  match es with
  | [] => true
  | Spawn h _ _ :: t => aimed_from (Some h) t
  | Write h _ :: t => (holds cur h && aimed_from cur t)%bool
  | Kill h :: t => (holds cur h && aimed_from None t)%bool
  end.

(** The handle, the count of spawns and the trace agree. *)
Definition coherent (s : RailsConsole) : Prop :=
  aimed_from None (trace s) = true
  /\ (forall h, process s = Some h ->
        holder_from None (trace s) = Some h /\ spawned s = S h)
  /\ spawns_of (trace s) = seq 0 (spawned s).

(** ** The server: tool calls that overlap

    The handler of lines 321-345 is an async function.  It saves and
    overrides [config.commandTimeout] (326-331), awaits [session.exec]
    (333) and restores the saved value (335); while it awaits, the event
    loop serves other requests, whose handlers read and write the same
    configuration object.  [exec] runs its body under the mutex, and the
    body awaits in its turn: the lazy start, the prompt of the command,
    the restart.

    A step of the server is a stretch of one call between two awaits.  The
    waits inside [start] and [executeCommand] stay whole.  What another
    request does during a wait is to read and write [commandTimeout] and to
    queue on the mutex; the waits, [kill] and [start] neither read nor
    write [commandTimeout] ([waitForPrompt_retimed], [kill_retimed],
    [start_retimed]), so the step of the other request is taken when the
    wait has ended.  [executeCommand] reads [commandTimeout] before its
    wait (line 169) and again for the message of a timeout (181, 188):
    [command_begin] runs up to the last await, [command_end] builds the
    result.

    The steps can be taken in more orders than the event loop produces (a
    continuation that the loop runs at once may here wait while other
    steps pass); every order of the event loop is among them. *)

Definition write_commandTimeout (t : Z) (s : RailsConsole) : RailsConsole :=
  with_config (set_commandTimeout t (config s)) s.

(** Where [executeCommand] stands when its last await is over: it has a
    result that no longer depends on the configuration, or it has timed
    out and has still to build its message. *)
Inductive Pending :=
| Resolved (r : ExecResult)
| TimedOut (restarted : bool).

(** Lines 162-177 of [executeCommand], and 192-205. *)
Definition command_begin (code : str) (w : Call) (s : RailsConsole)
  : Pending * RailsConsole :=
  match process s with
  | None => (Resolved (failure [] (js "No active session")), s)
  | Some h =>
      let (completed, s2) := await_command h code w s in
      if negb completed then
        let s3 := kill s2 in
        if negb (hasRestarted s3) then
          let s4 := with_hasRestarted true s3 in
          let (restarted, s5) := start (restart w) s4 in
          (TimedOut (success restarted), s5)
        else (TimedOut false, s3)
      else
        let output := extractResponse (buffer s2) in
        let err := hasError output in
        (Resolved (mkResult (negb err) (trim output)
                     (if err then Some (js "Ruby error (see output)") else None)), s2)
  end.

(** Lines 178-189: the result of a timeout, from the buffer and the
    configuration as they are when it is built. *)
Definition command_end (p : Pending) (s : RailsConsole) : ExecResult :=
  match p with
  | Resolved r => r
  | TimedOut true => failure (buffer s) (restarted_message (config s))
  | TimedOut false => failure (buffer s) (timed_out_message (config s))
  end.

(** Modelled from the spec: the serialization lock of the session ([Mutex]
    of the package async-mutex, which is not under src/).  "Acquisition is
    strictly FIFO, and the lock is held for the full duration" of the
    body: [acquire] grants a free lock at once and queues the caller behind
    the others when the lock is held; [release] hands the lock to the
    caller queued first and frees it when nobody waits. *)
Record Mutex := mkMutex {
  locked : bool;
  waiters : list nat
}.

Definition acquire (i : nat) (m : Mutex) : bool * Mutex :=
  if locked m then (false, mkMutex true (waiters m ++ [i]))
  else (true, mkMutex true (waiters m)).

Definition release (m : Mutex) : option nat * Mutex :=
  match waiters m with
  | [] => (None, mkMutex false [])
  | i :: rest => (Some i, mkMutex true rest)
  end.

(** How far a tool call has come: its [exec] waits for the mutex; it holds
    the mutex and its body is at line 57; the lazy start is done (line
    63); the command has timed out and the message is still to be built
    (line 178 or 185); [exec] has returned and the handler is at line 335;
    the response is sent. *)
Inductive Stage :=
| Queued
| Granted
| Started
| Suspended (restarted : bool)
| Returned (result : ExecResult)
| Answered (text : str).

(** A tool call in the server: [originalTimeout] is the local of line 330. *)
Record ToolCall := mkToolCall {
  request : Request;
  originalTimeout : Z;
  stage : Stage
}.

(** The journal of the server, oldest first: call [i] wrote [data] to the
    handle [h]; the result of call [i] is final. *)
Inductive Mark :=
| Wrote (i : nat) (w : nat * str)
| Finalized (i : nat) (r : ExecResult).

(** The session with the configuration it shares with the handler, the
    mutex, the tool calls in the order of their arrival (a call is known by
    its position), the journal, and whether a signal has ended the
    process. *)
Record Server := mkServer {
  session : RailsConsole;
  mutex : Mutex;
  calls : list ToolCall;
  journal : list Mark;
  halted : bool
}.

(** [main], lines 282-293. *)
Definition new_Server (c : Config) : Server :=
  mkServer (new_RailsConsole c) (mkMutex false []) [] [] false.

Fixpoint update {A} (i : nat) (f : A -> A) (l : list A) {struct l} : list A :=
  match l with
  | [] => []
  | x :: t => match i with
              | O => f x :: t
              | S j => x :: update j f t
              end
  end.

Definition restaged (st : Stage) (c : ToolCall) : ToolCall :=
  mkToolCall (request c) (originalTimeout c) st.

Definition set_stage (i : nat) (st : Stage) (cs : list ToolCall) : list ToolCall :=
  update i (restaged st) cs.

(** The effects a step has added to the trace, and its command writes as
    marks of call [i]. *)
Definition new_effects (s s' : RailsConsole) : list effect :=
  skipn (length (trace s)) (trace s').

Definition written (i : nat) (s s' : RailsConsole) : list Mark :=
  map (Wrote i) (writes_of (new_effects s s')).

(** The body of call [i] returns [r] in the session state [s]:
    [runExclusive] releases the mutex, which passes to the call queued
    first, and the promise of [exec] resolves. *)
Definition finalize (i : nat) (r : ExecResult) (s : RailsConsole) (j : list Mark)
    (sv : Server) : Server :=
  let (next, m) := release (mutex sv) in
  let cs := set_stage i (Returned r) (calls sv) in
  mkServer s m
    match next with
    | Some n => set_stage n Granted cs
    | None => cs
    end
    (j ++ [Finalized i r]) (halted sv).

(** The stretches between awaits. *)
Inductive Label :=
| Arrive (req : Request)
| LazyStart (i : nat) (w : Boot)
| RunCommand (i : nat) (w : Call)
| Report (i : nat)
| Respond (i : nat)
| Happen (e : event)
| Signal.

(** The command of a call runs with no await before it when the call is
    granted the mutex on a session that holds a handle (line 57), and
    after the lazy start otherwise. *)
Definition ready_for_command (st : Stage) (p : option nat) : bool :=
  match st, p with
  | Started, _ => true
  | Granted, Some _ => true
  | _, _ => false
  end.

(** One step; [None] when the step cannot be taken in this state.

    - [Arrive req]: the handler up to its await (lines 322-333).  An
      unknown tool name throws and changes nothing; otherwise the timeout
      is saved and overridden and [exec] asks for the mutex.
    - [LazyStart i w]: call [i] holds the mutex and finds no handle (lines
      57-60).
    - [RunCommand i w]: lines 63-65 and [executeCommand] up to its last
      await.
    - [Report i]: the result of a command that timed out (lines 178-189).
    - [Respond i]: the handler after its await (lines 335-344).
    - [Happen e]: an event of a subprocess or of the inactivity timer while
      no call holds the mutex (what arrives while a call holds it is in
      the polls of its waits).
    - [Signal]: SIGINT or SIGTERM (lines 348-349). *)
Definition server_step (l : Label) (sv : Server) : option Server :=
  if halted sv then None else
  match l with
  | Arrive req =>
      if negb (str_eqb (name req) (js "rails_console_exec")) then Some sv
      else
        let originalTimeout := commandTimeout (config (session sv)) in
        let s1 := override req (session sv) in
        let (granted, m) := acquire (length (calls sv)) (mutex sv) in
        Some (mkServer s1 m
                (calls sv ++ [mkToolCall req originalTimeout
                                (if granted then Granted else Queued)])
                (journal sv) (halted sv))
  | LazyStart i w =>
      match nth_error (calls sv) i with
      | Some c =>
          match stage c, process (session sv) with
          | Granted, None =>
              let (started, s1) := start w (session sv) in
              let j := journal sv ++ written i (session sv) s1 in
              if negb (success started) then Some (finalize i started s1 j sv)
              else Some (mkServer s1 (mutex sv) (set_stage i Started (calls sv)) j
                           (halted sv))
          | _, _ => None
          end
      | None => None
      end
  | RunCommand i w =>
      match nth_error (calls sv) i with
      | Some c =>
          if ready_for_command (stage c) (process (session sv)) then
            let s0 := resetInactivityTimer (session sv) in
            let (p, s1) := command_begin (code (request c)) w s0 in
            let j := journal sv ++ written i s0 s1 in
            match p with
            | Resolved r => Some (finalize i r s1 j sv)
            | TimedOut b =>
                Some (mkServer s1 (mutex sv) (set_stage i (Suspended b) (calls sv)) j
                        (halted sv))
            end
          else None
      | None => None
      end
  | Report i =>
      match nth_error (calls sv) i with
      | Some c =>
          match stage c with
          | Suspended b =>
              Some (finalize i (command_end (TimedOut b) (session sv)) (session sv)
                      (journal sv) sv)
          | _ => None
          end
      | None => None
      end
  | Respond i =>
      match nth_error (calls sv) i with
      | Some c =>
          match stage c with
          | Returned result =>
              Some (mkServer (write_commandTimeout (originalTimeout c) (session sv))
                      (mutex sv)
                      (set_stage i (Answered (response_text result)) (calls sv))
                      (journal sv) (halted sv))
          | _ => None
          end
      | None => None
      end
  | Happen e =>
      if locked (mutex sv) then None
      else Some (mkServer (deliver e (session sv)) (mutex sv) (calls sv) (journal sv)
                   (halted sv))
  | Signal =>
      Some (mkServer (close (session sv)) (mutex sv) (calls sv) (journal sv) true)
  end.

Fixpoint run (ls : list Label) (sv : Server) : option Server :=
  match ls with
  | [] => Some sv
  | l :: rest =>
      match server_step l sv with
      | Some sv' => run rest sv'
      | None => None
      end
  end.

(** *** Reading the journal *)

Fixpoint writes_in (j : list Mark) : list (nat * (nat * str)) :=
  match j with
  | [] => []
  | Wrote i w :: t => (i, w) :: writes_in t
  | Finalized _ _ :: t => writes_in t
  end.

Definition wrote (i : nat) (j : list Mark) : Prop := exists w, In (Wrote i w) j.

(** The journal read from the left: [k] calls are final, and [w] tells
    whether call [k] has written.  A write of another call than [k], a
    second write of call [k], and a result of another call than [k] stop
    the reading. *)
Definition scan_step (st : option (nat * bool)) (m : Mark) : option (nat * bool) :=
  match st, m with
  | Some (k, false), Wrote i _ => if Nat.eqb i k then Some (k, true) else None
  | Some (k, _), Finalized i _ => if Nat.eqb i k then Some (S k, false) else None
  | _, _ => None
  end.

Definition scan (j : list Mark) : option (nat * bool) :=
  fold_left scan_step j (Some (0%nat, false)).

(** Each member of the list is less than the members after it. *)
Definition increasing (l : list nat) : Prop :=
  forall p q x y,
    (p < q)%nat -> nth_error l p = Some x -> nth_error l q = Some y -> (x < y)%nat.

(** The results of a call whose command was written: the outcome of the
    command, or the report of its timeout. *)
Definition of_a_command (r : ExecResult) : Prop :=
  error r = None \/ error r = Some ruby_error
  \/ exists secs, error r = Some (js "Command timed out after " ++ secs).

(** The results of a call that wrote nothing: the session had no handle,
    or the lazy start failed. *)
Definition of_no_command (r : ExecResult) : Prop :=
  output r = []
  /\ (error r = Some (js "No active session")
      \/ error r = Some (js "Failed to build spawn arguments")
      \/ error r = Some (js "Timeout waiting for Rails console to start")
      \/ exists err, error r = Some (js "Failed to start: " ++ err)).

(** Every call has its response: nothing is in flight. *)
Definition is_answered (c : ToolCall) : bool :=
  match stage c with Answered _ => true | _ => false end.

Definition is_finished (c : ToolCall) : bool :=
  match stage c with Returned _ | Answered _ => true | _ => false end.

Definition is_queued (c : ToolCall) : bool :=
  match stage c with Queued => true | _ => false end.

(** The call holds the mutex; [w] tells whether it has written. *)
Definition in_body (w : bool) (c : ToolCall) : bool :=
  match stage c with
  | Granted | Started => negb w
  | Suspended _ => w
  | _ => false
  end.

(** The timeouts the configuration can hold: the one it was loaded with
    and the overrides of the requests that have arrived. *)
Definition known_timeout (c0 : Config) (cs : list ToolCall) (t : Z) : Prop :=
  t = commandTimeout c0 \/ In (Some t) (map (fun c => timeout (request c)) cs).

(** The call is in the body of [exec]: it holds the mutex. *)
Definition holds_mutex (c : ToolCall) : bool :=
  match stage c with
  | Granted | Started | Suspended _ => true
  | _ => false
  end.

(** The calls, the mutex and the journal agree: the calls whose result is
    final come first, then the call that holds the mutex if there is one,
    then the calls that wait, which are the waiters of the mutex in their
    order; the journal reads up to the call that holds the mutex. *)
Definition orderly (sv : Server) : Prop :=
  exists done cur rest w,
    calls sv = done ++ cur ++ rest
    /\ forallb is_finished done = true
    /\ forallb (in_body w) cur = true
    /\ (length cur <= 1)%nat
    /\ forallb is_queued rest = true
    /\ locked (mutex sv) = negb (Nat.eqb (length cur) 0)
    /\ waiters (mutex sv) = seq (length done + length cur) (length rest)
    /\ (cur = [] -> rest = [] /\ w = false)
    /\ scan (journal sv) = Some (length done, w).

(** The journal tells what happened: its writes are the command writes of
    the trace; a write of call [i] is the code of request [i] and a line
    feed; a result of call [i] is what its [exec] returned, and it is the
    result of a command exactly when the call has written. *)
Definition recorded (sv : Server) : Prop :=
  map snd (writes_in (journal sv)) = writes_of (trace (session sv))
  /\ (forall i x, In (Wrote i x) (journal sv) ->
        exists tc, nth_error (calls sv) i = Some tc
                   /\ snd x = code (request tc) ++ [NL])
  /\ (forall i r, In (Finalized i r) (journal sv) ->
        (exists tc, nth_error (calls sv) i = Some tc
                    /\ (stage tc = Returned r \/ stage tc = Answered (response_text r)))
        /\ ((wrote i (journal sv) /\ of_a_command r)
            \/ (~ wrote i (journal sv) /\ of_no_command r))).

(** The session of a server that was built on the configuration [c0]. *)
Definition sound (c0 : Config) (sv : Server) : Prop :=
  coherent (session sv)
  /\ live_is_fresh (session sv)
  /\ (exists t, config (session sv) = set_commandTimeout t c0)
  /\ known_timeout c0 (calls sv) (commandTimeout (config (session sv)))
  /\ Forall (known_timeout c0 (calls sv)) (map originalTimeout (calls sv)).

(** *** Scenarios of the server *)

Definition tool : str := js "rails_console_exec".

(** A request with [timeout: 5000] and two requests without timeout. *)
Definition count_request : Request := mkRequest tool (js "User.count") (Some 5000).
Definition plain_request : Request := mkRequest tool (js "1 + 1") None.
Definition report_request : Request := mkRequest tool (js "Report.build") None.

(** The command answers [body] and the next prompt within 50 ms. *)
Definition quick (body : string) : Call :=
  mkCall silent (answers (js body ++ [NL])) silent.

(** The command answers after six seconds; a console that is restarted
    boots. *)
Definition answers_after_6s : Call :=
  mkCall silent
    [mkPoll [] 50; mkPoll [] 5050; mkPoll [StdoutData (js "=> :done" ++ irb "004")] 6000]
    boots.

(** The second request arrives while the first call waits for its
    console to boot. *)
Definition overlapping : list Label :=
  [Arrive count_request; LazyStart 0 boots; Arrive plain_request;
   RunCommand 0 (quick "=> 42"); Respond 0;
   RunCommand 1 (quick "=> 2"); Respond 1].

(** The same two requests, the second after the response to the first. *)
Definition one_by_one : list Label :=
  [Arrive count_request; LazyStart 0 boots; RunCommand 0 (quick "=> 42"); Respond 0;
   Arrive plain_request; RunCommand 1 (quick "=> 2"); Respond 1].

(** A third request, when the two are answered: its command times out, or
    it completes. *)
Definition third_times_out : list Label :=
  [Arrive report_request; RunCommand 2 answers_after_6s; Report 2; Respond 2].
Definition third_completes : list Label :=
  [Arrive report_request; RunCommand 2 answers_after_6s; Respond 2].

(** One request, to a console that never shows its prompt. *)
Definition never_boots : list Label :=
  [Arrive plain_request; LazyStart 0 silent; Respond 0].

(** The server after a run (the server as it was when the run cannot be
    taken). *)
Definition after (ls : list Label) (sv : Server) : Server :=
  match run ls sv with
  | Some sv' => sv'
  | None => sv
  end.

(** The stage of call [i]. *)
Definition stage_of (i : nat) (sv : Server) : option Stage :=
  option_map stage (nth_error (calls sv) i).

(** * Properties *)

(** The cases of the repository's test suite. *)
Example first_command_starts_session :
  let (r, s) := exec (js "User.count")
                  (mkCall boots (answers (js "=> 42" ++ [NL])) silent)
                  (new_RailsConsole cfg0) in
  success r = true
  /\ output r = js "=> 42"
  /\ trace s = [Spawn 0 (js "docker")
                  [js "exec"; js "-i"; js "web"; js "bundle"; js "exec";
                   js "rails"; js "console"; js "--"; js "--nomultiline"];
                Write 0 (js "User.count" ++ [NL])].
Proof. vm_compute. repeat split; reflexivity. Qed.

Example syntax_error_detected :
  let r := fst (exec (js "def foo(")
                  (mkCall boots
                     (answers (js "SyntaxError: unexpected end-of-input" ++ [NL]))
                     silent)
                  (new_RailsConsole cfg0)) in
  success r = false
  /\ error r = Some (js "Ruby error (see output)")
  /\ output r = js "SyntaxError: unexpected end-of-input".
Proof. vm_compute. repeat split; reflexivity. Qed.

Example session_persists :
  let (r, s) := exec (js "x * 2") doubles ready_session in
  success r = true /\ output r = js "=> 84"
  /\ spawned s = spawned ready_session.
Proof. vm_compute. repeat split; reflexivity. Qed.

Example prompt_regex_cases :
  map (test PROMPT_REGEX)
    [js "some output" ++ NL :: js "irb(main):001:0> ";
     js "=> 42" ++ NL :: js "irb(main):002:0> ";
     js "def foo" ++ NL :: js "irb(main):002:0* ";
     js "=> 42" ++ NL :: js "[1] pry(main)> ";
     js "=> 42" ++ NL :: js "[42] pry(main)> ";
     js "=> nil" ++ NL :: js "pry(main)> ";
     js "=> nil" ++ NL :: js "dev@us-central1[us1] (main)> ";
     js "=> nil" ++ NL :: js "<div>";
     js "irb(main):001:0> "]
  = [true; true; true; true; true; true; true; false; false].
Proof. vm_compute. reflexivity. Qed.

Example prompt_irb : isComplete (js "=> 42" ++ NL :: js "irb(main):001:0> ") = true.
Proof. vm_compute. reflexivity. Qed.
Example strip_color :
  stripAnsi ([ESC] ++ js "[1;32m=> 42" ++ [ESC] ++ js "[0m") = js "=> 42".
Proof. vm_compute. reflexivity. Qed.
Example strip_title :
  stripAnsi (js "a" ++ [ESC] ++ js "]0;title" ++ [BEL] ++ js "b") = js "ab".
Proof. vm_compute. reflexivity. Qed.
Example extract_42 :
  extractResponse (js "=> 42" ++ NL :: js "irb(main):001:0> ") = js "=> 42".
Proof. vm_compute. reflexivity. Qed.

(** ** The matcher and the language of a pattern *)

Lemma last_of_app prev w1 w2 : last_of prev (w1 ++ w2) = last_of (last_of prev w1) w2.
Proof. unfold last_of. apply fold_left_app. Qed.

Lemma last_of_cons prev c w : last_of prev (c :: w) = last_of (Some c) w.
Proof. reflexivity. Qed.

Section Matcher.
Context {A : Type}.
Implicit Types (k : option char -> str -> option A).

Lemma star_greedy_sound p : forall s prev k a,
  star_greedy p prev s k = Some a ->
  exists w rest, s = w ++ rest /\ forallb p w = true /\ k (last_of prev w) rest = Some a.
Proof.
  induction s as [|c t IH]; intros prev k a H; simpl in H.
  - exists [], []. auto.
  - destruct (p c) eqn:Hp.
    + destruct (star_greedy p (Some c) t k) eqn:Hin.
      * inversion H; subst. apply IH in Hin as (w & rest & -> & Hw & Hk).
        exists (c :: w), rest. simpl. rewrite Hp, Hw. auto.
      * exists [], (c :: t). auto.
    + exists [], (c :: t). auto.
Qed.

Lemma star_greedy_complete p : forall w prev rest k,
  forallb p w = true -> k (last_of prev w) rest <> None ->
  star_greedy p prev (w ++ rest) k <> None.
Proof.
  induction w as [|c w IH]; intros prev rest k Hw Hk; simpl in *.
  - destruct rest as [|c t]; simpl; auto.
    destruct (p c); auto. destruct (star_greedy p (Some c) t k); [discriminate|auto].
  - apply andb_true_iff in Hw as [Hc Hw]. rewrite Hc.
    specialize (IH (Some c) rest k Hw Hk).
    destruct (star_greedy p (Some c) (w ++ rest) k); [discriminate|contradiction].
Qed.

Lemma star_lazy_sound p : forall s prev k a,
  star_lazy p prev s k = Some a ->
  exists w rest, s = w ++ rest /\ forallb p w = true /\ k (last_of prev w) rest = Some a.
Proof.
  induction s as [|c t IH]; intros prev k a H; simpl in H.
  - destruct (k prev []) eqn:Hk; [|discriminate]. exists [], []. inversion H; subst; auto.
  - destruct (k prev (c :: t)) eqn:Hk.
    + inversion H; subst. exists [], (c :: t). auto.
    + destruct (p c) eqn:Hp; [|discriminate].
      apply IH in H as (w & rest & -> & Hw & Hk').
      exists (c :: w), rest. simpl. rewrite Hp, Hw. auto.
Qed.

Lemma star_lazy_complete p : forall w prev rest k,
  forallb p w = true -> k (last_of prev w) rest <> None ->
  star_lazy p prev (w ++ rest) k <> None.
Proof.
  induction w as [|c w IH]; intros prev rest k Hw Hk; simpl in *.
  - destruct rest; simpl; destruct (k prev _); solve [discriminate|contradiction].
  - apply andb_true_iff in Hw as [Hc Hw]. rewrite Hc.
    destruct (k prev (c :: w ++ rest)); [discriminate|]. apply IH; auto.
Qed.

Lemma rmatch_sound : forall r prev s k a,
  rmatch r prev s k = Some a ->
  exists w rest, s = w ++ rest /\ Matches r prev w rest /\ k (last_of prev w) rest = Some a.
Proof.
  induction r; intros prev s k x H; simpl in H.
  - exists [], s. repeat split; auto. constructor.
  - destruct s as [|c t]; [discriminate|]. destruct (p c) eqn:Hp; [|discriminate].
    exists [c], t. repeat split; auto. constructor; auto.
  - apply IHr1 in H as (w1 & rest1 & -> & M1 & H).
    apply IHr2 in H as (w2 & rest & -> & M2 & H).
    exists (w1 ++ w2), rest. rewrite app_assoc, last_of_app. repeat split; auto.
    constructor; auto.
  - destruct (rmatch r1 prev s k) eqn:H1.
    + inversion H; subst. apply IHr1 in H1 as (w & rest & -> & M & Hk).
      exists w, rest. repeat split; auto. apply M_AltL; auto.
    + apply IHr2 in H as (w & rest & -> & M & Hk).
      exists w, rest. repeat split; auto. apply M_AltR; auto.
  - apply star_greedy_sound in H as (w & rest & -> & Hw & Hk).
    exists w, rest. repeat split; auto. constructor; auto.
  - apply star_lazy_sound in H as (w & rest & -> & Hw & Hk).
    exists w, rest. repeat split; auto. constructor; auto.
  - destruct s as [|c t]; [discriminate|]. destruct (p c) eqn:Hp; [|discriminate].
    apply star_greedy_sound in H as (w & rest & -> & Hw & Hk).
    exists (c :: w), rest. repeat split; auto. constructor; auto.
  - destruct s as [|c t].
    + exists [], []. repeat split; auto. apply M_OptNone.
    + destruct (p c) eqn:Hp.
      * destruct (k (Some c) t) eqn:Hk.
        -- inversion H; subst. exists [c], t. repeat split; auto. apply M_OptSome; auto.
        -- exists [], (c :: t). repeat split; auto. apply M_OptNone.
      * exists [], (c :: t). repeat split; auto. apply M_OptNone.
  - destruct (at_line_start prev) eqn:Hb; [|discriminate].
    exists [], s. repeat split; auto. constructor; auto.
  - destruct s; [|discriminate]. exists [], []. repeat split; auto. constructor.
Qed.

Lemma rmatch_complete : forall r prev w rest,
  Matches r prev w rest ->
  forall k, k (last_of prev w) rest <> None -> rmatch r prev (w ++ rest) k <> None.
Proof.
  induction 1; intros k Hk; simpl in *.
  - auto.
  - rewrite H. auto.
  - rewrite <- app_assoc. apply IHMatches1. apply IHMatches2.
    rewrite <- last_of_app. auto.
  - specialize (IHMatches k Hk). destruct (rmatch a prev (w ++ rest) k); [discriminate|contradiction].
  - destruct (rmatch a prev (w ++ rest) k); [discriminate|]. auto.
  - apply star_greedy_complete; auto.
  - apply star_lazy_complete; auto.
  - rewrite H. apply star_greedy_complete; auto.
  - rewrite H. destruct (k (Some c) rest); [discriminate|contradiction].
  - destruct rest as [|c t]; auto. destruct (p c); auto.
    destruct (k (Some c) t); [discriminate|auto].
  - rewrite H. auto.
  - auto.
Qed.
End Matcher.

Lemma match_here_sound r prev s n :
  match_here r prev s = Some n ->
  exists w rest, s = w ++ rest /\ Matches r prev w rest /\ n = length w.
Proof.
  unfold match_here. destruct (rmatch _ _ _ _) eqn:H; [|discriminate].
  intros E; inversion E; subst; clear E.
  apply rmatch_sound in H as (w & rest & -> & M & Hk). inversion Hk; subst.
  exists w, rest. repeat split; auto. rewrite length_app. lia.
Qed.

Lemma match_here_complete r prev w rest :
  Matches r prev w rest -> match_here r prev (w ++ rest) <> None.
Proof.
  intros M. unfold match_here.
  pose proof (rmatch_complete r prev w rest M (fun _ rest0 => Some (length rest0))) as H.
  destruct (rmatch _ _ _ _); [discriminate|]. exfalso. apply H; [discriminate|reflexivity].
Qed.

Lemma search_from_sound r : forall s prev i j n,
  search_from r prev s i = Some (j, n) ->
  exists pre suf, s = pre ++ suf /\ j = (i + length pre)%nat /\
    match_here r (last_of prev pre) suf = Some n /\
    forall pre' suf', s = pre' ++ suf' -> (length pre' < length pre)%nat ->
      match_here r (last_of prev pre') suf' = None.
Proof.
  induction s as [|c t IH]; intros prev i j n H; simpl in H.
  - destruct (match_here r prev []) eqn:Hm; [|discriminate]. inversion H; subst.
    exists [], []. simpl. repeat split; auto; try lia.
  - destruct (match_here r prev (c :: t)) eqn:Hm.
    + inversion H; subst. exists [], (c :: t). simpl. repeat split; auto; try lia.
    + apply IH in H as (pre & suf & -> & -> & Hh & Hmin).
      exists (c :: pre), suf. simpl. repeat split; auto; try lia.
      intros pre' suf' E L. destruct pre' as [|c' pre'].
      * simpl in E. subst suf'. exact Hm.
      * simpl in E. inversion E; subst. simpl. apply Hmin; auto. simpl in L. lia.
Qed.

Lemma search_from_none r : forall s prev i,
  search_from r prev s i = None ->
  forall pre suf, s = pre ++ suf -> match_here r (last_of prev pre) suf = None.
Proof.
  induction s as [|c t IH]; intros prev i H pre suf E; simpl in H.
  - destruct (match_here r prev []) eqn:Hm; [discriminate|].
    symmetry in E. apply app_eq_nil in E as [-> ->]. exact Hm.
  - destruct (match_here r prev (c :: t)) eqn:Hm; [discriminate|].
    destruct pre as [|c' pre]; simpl in E.
    + subst suf. exact Hm.
    + inversion E; subst. simpl. eapply IH; eauto.
Qed.

Lemma search_from_complete r pre suf prev i :
  match_here r (last_of prev pre) suf <> None ->
  search_from r prev (pre ++ suf) i <> None.
Proof.
  intros H E. apply H. eapply search_from_none; eauto.
Qed.

Lemma test_true_iff r s :
  test r s = true <->
  exists pre w rest, s = pre ++ w ++ rest /\ Matches r (last_of None pre) w rest.
Proof.
  unfold test, search. split.
  - destruct (search_from r None s 0) as [[j n]|] eqn:H; [|discriminate]. intros _.
    apply search_from_sound in H as (pre & suf & -> & _ & Hm & _).
    apply match_here_sound in Hm as (w & rest & -> & M & _). eauto.
  - intros (pre & w & rest & -> & M).
    pose proof (search_from_complete r pre (w ++ rest) None 0%nat (match_here_complete _ _ _ _ M)).
    destruct (search_from _ _ _ _); [reflexivity|contradiction].
Qed.

(** ** The patterns of the source as languages *)

Lemma code_eqb_eq a b : code_eqb a b = true <-> a = b.
Proof. unfold code_eqb. apply N.eqb_eq. Qed.

Lemma Matches_lit l : forall prev w rest, Matches (lit l) prev w rest <-> w = l.
Proof.
  induction l as [|c l IH]; intros prev w rest; simpl; split.
  - inversion 1; reflexivity.
  - intros ->. constructor.
  - inversion 1 as [| |a b pv w1 w2 rs M1 M2| | | | | | | | |]; subst.
    inversion M1; subst. apply IH in M2. subst.
    match goal with H : code_eqb _ _ = true |- _ => apply code_eqb_eq in H; subst end.
    reflexivity.
  - intros ->. change (c :: l) with ([c] ++ l). constructor.
    + constructor. apply code_eqb_eq. reflexivity.
    + apply IH. reflexivity.
Qed.

Lemma Matches_alts rs : forall prev w rest,
  Matches (alts rs) prev w rest <-> exists r, In r rs /\ Matches r prev w rest.
Proof.
  induction rs as [|r rs IH]; intros prev w rest.
  - simpl. split.
    + inversion 1; discriminate.
    + intros (r & [] & _).
  - destruct rs as [|r' rs'].
    + simpl. split.
      * intros M. exists r. auto.
      * intros (r0 & [<-|[]] & M). exact M.
    + change (alts (r :: r' :: rs')) with (Alt r (alts (r' :: rs'))). split.
      * inversion 1 as [| | |a b pv w0 rs0 M|a b pv w0 rs0 M| | | | | | |]; subst.
        -- exists r. split; [left; reflexivity|assumption].
        -- apply IH in M as (r0 & Hin & M).
           exists r0. split; [right; exact Hin|exact M].
      * intros (r0 & [<-|Hin] & M).
        -- apply M_AltL. exact M.
        -- apply M_AltR. apply IH. exists r0. auto.
Qed.

Lemma Matches_Bol_Seq r prev w rest :
  Matches (Seq Bol r) prev w rest <-> at_line_start prev = true /\ Matches r prev w rest.
Proof.
  split.
  - inversion 1 as [| |a b pv w1 w2 rs M1 M2| | | | | | | | |]; subst.
    inversion M1; subst. simpl in *. auto.
  - intros [Hb M]. change w with ([] ++ w). constructor; [constructor; exact Hb|exact M].
Qed.

Lemma last_of_snoc prev w c : last_of prev (w ++ [c]) = Some c.
Proof. rewrite last_of_app. reflexivity. Qed.

Lemma line_begins_after_iff pre :
  line_begins_after pre <-> at_line_start (last_of None pre) = true.
Proof.
  unfold line_begins_after. induction pre as [|c pre' _] using rev_ind.
  - simpl. split; auto.
  - rewrite last_of_snoc. simpl. split.
    + intros [E|(p & c' & E & H)].
      * destruct pre'; discriminate.
      * apply app_inj_tail in E as [_ ->]. exact H.
    + intros H. right. eauto.
Qed.

Lemma test_line_literal l out :
  test (Seq Bol (lit l)) out = true <-> begins_a_line_with l out.
Proof.
  rewrite test_true_iff. unfold begins_a_line_with. split.
  - intros (pre & w & rest & -> & M). apply Matches_Bol_Seq in M as [Hb M].
    apply Matches_lit in M. subst. exists pre, rest. split; auto.
    apply line_begins_after_iff. exact Hb.
  - intros (pre & suf & -> & Hb). exists pre, l, suf. split; auto.
    apply Matches_Bol_Seq. split; [apply line_begins_after_iff; exact Hb|].
    apply Matches_lit. reflexivity.
Qed.

Lemma test_exception_regex out :
  test EXCEPTION_REGEX out = true <->
  exists n, In n exception_names /\ begins_a_line_with n out.
Proof.
  unfold EXCEPTION_REGEX. rewrite test_true_iff. split.
  - intros (pre & w & rest & -> & M). apply Matches_Bol_Seq in M as [Hb M].
    apply Matches_alts in M as (r & Hin & M). apply in_map_iff in Hin as (n & <- & Hn).
    apply Matches_lit in M. subst. exists n. split; auto.
    exists pre, rest. split; auto. apply line_begins_after_iff. exact Hb.
  - intros (n & Hn & pre & suf & -> & Hb). exists pre, n, suf. split; auto.
    apply Matches_Bol_Seq. split; [apply line_begins_after_iff; exact Hb|].
    apply Matches_alts. exists (lit n). split; [apply in_map; exact Hn|].
    apply Matches_lit. reflexivity.
Qed.

(** The classifier of the source decides the words of the specification. *)
Lemma hasError_iff out : hasError out = true <-> classified_as_error out.
Proof.
  unfold hasError, classified_as_error, TRACEBACK_REGEX.
  rewrite orb_true_iff, test_exception_regex, test_line_literal. reflexivity.
Qed.

Lemma hasError_false_iff out : hasError out = false <-> ~ classified_as_error out.
Proof.
  split.
  - intros H C. apply hasError_iff in C. congruence.
  - intros H. destruct (hasError out) eqn:E; [|reflexivity].
    exfalso. apply H. apply hasError_iff. exact E.
Qed.

(** ** Completion detection and response extraction *)

Lemma Matches_Seq_intro a b prev w w1 w2 rest :
  w = w1 ++ w2 ->
  Matches a prev w1 (w2 ++ rest) ->
  Matches b (last_of prev w1) w2 rest ->
  Matches (Seq a b) prev w rest.
Proof. intros ->. apply M_Seq. Qed.

Lemma Matches_Seq_inv a b prev w rest :
  Matches (Seq a b) prev w rest ->
  exists w1 w2, w = w1 ++ w2 /\ Matches a prev w1 (w2 ++ rest)
                /\ Matches b (last_of prev w1) w2 rest.
Proof. inversion 1; subst. eauto. Qed.

(** A match of [PROMPT_REGEX] is a line feed, a word of the group, and the
    end of the text. *)
Lemma Matches_PROMPT_REGEX prev w rest :
  Matches PROMPT_REGEX prev w rest <->
  exists p, w = NL :: p /\ rest = [] /\ Matches prompt_group (Some NL) p [].
Proof.
  unfold PROMPT_REGEX. simpl seqs. split.
  - intros M. apply Matches_Seq_inv in M as (w1 & w2 & -> & M1 & M2).
    inversion M1 as [|q c pv rs Hc| | | | | | | | | |]; subst.
    apply code_eqb_eq in Hc. subst c.
    apply Matches_Seq_inv in M2 as (p & e & -> & Mg & Me).
    inversion Me; subst. rewrite app_nil_r in *. simpl. exists p.
    repeat split; auto.
  - intros (p & -> & -> & Mg).
    apply (Matches_Seq_intro _ _ _ _ [NL] p); [reflexivity| |].
    + constructor. apply code_eqb_eq. reflexivity.
    + apply (Matches_Seq_intro _ _ _ _ p []).
      * symmetry. apply app_nil_r.
      * exact Mg.
      * constructor.
Qed.

Lemma is_prompt_line_iff p :
  is_prompt_line p = true <-> Matches prompt_group (Some NL) p [].
Proof.
  unfold is_prompt_line. split.
  - destruct (rmatch _ _ _ _) eqn:H; [|discriminate]. intros _.
    apply rmatch_sound in H as (w & rest & -> & M & _).
    apply Matches_Seq_inv in M as (w1 & w2 & -> & M1 & M2).
    inversion M2; subst. rewrite !app_nil_r in *. exact M1.
  - intros M.
    assert (Matches (Seq prompt_group Eoi) (Some NL) p []) as M'.
    { apply (Matches_Seq_intro _ _ _ _ p []);
        [symmetry; apply app_nil_r|exact M|constructor]. }
    pose proof (rmatch_complete _ _ _ _ M' (fun _ _ => Some tt)) as H.
    rewrite app_nil_r in H.
    destruct (rmatch _ _ _ _); [reflexivity|]. exfalso. apply H; [discriminate|reflexivity].
Qed.

(** The detector, as a statement about the cleaned text. *)
Lemma isComplete_iff b :
  isComplete b = true <->
  exists body p, stripAnsi b = body ++ NL :: p /\ Matches prompt_group (Some NL) p [].
Proof.
  unfold isComplete. rewrite test_true_iff. split.
  - intros (pre & w & rest & E & M).
    apply Matches_PROMPT_REGEX in M as (p & -> & -> & Mg).
    rewrite app_nil_r in E. eauto.
  - intros (body & p & E & Mg). exists body, (NL :: p), [].
    rewrite app_nil_r. split; [exact E|].
    apply Matches_PROMPT_REGEX. eauto.
Qed.

(** A text that ends with a line feed and a prompt line is complete. *)
Lemma prompt_line_completes b body p :
  stripAnsi b = body ++ NL :: p -> is_prompt_line p = true -> isComplete b = true.
Proof.
  intros E H. apply isComplete_iff. exists body, p. split; [exact E|].
  apply is_prompt_line_iff. exact H.
Qed.

Lemma listed_prompts_are_prompt_lines p :
  In p listed_prompts -> is_prompt_line p = true.
Proof.
  unfold listed_prompts. simpl.
  intros [<-|[<-|[<-|[<-|[<-|[]]]]]]; vm_compute; reflexivity.
Qed.

Lemma forallb_Plus p w prev rest :
  w <> [] -> forallb p w = true -> Matches (Plus p) prev w rest.
Proof.
  destruct w as [|c w]; [congruence|]. simpl. intros _ H.
  apply andb_true_iff in H as [Hc Hw]. constructor; assumption.
Qed.

Lemma custom_shape_is_prompt_line p : custom_shape p -> is_prompt_line p = true.
Proof.
  intros (who & ctx & -> & Hw & Hwho & Hc & Hctx).
  apply is_prompt_line_iff. unfold prompt_group. cbn [alts].
  apply M_AltR, M_AltR. unfold custom_prompt. cbn [seqs].
  eapply Matches_Seq_intro; [reflexivity|apply forallb_Plus; assumption|].
  eapply Matches_Seq_intro; [reflexivity|apply Matches_lit; reflexivity|].
  eapply Matches_Seq_intro; [reflexivity|apply forallb_Plus; assumption|].
  apply Matches_lit. reflexivity.
Qed.

(** The five listed prompts and every customised prompt are recognised,
    whatever the response body before them. *)
Lemma prompts_recognised b body p :
  stripAnsi b = body ++ NL :: p ->
  In p listed_prompts \/ custom_shape p ->
  isComplete b = true.
Proof.
  intros E [H|H]; eapply prompt_line_completes; eauto.
  - apply listed_prompts_are_prompt_lines. exact H.
  - apply custom_shape_is_prompt_line. exact H.
Qed.

(** What [extractResponse] returns: the cleaned text up to the leftmost
    line feed from which the pattern matches through the end of the text
    (a match of the first two alternatives can run over several lines);
    the whole cleaned text when there is none. *)
Lemma extractResponse_complete b :
  isComplete b = true ->
  exists p, stripAnsi b = extractResponse b ++ NL :: p
            /\ Matches prompt_group (Some NL) p []
            /\ forall body' p', stripAnsi b = body' ++ NL :: p' ->
                 Matches prompt_group (Some NL) p' [] ->
                 (length (extractResponse b) <= length body')%nat.
Proof.
  unfold isComplete, test, extractResponse, search, slice_to.
  destruct (search_from PROMPT_REGEX None (stripAnsi b) 0) as [[j n]|] eqn:H;
    [intros _|discriminate].
  apply search_from_sound in H as (pre & suf & E & -> & Hm & Hmin).
  apply match_here_sound in Hm as (w & rest & -> & M & _).
  apply Matches_PROMPT_REGEX in M as (p & -> & -> & Mg).
  rewrite app_nil_r in E. rewrite E. simpl.
  rewrite firstn_app, firstn_all, Nat.sub_diag. simpl. rewrite app_nil_r.
  exists p. repeat split; auto.
  intros body' p' E' Mg'. rewrite <- E in E'.
  destruct (Nat.le_gt_cases (length pre) (length body')) as [L|L]; [exact L|].
  specialize (Hmin body' (NL :: p') E' L).
  exfalso. revert Hmin.
  assert (Matches PROMPT_REGEX (last_of None body') (NL :: p') []) as M
    by (apply Matches_PROMPT_REGEX; eauto).
  apply match_here_complete in M. rewrite app_nil_r in M. exact M.
Qed.

Lemma extractResponse_incomplete b :
  isComplete b = false -> extractResponse b = stripAnsi b.
Proof.
  unfold isComplete, test, extractResponse.
  destruct (search PROMPT_REGEX (stripAnsi b)) as [[j n]|]; [discriminate|reflexivity].
Qed.

(** ** The output buffer *)

Lemma append_output_tail maxOut buf chunk :
  0 < maxOut ->
  append_output maxOut buf chunk = tail_of (Z.to_nat maxOut) (buf ++ chunk).
Proof.
  intros Hpos. unfold append_output, tail_of, slice_from.
  destruct (Z.gtb_spec (Z.of_nat (length (buf ++ chunk))) maxOut) as [Hgt|Hle].
  - destruct (Z.ltb_spec (- maxOut) 0); [|lia].
    f_equal. lia.
  - replace (length (buf ++ chunk) - Z.to_nat maxOut)%nat with 0%nat by lia.
    reflexivity.
Qed.

Lemma tail_of_length n s : length (tail_of n s) = Nat.min n (length s).
Proof. unfold tail_of. rewrite length_skipn. lia. Qed.

Lemma tail_of_is_suffix n s : exists dropped, s = dropped ++ tail_of n s.
Proof.
  exists (firstn (length s - n) s). unfold tail_of. symmetry. apply firstn_skipn.
Qed.

Lemma tail_of_all n s : (length s <= n)%nat -> tail_of n s = s.
Proof.
  intros H. unfold tail_of. replace (length s - n)%nat with 0%nat by lia. reflexivity.
Qed.

Lemma tail_of_app n d t : (n <= length t)%nat -> tail_of n (d ++ t) = tail_of n t.
Proof.
  intros H. unfold tail_of. rewrite length_app, skipn_app.
  replace (skipn (length d + length t - n) d) with (@nil char).
  - simpl. f_equal. lia.
  - symmetry. apply skipn_all2. lia.
Qed.

Lemma tail_of_tail_app n x c : tail_of n (tail_of n x ++ c) = tail_of n (x ++ c).
Proof.
  destruct (Nat.le_gt_cases (length x) n) as [L|L].
  - rewrite (tail_of_all n x L). reflexivity.
  - destruct (tail_of_is_suffix n x) as (d & E).
    rewrite E at 2. rewrite <- app_assoc. symmetry. apply tail_of_app.
    rewrite length_app, tail_of_length. lia.
Qed.

(** Under a positive ceiling an append that overflows leaves exactly the
    last [maxOut] code units of what had accumulated. *)
Lemma append_output_overflow maxOut buf chunk :
  0 < maxOut ->
  Z.of_nat (length (buf ++ chunk)) > maxOut ->
  Z.of_nat (length (append_output maxOut buf chunk)) = maxOut
  /\ exists oldest, buf ++ chunk = oldest ++ append_output maxOut buf chunk.
Proof.
  intros Hpos Hgt. rewrite append_output_tail by assumption. split.
  - rewrite tail_of_length. lia.
  - apply tail_of_is_suffix.
Qed.

Lemma append_output_fits maxOut buf chunk :
  Z.of_nat (length (buf ++ chunk)) <= maxOut ->
  append_output maxOut buf chunk = buf ++ chunk.
Proof.
  intros H. unfold append_output.
  destruct (Z.gtb_spec (Z.of_nat (length (buf ++ chunk))) maxOut); [lia|reflexivity].
Qed.

(** Under a positive ceiling, after any sequence of appends to an empty
    buffer, the buffer is the tail of everything that arrived. *)
Lemma feed_tail maxOut chunks :
  0 < maxOut ->
  feed maxOut chunks [] = tail_of (Z.to_nat maxOut) (concat chunks).
Proof.
  intros Hpos. unfold feed.
  induction chunks as [|c chunks IH] using rev_ind.
  - reflexivity.
  - rewrite fold_left_app. simpl. rewrite IH, append_output_tail by assumption.
    rewrite concat_app. simpl. rewrite app_nil_r. apply tail_of_tail_app.
Qed.

Lemma feed_bounded maxOut chunks :
  0 < maxOut -> Z.of_nat (length (feed maxOut chunks [])) <= maxOut.
Proof.
  intros Hpos. rewrite feed_tail by assumption. rewrite tail_of_length. lia.
Qed.

(** ** The session: waiting and killing *)

Lemma writes_of_app a b : writes_of (a ++ b) = writes_of a ++ writes_of b.
Proof.
  induction a as [|e a IH]; simpl; [reflexivity|].
  destruct e; simpl; rewrite IH; reflexivity.
Qed.

Lemma quiet_refl s : quiet s s.
Proof.
  repeat split; auto. exists []. rewrite app_nil_r. auto.
Qed.

Lemma quiet_trans s1 s2 s3 : quiet s1 s2 -> quiet s2 s3 -> quiet s1 s3.
Proof.
  intros (C1 & F1 & N1 & P1 & k1 & T1 & W1) (C2 & F2 & N2 & P2 & k2 & T2 & W2).
  repeat split; try congruence.
  - destruct P2 as [P2|P2]; [rewrite P2; exact P1|right; exact P2].
  - exists (k1 ++ k2). rewrite T2, T1, app_assoc, writes_of_app, W1, W2. auto.
Qed.

Lemma kill_process s : process (kill s) = None.
Proof.
  unfold kill. destruct (inactivityTimer s); simpl;
    destruct (process s) eqn:E; simpl; auto.
Qed.

Lemma kill_quiet s : quiet s (kill s).
Proof.
  unfold kill, quiet. destruct (inactivityTimer s); simpl;
    destruct (process s) eqn:E; simpl; repeat split; auto;
    try (exists [Kill n]; split; reflexivity);
    try (exists []; rewrite app_nil_r; split; reflexivity).
Qed.

Lemma kill_buffer s : buffer (kill s) = buffer s.
Proof.
  unfold kill. destruct (inactivityTimer s); simpl;
    destruct (process s) eqn:E; simpl; auto.
Qed.

Lemma deliver_quiet e s : quiet s (deliver e s).
Proof.
  destruct e; simpl.
  - repeat split; auto. exists []. rewrite app_nil_r. auto.
  - apply quiet_refl.
  - repeat split; auto. exists []. rewrite app_nil_r. auto.
  - destruct (inactivityTimer s); [apply kill_quiet|apply quiet_refl].
Qed.

Lemma deliver_all_quiet es : forall s, quiet s (deliver_all es s).
Proof.
  unfold deliver_all. induction es as [|e es IH]; intros s; simpl.
  - apply quiet_refl.
  - eapply quiet_trans; [apply deliver_quiet|apply IH].
Qed.

Lemma poll_loop_quiet timeoutMs polls : forall s,
  quiet s (snd (poll_loop timeoutMs polls s)).
Proof.
  induction polls as [|p polls IH]; intros s; simpl.
  - apply quiet_refl.
  - pose proof (deliver_all_quiet (arrived p) s) as Q.
    destruct (isComplete _); [exact Q|].
    destruct (elapsed p >? timeoutMs); [exact Q|].
    destruct (negb _); [exact Q|].
    eapply quiet_trans; [exact Q|apply IH].
Qed.

Lemma waitForPrompt_quiet timeoutMs polls s :
  quiet s (snd (waitForPrompt timeoutMs polls s)).
Proof.
  unfold waitForPrompt.
  destruct (isComplete _); [apply quiet_refl|].
  destruct (0 >? timeoutMs); [apply quiet_refl|].
  destruct (negb _); [apply quiet_refl|].
  apply poll_loop_quiet.
Qed.

(** A wait that resolves [true] leaves a buffer that shows a prompt. *)
Lemma poll_loop_true timeoutMs polls : forall s,
  fst (poll_loop timeoutMs polls s) = true ->
  isComplete (buffer (snd (poll_loop timeoutMs polls s))) = true.
Proof.
  induction polls as [|p polls IH]; intros s; simpl.
  - discriminate.
  - destruct (isComplete (buffer (deliver_all (arrived p) s))) eqn:E; [auto|].
    destruct (elapsed p >? timeoutMs); [discriminate|].
    destruct (negb _); [discriminate|]. apply IH.
Qed.

Lemma waitForPrompt_true timeoutMs polls s :
  fst (waitForPrompt timeoutMs polls s) = true ->
  isComplete (buffer (snd (waitForPrompt timeoutMs polls s))) = true.
Proof.
  unfold waitForPrompt.
  destruct (isComplete (buffer s)) eqn:E; [auto|].
  destruct (0 >? timeoutMs); [discriminate|].
  destruct (negb _); [discriminate|]. apply poll_loop_true.
Qed.

(** ** The session: [start], [executeCommand], [exec] *)

Lemma start_spec w s :
  exists es,
    config (snd (start w s)) = config s
    /\ trace (snd (start w s)) = trace s ++ es
    /\ writes_of es = []
    /\ (error (fst (start w s)) <> None <-> success (fst (start w s)) = false)
    /\ (success (fst (start w s)) = true ->
          hasRestarted (snd (start w s)) = false
          /\ buffer (snd (start w s)) = []
          /\ (process (snd (start w s)) = Some (spawned s)
              \/ process (snd (start w s)) = None)
          /\ exists cmd args es', es = Spawn (spawned s) cmd args :: es')
    /\ (success (fst (start w s)) = false ->
          output (fst (start w s)) = []
          /\ (process (snd (start w s)) = None \/ snd (start w s) = s)).
Proof.
  unfold start.
  destruct (buildSpawnArgs (config s) (podQuery w)) as [[cmd args]|].
  2:{ exists []. simpl. rewrite app_nil_r.
      repeat split; auto; try discriminate; try congruence. }
  destruct (spawnFault w) as [err|].
  { exists []. simpl. rewrite app_nil_r.
    repeat split; auto; try discriminate; try congruence. }
  match goal with |- context [waitForPrompt ?t ?ps ?s1] =>
    pose proof (waitForPrompt_quiet t ps s1) as Q;
    destruct (waitForPrompt t ps s1) as [ready s2] end.
  unfold quiet in Q. simpl in Q. destruct Q as (C & F & N & P & ks & T & W).
  destruct ready; simpl.
  - exists (Spawn (spawned s) cmd args :: ks).
    rewrite T, <- app_assoc. simpl. rewrite W.
    repeat split; auto; try discriminate; try congruence. eauto.
  - pose proof (kill_quiet s2) as (C' & F' & N' & P' & ks' & T' & W').
    exists (Spawn (spawned s) cmd args :: ks ++ ks').
    rewrite T', T, <- !app_assoc. simpl. rewrite writes_of_app, W, W'.
    repeat split; auto; try discriminate; try congruence.
    left. apply kill_process.
Qed.

Lemma await_command_quiet h code w s :
  exists ks,
    config (snd (await_command h code w s)) = config s
    /\ hasRestarted (snd (await_command h code w s)) = hasRestarted s
    /\ spawned (snd (await_command h code w s)) = spawned s
    /\ (process (snd (await_command h code w s)) = process s
        \/ process (snd (await_command h code w s)) = None)
    /\ trace (snd (await_command h code w s)) = trace s ++ Write h (code ++ [NL]) :: ks
    /\ writes_of ks = [].
Proof.
  unfold await_command.
  match goal with |- context [waitForPrompt ?t ?ps ?s1] =>
    pose proof (waitForPrompt_quiet t ps s1) as (C & F & N & P & ks & T & W) end.
  simpl in *. exists ks. rewrite T, <- app_assoc. simpl. auto 10.
Qed.

Lemma executeCommand_spec code w s :
  exists es,
    config (snd (executeCommand code w s)) = config s
    /\ trace (snd (executeCommand code w s)) = trace s ++ es
    /\ (error (fst (executeCommand code w s)) <> None
        <-> success (fst (executeCommand code w s)) = false)
    /\ (process s = None -> es = [])
    /\ (forall h, process s = Some h -> writes_of es = [(h, code ++ [NL])])
    /\ (live_is_fresh s -> live_is_fresh (snd (executeCommand code w s))).
Proof.
  unfold executeCommand, live_is_fresh. destruct (process s) as [h|] eqn:Ps.
  2:{ exists []. simpl. rewrite app_nil_r.
      repeat split; auto; try discriminate; try congruence. }
  pose proof (await_command_quiet h code w s) as (ks & C & F & N & P & T & W).
  destruct (await_command h code w s) as [completed s2]. simpl in *.
  destruct completed; simpl.
  - exists (Write h (code ++ [NL]) :: ks). simpl. rewrite W.
    repeat split; auto; try discriminate; try congruence;
      try (destruct (hasError _); simpl; congruence);
      try (intros h' E; inversion E; subst; reflexivity).
    intros Hf Hp. rewrite F. apply Hf. congruence.
  - pose proof (kill_quiet s2) as (C' & F' & N' & P' & ks' & T' & W').
    pose proof (kill_process s2) as K.
    destruct (hasRestarted (kill s2)) eqn:Hr; simpl.
    + exists (Write h (code ++ [NL]) :: ks ++ ks').
      rewrite T', T, <- !app_assoc. simpl. rewrite writes_of_app, W, W'.
      repeat split; auto; try discriminate; try congruence;
        try (intros h' E; inversion E; subst; reflexivity).
    + pose proof (start_spec (restart w) (with_hasRestarted true (kill s2)))
        as (es & Cs & Ts & Ws & WF & OK & KO).
      destruct (start (restart w) (with_hasRestarted true (kill s2))) as [restarted s5].
      simpl in *.
      exists (Write h (code ++ [NL]) :: ks ++ ks' ++ es).
      destruct (success restarted) eqn:Sr; simpl;
        rewrite Ts, T', T, <- !app_assoc; simpl; rewrite !writes_of_app, W, W', Ws;
        repeat split; auto; try discriminate; try congruence;
        try (intros h' E; inversion E; subst; reflexivity).
      * intros _ _. apply OK. reflexivity.
      * intros _ Hp. destruct KO as (_ & [Hn| ->]); auto; simpl in *; congruence.
Qed.

Lemma exec_spec code w s :
  exists es,
    config (snd (exec code w s)) = config s
    /\ trace (snd (exec code w s)) = trace s ++ es
    /\ (error (fst (exec code w s)) <> None <-> success (fst (exec code w s)) = false)
    /\ (writes_of es = [] \/ exists h, writes_of es = [(h, code ++ [NL])])
    /\ (forall h, process s = Some h -> writes_of es = [(h, code ++ [NL])])
    /\ (process s = None ->
          writes_of es = []
          \/ exists cmd args es',
               es = Spawn (spawned s) cmd args :: es'
               /\ writes_of es' = [(spawned s, code ++ [NL])])
    /\ (live_is_fresh s -> live_is_fresh (snd (exec code w s))).
Proof.
  unfold exec, live_is_fresh. destruct (process s) as [h|] eqn:Ps.
  - pose proof (executeCommand_spec code w (resetInactivityTimer s))
      as (es & C & T & WF & _ & Wr & Fr).
    exists es. simpl in *. specialize (Wr h Ps).
    repeat split; auto; try apply WF; eauto; try discriminate.
    + intros h' E. inversion E; subst. exact Wr.
    + intros Hf. apply Fr. unfold live_is_fresh. simpl. rewrite Ps. exact Hf.
  - pose proof (start_spec (lazyStart w) s) as (es & Cs & Ts & Ws & WF & OK & KO).
    destruct (start (lazyStart w) s) as [started s1]. simpl in *.
    destruct (success started) eqn:Sr; simpl.
    + destruct (OK eq_refl) as (Hr & Hb & Hp & cmd & args & es' & ->).
      pose proof (executeCommand_spec code w (resetInactivityTimer s1))
        as (es2 & C & T & WF2 & Wn & Wr & Fr).
      simpl in *.
      exists (Spawn (spawned s) cmd args :: es' ++ es2).
      rewrite T, Ts, <- app_assoc. simpl. rewrite !writes_of_app, Ws. simpl.
      assert (writes_of es2 = [] \/ writes_of es2 = [(spawned s, code ++ [NL])]) as D.
      { destruct Hp as [Hp|Hp]; [right; apply Wr; exact Hp|left].
        rewrite (Wn Hp). reflexivity. }
      repeat split; auto; try apply WF2; try congruence; try discriminate.
      * destruct D as [D|D]; rewrite D; eauto.
      * intros _. destruct D as [D|D]; [left; exact D|right].
        exists cmd, args, (es' ++ es2). rewrite writes_of_app, Ws, D. auto.
      * intros _. apply Fr. intros _. exact Hr.
    + exists es. rewrite Ws.
      repeat split; auto; try apply WF; try discriminate.
      * intros _. apply WF. reflexivity.
      * intros _ Hp. destruct (KO eq_refl) as (_ & [Hn| ->]); congruence.
Qed.

(** A timed-out command whose session still has its restart: the result is
    decided by the restart alone. *)
Lemma timed_out_call_restarts code w s h :
  process s = Some h ->
  hasRestarted s = false ->
  fst (await_command h code w s) = false ->
  executeCommand code w s =
    let s4 := with_hasRestarted true (kill (snd (await_command h code w s))) in
    let s5 := snd (start (restart w) s4) in
    (failure (buffer s5)
       (if success (fst (start (restart w) s4))
        then restarted_message (config s5) else timed_out_message (config s5)),
     s5).
Proof.
  intros Ps Hr Hw. unfold executeCommand. rewrite Ps.
  pose proof (await_command_quiet h code w s) as (ks & _ & F & _).
  destruct (await_command h code w s) as [completed s2]. simpl in *. subst completed.
  simpl. pose proof (kill_quiet s2) as (_ & F' & _).
  rewrite F', F, Hr. simpl.
  destruct (start (restart w) (with_hasRestarted true (kill s2))) as [restarted s5].
  simpl. destruct (success restarted); reflexivity.
Qed.

(** In every state [exec] can reach, a held handle comes with an unused
    restart: the test of [hasRestarted] in [executeCommand] never fails. *)
Lemma exec_keeps_live_fresh code w s :
  live_is_fresh s -> live_is_fresh (snd (exec code w s)).
Proof.
  destruct (exec_spec code w s) as (es & _ & _ & _ & _ & _ & _ & H). exact H.
Qed.

Lemma deliver_keeps_live_fresh e s : live_is_fresh s -> live_is_fresh (deliver e s).
Proof.
  unfold live_is_fresh. destruct (deliver_quiet e s) as (_ & F & _ & [P|P] & _);
    rewrite F, P; auto; congruence.
Qed.

Lemma new_console_live_fresh c : live_is_fresh (new_RailsConsole c).
Proof. unfold live_is_fresh. simpl. congruence. Qed.

(** A restart that succeeds hands back an empty buffer. *)
Lemma restarted_call_has_no_output code w s h :
  process s = Some h ->
  hasRestarted s = false ->
  fst (await_command h code w s) = false ->
  error (fst (executeCommand code w s)) = Some (restarted_message (config s)) ->
  output (fst (executeCommand code w s)) = [].
Proof.
  intros Ps Hr Hw. rewrite (timed_out_call_restarts code w s h Ps Hr Hw). simpl.
  pose proof (start_spec (restart w)
                (with_hasRestarted true (kill (snd (await_command h code w s)))))
    as (es & C & _ & _ & _ & OK & _).
  pose proof (await_command_quiet h code w s) as (ks & C2 & _).
  pose proof (kill_quiet (snd (await_command h code w s))) as (C1 & _).
  simpl in C. rewrite C1, C2 in C.
  destruct (success (fst (start _ _))) eqn:Sr.
  - intros _. apply OK. reflexivity.
  - rewrite C. unfold restarted_message. intros E. exfalso.
    assert (length (timed_out_message (config s))
            = length (timed_out_message (config s) ++ js ". Session restarted.")) as L
      by congruence.
    rewrite length_app in L. simpl in L. lia.
Qed.

(** * The claims *)

(** C1 (restart-once policy).  The flag does not hold the session to one
    restart: [start] clears it when the restarted console reaches its
    prompt.  Two commands in a row time out on a Ready session, with no
    successful command between them; the second call, like the first,
    answers "Session restarted." and leaves a live handle, where the
    claim has a harder failure and an Empty session. *)
Theorem C1_second_timeout_restarts_again :
  let (r1, s1) := exec (fst slow_query) (snd slow_query) ready_session in
  let (r2, s2) := exec (fst slow_query) (snd slow_query) s1 in
  process ready_session = Some 0%nat
  /\ error r1 = Some (js "Command timed out after 60s. Session restarted.")
  /\ process s1 = Some 1%nat
  /\ hasRestarted s1 = false
  /\ error r2 = Some (js "Command timed out after 60s. Session restarted.")
  /\ process s2 = Some 2%nat.
Proof. vm_compute. repeat split; reflexivity. Qed.

(** C2 (partial output on failure).  A command prints two lines and then
    hangs; when the wait gives up the buffer holds the two lines, but the
    restart clears the buffer before the result is built: the result's
    output is empty. *)
Theorem C2_partial_output_lost_on_restart :
  let waited := await_command 0 (fst slow_query) (snd slow_query) ready_session in
  let r := fst (exec (fst slow_query) (snd slow_query) ready_session) in
  fst waited = false
  /\ buffer (snd waited) = js "1" ++ NL :: js "2" ++ [NL]
  /\ success r = false
  /\ error r = Some (js "Command timed out after 60s. Session restarted.")
  /\ output r = [].
Proof. vm_compute. repeat split; reflexivity. Qed.

(** C3 (output buffer truncation).  With the ceiling 0 an append that
    exceeds the ceiling goes through the truncating branch, and
    [slice(-0)] keeps the whole text: the buffer holds three code units,
    not zero.  ([append_output_overflow] and [feed_tail] are the claim for
    positive ceilings.) *)
Theorem C3_zero_ceiling_keeps_everything :
  let s := deliver (StdoutData (js "abc")) (new_RailsConsole cfg_zero_ceiling) in
  maxOutput (config s) = 0
  /\ (Z.of_nat (length (buffer s)) >? maxOutput (config s)) = true
  /\ buffer s = js "abc".
Proof. vm_compute. repeat split; reflexivity. Qed.

(** C4 (prompt recognition).  The one-character classes of the first two
    alternatives admit a line feed, so a match can start lines above the
    last one.  The first text below ends in the line [b):1:1>], which ends
    in [>] and is no prompt; the second ends in the line [mysql> ], which
    is no prompt either; the detector judges both texts complete.
    ([prompts_recognised] is the first half of the claim.) *)
Theorem C4_two_line_text_taken_for_prompt :
  (stripAnsi two_line_irb = two_line_irb
   /\ final_line two_line_irb = js "b):1:1>"
   /\ last (final_line two_line_irb) NL = ch ">"
   /\ is_prompt_line (final_line two_line_irb) = false
   /\ isComplete two_line_irb = true)
  /\ (stripAnsi nested_shell = nested_shell
      /\ final_line nested_shell = js "mysql> "
      /\ is_prompt_line (final_line nested_shell) = false
      /\ isComplete nested_shell = true).
Proof. vm_compute. repeat split; reflexivity. Qed.

Lemma await_command_true h code w s :
  fst (await_command h code w s) = true ->
  isComplete (buffer (snd (await_command h code w s))) = true.
Proof. unfold await_command. apply waitForPrompt_true. Qed.

(** A text that starts with a run free of line feeds is cut, if at all,
    after that run. *)
Lemma cut_after_first_line l : forall rest e p,
  forallb (fun c => negb (code_eqb c NL)) l = true ->
  l ++ rest = e ++ NL :: p ->
  exists e', e = l ++ e'.
Proof.
  induction l as [|c l IH]; intros rest e p Hl E.
  - exists e. reflexivity.
  - simpl in Hl. apply andb_true_iff in Hl as [Hc Hl].
    destruct e as [|c' e]; simpl in E; inversion E; subst.
    + unfold code_eqb in Hc. rewrite N.eqb_refl in Hc. discriminate.
    + match goal with H : l ++ rest = e ++ NL :: p |- _ =>
        destruct (IH _ _ _ Hl H) as (e' & ->) end.
      exists e'. reflexivity.
Qed.

(** C5 (error classification).  For a command that completed, the result
    is a failure with an error text exactly when the extracted output
    begins a line with one of the seven exception names or has a line
    that starts with the stack-trace header, and a success without error
    text otherwise; a buffer whose text starts with
    [SyntaxError: unexpected end-of-input] gives a failure, the body
    [=> 42] before a prompt line gives a success with output [=> 42]. *)
Theorem C5_error_classification :
  forall code w s h,
    process s = Some h ->
    fst (await_command h code w s) = true ->
    let clean := stripAnsi (buffer (snd (await_command h code w s))) in
    let out := extractResponse (buffer (snd (await_command h code w s))) in
    let r := fst (executeCommand code w s) in
    output r = trim out
    /\ (classified_as_error out -> success r = false /\ error r <> None)
    /\ (~ classified_as_error out -> success r = true /\ error r = None)
    /\ (forall rest, clean = js "SyntaxError: unexpected end-of-input" ++ rest ->
          success r = false)
    /\ (forall p, clean = js "=> 42" ++ NL :: p -> is_prompt_line p = true ->
          success r = true /\ output r = js "=> 42").
Proof.
  intros code w s h Ps Hw. unfold executeCommand. rewrite Ps.
  pose proof (await_command_true h code w s Hw) as Hc.
  destruct (await_command h code w s) as [completed s2]. simpl in *. subst completed.
  simpl. apply extractResponse_complete in Hc as (p0 & E0 & M0 & Hmin).
  split; [reflexivity|split; [|split; [|split]]].
  - intros H. apply hasError_iff in H. rewrite H. split; [reflexivity|discriminate].
  - intros H. apply hasError_false_iff in H. rewrite H. split; reflexivity.
  - intros rest E. rewrite E in E0.
    destruct (cut_after_first_line (js "SyntaxError: unexpected end-of-input")
                rest _ _ eq_refl E0) as (e' & E').
    assert (hasError (extractResponse (buffer s2)) = true) as H.
    { apply hasError_iff. left. exists (js "SyntaxError"). split; [left; reflexivity|].
      exists [], (js ": unexpected end-of-input" ++ e').
      split; [rewrite E'; reflexivity|left; reflexivity]. }
    rewrite H. reflexivity.
  - intros p E Hp. apply is_prompt_line_iff in Hp.
    specialize (Hmin (js "=> 42") p E Hp). rewrite E in E0.
    destruct (cut_after_first_line (js "=> 42") (NL :: p) _ _ eq_refl E0) as (e' & E').
    rewrite E' in Hmin. rewrite length_app in Hmin. simpl in Hmin.
    destruct e' as [|c e']; [|simpl in Hmin; lia].
    rewrite E'. split; reflexivity.
Qed.

Lemma C5_error_classification_witness :
  process ready_session = Some 0%nat
  /\ fst (await_command 0 (js "x * 2") doubles ready_session) = true
  /\ (let clean := stripAnsi
                     (buffer (snd (await_command 0 (js "x * 2") doubles ready_session))) in
      let out := extractResponse
                   (buffer (snd (await_command 0 (js "x * 2") doubles ready_session))) in
      let r := fst (executeCommand (js "x * 2") doubles ready_session) in
      output r = trim out
      /\ (classified_as_error out -> success r = false /\ error r <> None)
      /\ (~ classified_as_error out -> success r = true /\ error r = None)
      /\ (forall rest, clean = js "SyntaxError: unexpected end-of-input" ++ rest ->
            success r = false)
      /\ (forall p, clean = js "=> 42" ++ NL :: p -> is_prompt_line p = true ->
            success r = true /\ output r = js "=> 42")).
Proof.
  split; [reflexivity|split; [vm_compute; reflexivity|]].
  apply (C5_error_classification (js "x * 2") doubles ready_session 0%nat);
    vm_compute; reflexivity.
Defined.

(** C6 (execution-result invariant).  On every path of [exec] the result
    carries an error text if and only if its success flag is false. *)
Theorem C6_error_iff_failure :
  forall code w s,
    error (fst (exec code w s)) <> None <-> success (fst (exec code w s)) = false.
Proof.
  intros code w s. destruct (exec_spec code w s) as (es & _ & _ & H & _). exact H.
Qed.

(** C7 (response extraction).  The text ends with the prompt line
    [[2] pry(main)> ]; the characters before that line are [z] and the
    output line [[1] a].  The leftmost match of the pattern starts at the
    line feed before [[1] a], so the extracted response is [z] alone.
    (Same cause as C4; [extractResponse_complete] and
    [extractResponse_incomplete] say what is extracted in general.) *)
Theorem C7_numbered_line_lost :
  stripAnsi numbered_output = numbered_output
  /\ numbered_output = (js "z" ++ NL :: js "[1] a") ++ NL :: js "[2] pry(main)> "
  /\ final_line numbered_output = js "[2] pry(main)> "
  /\ is_prompt_line (final_line numbered_output) = true
  /\ extractResponse numbered_output = js "z".
Proof. vm_compute. repeat split; reflexivity. Qed.

Lemma str_eqb_refl a : str_eqb a a = true.
Proof.
  induction a as [|c a IH]; simpl; [reflexivity|].
  rewrite IH. unfold code_eqb. rewrite N.eqb_refl. reflexivity.
Qed.

Lemma set_commandTimeout_same c : set_commandTimeout (commandTimeout c) c = c.
Proof. destruct c; reflexivity. Qed.

Lemma set_commandTimeout_back t c :
  set_commandTimeout (commandTimeout c) (set_commandTimeout t c) = c.
Proof. destruct c; reflexivity. Qed.

Lemma with_config_same s : with_config (config s) s = s.
Proof. destruct s; reflexivity. Qed.

Lemma exec_config code w s : config (snd (exec code w s)) = config s.
Proof. destruct (exec_spec code w s) as (es & H & _). exact H. Qed.

(** The configuration [session.exec] runs under, by cases on the request. *)
Lemma override_cases req s :
  override req s =
  with_config
    (set_commandTimeout
       match timeout req with
       | Some t => if t =? 0 then commandTimeout (config s) else t
       | None => commandTimeout (config s)
       end (config s)) s.
Proof.
  unfold override, truthy_number. destruct (timeout req) as [t|].
  - destruct (t =? 0); simpl; [|reflexivity].
    rewrite set_commandTimeout_same, with_config_same. reflexivity.
  - rewrite set_commandTimeout_same, with_config_same. reflexivity.
Qed.

(** Not every override is the timeout of its call: the handler's test
    [if (timeout)] takes [timeout: 0] for no override.  The command below
    is answered after 100 ms and the call returns the answer, where a call
    under a timeout of 0 ms gives up at the first poll. *)
Lemma zero_timeout_is_no_override :
  ~ (forall req w s t,
       name req = js "rails_console_exec" ->
       timeout req = Some t ->
       fst (handler req w s)
       = inr (response_text
                (fst (exec (code req) w
                        (with_config (set_commandTimeout t (config s)) s))))).
Proof.
  intros H.
  specialize (H zero_timeout_request answers_late ready_session 0 eq_refl eq_refl).
  vm_compute in H. discriminate H.
Qed.

(** A request that is served alone: with a non-zero timeout its call runs
    under that timeout, without timeout or with the timeout 0 under the
    configured one; when the call has returned its result, success or
    failure, the configuration is what it was before the request. *)
Lemma handler_alone_overrides_and_restores :
  forall req w s,
    name req = js "rails_console_exec" ->
    let configured := commandTimeout (config s) in
    let used := match timeout req with
                | Some t => if t =? 0 then configured else t
                | None => configured
                end in
    fst (handler req w s)
    = inr (response_text
             (fst (exec (code req) w
                     (with_config (set_commandTimeout used (config s)) s))))
    /\ config (snd (handler req w s)) = config s.
Proof.
  intros req w s Hn. simpl. unfold handler.
  rewrite Hn, str_eqb_refl. simpl negb. cbv iota.
  rewrite override_cases.
  match goal with |- context [exec ?c ?w ?s1] =>
    pose proof (exec_config c w s1) as C;
    destruct (exec c w s1) as [result s2] end.
  simpl in *. split; [reflexivity|].
  rewrite C. apply set_commandTimeout_back.
Qed.

Lemma handler_alone_overrides_and_restores_example :
  name short_timeout_request = js "rails_console_exec"
  /\ fst (handler short_timeout_request hangs_6s ready_session)
     = inr (response_text
              (fst (exec (code short_timeout_request) hangs_6s
                      (with_config (set_commandTimeout 5000 (config ready_session))
                         ready_session))))
  /\ config (snd (handler short_timeout_request hangs_6s ready_session))
     = config ready_session.
Proof.
  split; [reflexivity|].
  apply (handler_alone_overrides_and_restores short_timeout_request hangs_6s ready_session).
  reflexivity.
Defined.

(** A call on a session that holds a handle writes its code, once. *)
Lemma ready_call_writes_once code w s h :
  process s = Some h ->
  exists es, trace (snd (exec code w s)) = trace s ++ es
             /\ writes_of es = [(h, code ++ [NL])].
Proof.
  intros Ps. destruct (exec_spec code w s) as (es & _ & T & _ & _ & W & _).
  exists es. auto.
Qed.

(** A call whose lazy start fails returns the failure of [start] and
    writes nothing. *)
Lemma failed_start_writes_nothing code w s :
  process s = None ->
  success (fst (start (lazyStart w) s)) = false ->
  fst (exec code w s) = fst (start (lazyStart w) s)
  /\ exists es, trace (snd (exec code w s)) = trace s ++ es /\ writes_of es = [].
Proof.
  intros Ps Hf. unfold exec. rewrite Ps.
  destruct (start_spec (lazyStart w) s) as (es & _ & T & W & _).
  destruct (start (lazyStart w) s) as [started s1]. simpl in *. rewrite Hf. simpl.
  split; [reflexivity|]. exists es. auto.
Qed.

(** A start that comes to spawn records the spawn before anything else. *)
Lemma start_spawns_first w s cmd args :
  buildSpawnArgs (config s) (podQuery w) = Some (cmd, args) ->
  spawnFault w = None ->
  exists es,
    trace (snd (start w s)) = trace s ++ Spawn (spawned s) cmd args :: es
    /\ writes_of es = []
    /\ spawned (snd (start w s)) = S (spawned s).
Proof.
  intros B F. unfold start. rewrite B, F.
  match goal with |- context [waitForPrompt ?t ?ps ?s1] =>
    pose proof (waitForPrompt_quiet t ps s1) as Q;
    destruct (waitForPrompt t ps s1) as [ready s2] end.
  unfold quiet in Q. simpl in Q. destruct Q as (C & Fl & N & P & ks & T & W).
  destruct ready; simpl.
  - exists ks. rewrite T, <- app_assoc. auto.
  - pose proof (kill_quiet s2) as (C' & F' & N' & P' & ks' & T' & W').
    exists (ks ++ ks'). rewrite T', T, <- !app_assoc, writes_of_app, W, W'. simpl.
    repeat split; auto. congruence.
Qed.

(** C10 (close invalidates the handle).  Whatever the exit code of the
    [close] event, 0 included, the handle is absent afterwards, and the
    next call goes through [start]: it runs the command on what [start]
    hands over if [start] succeeds, and returns its failure otherwise.
    When the arguments can be built and [spawn] does not throw, the first
    effect of the call is the spawn of a console under a handle not used
    before; nothing is written to the console that closed; the code is
    written, once, to the new console when the start succeeds and the new
    handle is held at its end; nothing is written when the start fails. *)
Theorem C10_close_invalidates_handle :
  forall (exit_code : option Z) code w s h,
    process s = Some h -> (h < spawned s)%nat ->
    let s1 := deliver (ProcClose exit_code) s in
    let started := start (lazyStart w) s1 in
    process s1 = None
    /\ exec code w s1
       = (if success (fst started)
          then executeCommand code w (resetInactivityTimer (snd started))
          else started)
    /\ exists es,
         trace (snd (exec code w s1)) = trace s ++ es
         /\ ~ In h (map fst (writes_of es))
         /\ (forall cmd args,
               buildSpawnArgs (config s) (podQuery (lazyStart w)) = Some (cmd, args) ->
               spawnFault (lazyStart w) = None ->
               exists es', es = Spawn (spawned s) cmd args :: es')
         /\ (success (fst started) = false ->
               fst (exec code w s1) = fst started /\ writes_of es = [])
         /\ (success (fst started) = true ->
             process (snd started) = Some (spawned s) ->
             writes_of es = [(spawned s, code ++ [NL])]).
Proof.
  intros exit_code code w s h Ps Hh s1 started.
  assert (process s1 = None) as P1 by reflexivity.
  assert (exec code w s1
          = (if success (fst started)
             then executeCommand code w (resetInactivityTimer (snd started))
             else started)) as E.
  { unfold exec. rewrite P1. subst started.
    destruct (start (lazyStart w) s1) as [r s2]. simpl.
    destruct (success r); reflexivity. }
  split; [exact P1|]. split; [exact E|].
  destruct (exec_spec code w s1) as (es & _ & T & _ & _ & _ & W & _).
  specialize (W P1). exists es.
  change (trace s1) with (trace s) in T. change (spawned s1) with (spawned s) in W.
  assert (writes_of es = [] \/ writes_of es = [(spawned s, code ++ [NL])]) as D.
  { destruct W as [W|(cmd & args & es' & -> & W)]; [left; exact W|right; exact W]. }
  split; [exact T|]. split; [|split; [|split]].
  - destruct D as [D|D]; rewrite D; simpl; [tauto|]. intros [H|[]]. lia.
  - intros cmd args B F.
    destruct (start_spawns_first (lazyStart w) s1 cmd args B F) as (ks & Ts & _ & _).
    change (trace s1) with (trace s) in Ts. change (spawned s1) with (spawned s) in Ts.
    fold started in Ts.
    assert (exists more, trace (snd (exec code w s1)) = trace (snd started) ++ more)
      as (more & M).
    { rewrite E. destruct (success (fst started)).
      - destruct (executeCommand_spec code w (resetInactivityTimer (snd started)))
          as (es2 & _ & T2 & _). exists es2. exact T2.
      - exists []. rewrite app_nil_r. reflexivity. }
    rewrite M, Ts, <- app_assoc in T. apply app_inv_head in T.
    exists (ks ++ more). rewrite <- T. reflexivity.
  - intros Hf. rewrite E, Hf. split; [reflexivity|].
    destruct (start_spec (lazyStart w) s1) as (es1 & _ & T1 & W1 & _).
    fold started in T1. rewrite E, Hf in T. change (trace s1) with (trace s) in T1.
    rewrite T1 in T. apply app_inv_head in T. subst es. exact W1.
  - intros Hs Hp.
    destruct (start_spec (lazyStart w) s1) as (es1 & _ & T1 & W1 & _).
    fold started in T1. change (trace s1) with (trace s) in T1.
    destruct (executeCommand_spec code w (resetInactivityTimer (snd started)))
      as (es2 & _ & T2 & _ & _ & W2 & _).
    specialize (W2 (spawned s) Hp).
    rewrite E, Hs in T. rewrite T2 in T. simpl in T. rewrite T1, <- app_assoc in T.
    apply app_inv_head in T. subst es. rewrite writes_of_app, W1, W2. reflexivity.
Qed.

Lemma C10_close_invalidates_handle_witness :
  process ready_session = Some 0%nat /\ (0 < spawned ready_session)%nat
  /\ let s1 := deliver (ProcClose (Some 0)) ready_session in
     process s1 = None
     /\ exists es,
          trace (snd (exec (js "x * 2") (mkCall boots (answers (js "=> 84" ++ [NL])) silent) s1))
          = trace ready_session ++ es
          /\ ~ In 0%nat (map fst (writes_of es))
          /\ writes_of es = [(1%nat, js "x * 2" ++ [NL])].
Proof.
  split; [reflexivity|split; [vm_compute; lia|]].
  pose proof (C10_close_invalidates_handle (Some 0) (js "x * 2")
                (mkCall boots (answers (js "=> 84" ++ [NL])) silent)
                ready_session 0%nat eq_refl) as H.
  assert (0 < spawned ready_session)%nat as L by (vm_compute; lia).
  specialize (H L). cbv zeta in H.
  destruct H as (P & _ & es & T & N & _ & _ & W).
  split; [exact P|]. exists es. split; [exact T|split; [exact N|]].
  apply W; vm_compute; reflexivity.
Defined.

(** * Further properties of the file *)

(** ** Control-sequence stripping *)

Lemma star_greedy_ignores_prev {A} p : forall s prev prev' (k k' : option char -> str -> option A),
  (forall q q' t, k q t = k' q' t) ->
  star_greedy p prev s k = star_greedy p prev' s k'.
Proof.
  induction s as [|c t IH]; intros prev prev' k k' Hk; simpl; [apply Hk|].
  destruct (p c); [|apply Hk].
  rewrite (IH (Some c) (Some c) k k' Hk), (Hk prev prev' (c :: t)). reflexivity.
Qed.

Lemma star_lazy_ignores_prev {A} p : forall s prev prev' (k k' : option char -> str -> option A),
  (forall q q' t, k q t = k' q' t) ->
  star_lazy p prev s k = star_lazy p prev' s k'.
Proof.
  induction s as [|c t IH]; intros prev prev' k k' Hk; simpl;
    rewrite (Hk prev prev'); [reflexivity|].
  destruct (k' prev' (c :: t)); [reflexivity|].
  destruct (p c); [|reflexivity]. apply IH. exact Hk.
Qed.

Lemma rmatch_ignores_prev {A} r : forall prev prev' s (k k' : option char -> str -> option A),
  no_bol r = true ->
  (forall q q' t, k q t = k' q' t) ->
  rmatch r prev s k = rmatch r prev' s k'.
Proof.
  induction r; intros prev prev' s k k' Hr Hk; simpl in *; try discriminate.
  - apply Hk.
  - destruct s as [|c t]; [reflexivity|]. destruct (p c); [apply Hk|reflexivity].
  - apply andb_true_iff in Hr as [H1 H2]. apply IHr1; [exact H1|].
    intros q q' t. apply IHr2; assumption.
  - apply andb_true_iff in Hr as [H1 H2].
    rewrite (IHr1 prev prev' s k k' H1 Hk), (IHr2 prev prev' s k k' H2 Hk). reflexivity.
  - apply star_greedy_ignores_prev. exact Hk.
  - apply star_lazy_ignores_prev. exact Hk.
  - destruct s as [|c t]; [reflexivity|]. destruct (p c); [|reflexivity].
    apply star_greedy_ignores_prev. exact Hk.
  - destruct s as [|c t]; [apply Hk|]. destruct (p c); [|apply Hk].
    rewrite (Hk (Some c) (Some c) t), (Hk prev prev' (c :: t)). reflexivity.
  - destruct s; [apply Hk|reflexivity].
Qed.

Lemma match_here_ignores_prev r prev prev' s :
  no_bol r = true -> match_here r prev s = match_here r prev' s.
Proof.
  intros Hr. unfold match_here.
  rewrite (rmatch_ignores_prev r prev prev' s _ (fun _ rest => Some (length rest)) Hr);
    auto.
Qed.

Lemma remove_all_ignores_prev r : no_bol r = true ->
  forall s n prev prev', remove_all r n prev s = remove_all r n prev' s.
Proof.
  intros Hr. induction s as [|c t IH]; intros n prev prev'; simpl; [reflexivity|].
  destruct n as [|n]; [|apply IH].
  rewrite (match_here_ignores_prev r prev prev' (c :: t) Hr). reflexivity.
Qed.

Lemma remove_all_skip r : forall w n prev b,
  length w = n -> remove_all r n prev (w ++ b) = remove_all r 0 (last_of prev w) b.
Proof.
  induction w as [|c w IH]; intros n prev b L; simpl in *; subst n; [reflexivity|].
  apply IH. reflexivity.
Qed.

Lemma code_eqb_sym a b : code_eqb a b = code_eqb b a.
Proof. unfold code_eqb. apply N.eqb_sym. Qed.

Lemma ansi_needs_ESC prev c t :
  code_eqb c ESC = false -> match_here ANSI_REGEX prev (c :: t) = None.
Proof.
  intros H. rewrite code_eqb_sym in H. unfold match_here, ANSI_REGEX.
  cbn [seqs lit rmatch]. rewrite !H. reflexivity.
Qed.

Lemma ansi_nothing_at_end prev : match_here ANSI_REGEX prev [] = None.
Proof. reflexivity. Qed.

Lemma stripAnsi_prefix a : forall prev rest,
  no_ESC a = true ->
  remove_all ANSI_REGEX 0 prev (a ++ rest)
  = a ++ remove_all ANSI_REGEX 0 (last_of prev a) rest.
Proof.
  induction a as [|c a IH]; intros prev rest H; simpl in *; [reflexivity|].
  apply andb_true_iff in H as [Hc Ha]. apply negb_true_iff in Hc.
  rewrite (ansi_needs_ESC prev c (a ++ rest) Hc). f_equal. apply IH. exact Ha.
Qed.

Lemma star_greedy_run {A} p l b (k : option char -> str -> option A) : forall ps prev x,
  forallb p ps = true ->
  k (last_of prev ps) (l :: b) = Some x ->
  star_greedy p prev (ps ++ l :: b) k = Some x
  \/ exists y, star_greedy p prev (ps ++ l :: b) k = Some y /\ p l = true.
Proof.
  induction ps as [|c ps IH]; intros prev x Hps Hk; simpl in *.
  - destruct (p l) eqn:Hl; [|left; exact Hk].
    destruct (star_greedy p (Some l) b k) eqn:E; [right; eauto|left; exact Hk].
  - apply andb_true_iff in Hps as [Hc Hps]. rewrite Hc.
    destruct (IH (Some c) x Hps Hk) as [E|(y & E & Hl)]; rewrite E; eauto.
Qed.

Lemma csi_param_not_alpha l : is_alpha l = true -> is_csi_param l = false.
Proof.
  unfold is_alpha, is_csi_param, is_upper, is_lower, is_digit, in_range, code_eqb.
  change (ch ";") with 59%N. change (ch "?") with 63%N.
  intros H. apply Bool.not_true_is_false. intros C.
  rewrite !orb_true_iff, !andb_true_iff, !N.leb_le in H.
  rewrite !orb_true_iff, !andb_true_iff, !N.leb_le, !N.eqb_eq in C.
  lia.
Qed.

Lemma ansi_csi_here prev ps l b :
  forallb is_csi_param ps = true -> is_alpha l = true ->
  match_here ANSI_REGEX prev (ESC :: ch "[" :: ps ++ l :: b)
  = Some (S (S (length ps + 1))).
Proof.
  intros Hps Hl. unfold match_here, ANSI_REGEX. cbn [seqs lit rmatch].
  change (code_eqb ESC ESC) with true. change (code_eqb (ch "[") (ch "[")) with true.
  cbv iota.
  match goal with |- context [star_greedy is_csi_param ?pv (ps ++ l :: b) ?k] =>
    destruct (star_greedy_run is_csi_param l b k ps pv (length b)) as [E|(y & _ & Hx)];
      [exact Hps|simpl; rewrite Hl; reflexivity| |] end.
  - rewrite E. f_equal. cbn [length]. rewrite length_app. cbn [length]. lia.
  - rewrite (csi_param_not_alpha l Hl) in Hx. discriminate.
Qed.

Lemma star_lazy_run {A} (k0 : option char -> str -> option A) b : forall body prev,
  forallb is_dot body = true ->
  forallb (fun c => negb (code_eqb c BEL)) body = true ->
  star_lazy is_dot prev (body ++ BEL :: b)
    (fun q t => rmatch (Cls (code_eqb BEL)) q t k0)
  = k0 (Some BEL) b
  \/ exists y, star_lazy is_dot prev (body ++ BEL :: b)
                 (fun q t => rmatch (Cls (code_eqb BEL)) q t k0) = Some y
               /\ k0 (Some BEL) b = None.
Proof.
  induction body as [|c body IH]; intros prev Hd Hb.
  - cbn [app star_lazy rmatch].
    change (code_eqb BEL BEL) with true. cbv iota.
    destruct (k0 (Some BEL) b) eqn:E; [left; reflexivity|].
    change (is_dot BEL) with true. cbv iota.
    match goal with |- context [star_lazy ?p ?q ?t ?k] =>
      destruct (star_lazy p q t k) eqn:E' end; [right; eauto|left; reflexivity].
  - cbn [forallb] in Hd, Hb.
    apply andb_true_iff in Hd as [Hc Hd]. apply andb_true_iff in Hb as [Hn Hb].
    apply negb_true_iff in Hn. rewrite code_eqb_sym in Hn.
    cbn [app star_lazy rmatch]. rewrite Hn, Hc.
    apply IH; assumption.
Qed.

Lemma ansi_osc_here prev body b :
  forallb is_dot body = true ->
  forallb (fun c => negb (code_eqb c BEL)) body = true ->
  match_here ANSI_REGEX prev (ESC :: ch "]" :: body ++ BEL :: b)
  = Some (S (S (length body + 1))).
Proof.
  intros Hd Hb. unfold match_here, ANSI_REGEX. cbn [seqs lit rmatch].
  change (code_eqb ESC ESC) with true. change (code_eqb (ch "[") (ch "]")) with false.
  change (code_eqb (ch "]") (ch "]")) with true. cbv iota.
  match goal with |- context [star_lazy is_dot ?pv (body ++ BEL :: b) _] =>
    pose proof (star_lazy_run (fun _ rest => Some (length rest)) b body pv Hd Hb)
      as R end.
  cbn [rmatch] in R. destruct R as [E|(y & _ & Hx)].
  - rewrite E. f_equal. cbn [length]. rewrite length_app. cbn [length]. lia.
  - discriminate.
Qed.

Lemma stripAnsi_drops_sequence_here prev q b :
  control_sequence q ->
  remove_all ANSI_REGEX 0 prev (q ++ b) = remove_all ANSI_REGEX 0 None b.
Proof.
  intros [(ps & l & -> & Hps & Hl)|(body & -> & Hd & Hb)].
  - change ((ESC :: ch "[" :: ps ++ [l]) ++ b)
      with (ESC :: (ch "[" :: ps ++ [l]) ++ b).
    cbn [remove_all].
    replace ((ch "[" :: ps ++ [l]) ++ b) with (ch "[" :: ps ++ l :: b)
      by (simpl; rewrite <- app_assoc; reflexivity).
    rewrite (ansi_csi_here prev ps l b Hps Hl).
    replace (ch "[" :: ps ++ l :: b) with ((ch "[" :: ps ++ [l]) ++ b)
      by (simpl; rewrite <- app_assoc; reflexivity).
    rewrite remove_all_skip by (simpl; rewrite length_app; simpl; lia).
    apply remove_all_ignores_prev. reflexivity.
  - change ((ESC :: ch "]" :: body ++ [BEL]) ++ b)
      with (ESC :: (ch "]" :: body ++ [BEL]) ++ b).
    cbn [remove_all].
    replace ((ch "]" :: body ++ [BEL]) ++ b) with (ch "]" :: body ++ BEL :: b)
      by (simpl; rewrite <- app_assoc; reflexivity).
    rewrite (ansi_osc_here prev body b Hd Hb).
    replace (ch "]" :: body ++ BEL :: b) with ((ch "]" :: body ++ [BEL]) ++ b)
      by (simpl; rewrite <- app_assoc; reflexivity).
    rewrite remove_all_skip by (simpl; rewrite length_app; simpl; lia).
    apply remove_all_ignores_prev. reflexivity.
Qed.

Lemma stripAnsi_after_plain a q b :
  no_ESC a = true -> control_sequence q ->
  stripAnsi (a ++ q ++ b) = a ++ stripAnsi b.
Proof.
  intros Ha Hq. unfold stripAnsi.
  rewrite stripAnsi_prefix by exact Ha.
  rewrite stripAnsi_drops_sequence_here by exact Hq. reflexivity.
Qed.

(** A text without escape characters goes through [stripAnsi] unchanged. *)
Theorem stripAnsi_keeps_plain_text :
  forall s, no_ESC s = true -> stripAnsi s = s.
Proof.
  intros s H. unfold stripAnsi.
  rewrite <- (app_nil_r s) at 1. rewrite stripAnsi_prefix by exact H.
  simpl. apply app_nil_r.
Qed.

Lemma stripAnsi_keeps_plain_text_witness :
  no_ESC (js "=> 42") = true /\ stripAnsi (js "=> 42") = js "=> 42".
Proof.
  split; [reflexivity|]. apply (stripAnsi_keeps_plain_text (js "=> 42")). reflexivity.
Defined.

(** After a text without escape characters, a complete control sequence
    (colour, cursor or title) is removed whole, and stripping goes on with
    what follows it. *)
Theorem stripAnsi_drops_control_sequence :
  forall a q b,
    no_ESC a = true -> control_sequence q ->
    stripAnsi (a ++ q ++ b) = a ++ stripAnsi b.
Proof.
  intros a q b Ha Hq. apply stripAnsi_after_plain; assumption.
Qed.

Lemma stripAnsi_drops_control_sequence_witness :
  no_ESC (js "=> ") = true
  /\ control_sequence (ESC :: js "[1;32m")
  /\ stripAnsi (js "=> " ++ (ESC :: js "[1;32m") ++ js "42") = js "=> " ++ stripAnsi (js "42").
Proof.
  assert (control_sequence (ESC :: js "[1;32m")) as Hq.
  { left. exists (js "1;32"), (ch "m"). repeat split; reflexivity. }
  split; [reflexivity|split; [exact Hq|]].
  apply (stripAnsi_drops_control_sequence (js "=> ") (ESC :: js "[1;32m") (js "42"));
    [reflexivity|exact Hq].
Defined.

Lemma remove_all_subseq r : forall s n prev, subseq (remove_all r n prev s) s.
Proof.
  induction s as [|c t IH]; intros n prev; simpl; [constructor|].
  destruct n as [|n]; [|apply subseq_skip, IH].
  destruct (match_here r prev (c :: t)) as [[|m]|];
    try (apply subseq_keep, IH). apply subseq_skip, IH.
Qed.

Lemma subseq_length {A} (l1 l2 : list A) : subseq l1 l2 -> (length l1 <= length l2)%nat.
Proof. induction 1; simpl; lia. Qed.

(** [stripAnsi] only deletes: what it returns is the input with some code
    units left out, in the same order, and is never longer. *)
Theorem stripAnsi_only_deletes :
  forall s, subseq (stripAnsi s) s /\ (length (stripAnsi s) <= length s)%nat.
Proof.
  intros s. assert (subseq (stripAnsi s) s) as H by apply remove_all_subseq.
  split; [exact H|apply subseq_length; exact H].
Qed.

(** A prompt wrapped in control sequences, as a coloured prompt is, ends
    the wait: the detector sees the text without them. *)
Theorem coloured_prompt_is_recognised :
  forall body c1 p c2,
    no_ESC body = true -> no_ESC p = true ->
    control_sequence c1 -> control_sequence c2 ->
    In p listed_prompts \/ custom_shape p ->
    stripAnsi (body ++ NL :: c1 ++ p ++ c2) = body ++ NL :: p
    /\ isComplete (body ++ NL :: c1 ++ p ++ c2) = true.
Proof.
  intros body c1 p c2 Hb Hp H1 H2 Hshape.
  assert (stripAnsi (body ++ NL :: c1 ++ p ++ c2) = body ++ NL :: p) as E.
  { replace (body ++ NL :: c1 ++ p ++ c2) with ((body ++ [NL]) ++ c1 ++ (p ++ c2))
      by (rewrite <- app_assoc; reflexivity).
    rewrite stripAnsi_after_plain; [|unfold no_ESC in *; rewrite forallb_app, Hb; reflexivity|exact H1].
    rewrite <- (app_nil_r c2), stripAnsi_after_plain by assumption.
    rewrite <- app_assoc. simpl. rewrite app_nil_r. reflexivity. }
  split; [exact E|]. eapply prompts_recognised; eauto.
Qed.

Lemma coloured_prompt_is_recognised_witness :
  no_ESC (js "=> 42") = true /\ no_ESC (js "irb(main):001:0> ") = true
  /\ control_sequence (ESC :: js "[1;32m") /\ control_sequence (ESC :: js "[0m")
  /\ (In (js "irb(main):001:0> ") listed_prompts \/ custom_shape (js "irb(main):001:0> "))
  /\ stripAnsi (js "=> 42" ++ NL :: (ESC :: js "[1;32m") ++ js "irb(main):001:0> "
                  ++ (ESC :: js "[0m"))
     = js "=> 42" ++ NL :: js "irb(main):001:0> "
  /\ isComplete (js "=> 42" ++ NL :: (ESC :: js "[1;32m") ++ js "irb(main):001:0> "
                   ++ (ESC :: js "[0m")) = true.
Proof.
  assert (control_sequence (ESC :: js "[1;32m")) as H1.
  { left. exists (js "1;32"), (ch "m"). repeat split; reflexivity. }
  assert (control_sequence (ESC :: js "[0m")) as H2.
  { left. exists (js "0"), (ch "m"). repeat split; reflexivity. }
  assert (In (js "irb(main):001:0> ") listed_prompts \/ custom_shape (js "irb(main):001:0> "))
    as H3 by (left; left; reflexivity).
  split; [reflexivity|split; [reflexivity|split; [exact H1|split; [exact H2|split; [exact H3|]]]]].
  apply (coloured_prompt_is_recognised (js "=> 42") (ESC :: js "[1;32m")
           (js "irb(main):001:0> ") (ESC :: js "[0m")); auto.
Defined.

(** ** The output buffer under any events *)

Lemma slice_from_is_skipn k s : exists n, slice_from k s = skipn n s.
Proof. unfold slice_from. eauto. Qed.

Lemma append_output_suffix maxOut buf chunk :
  exists oldest, buf ++ chunk = oldest ++ append_output maxOut buf chunk.
Proof.
  unfold append_output. destruct (_ >? _).
  - destruct (slice_from_is_skipn (- maxOut) (buf ++ chunk)) as (n & ->).
    exists (firstn n (buf ++ chunk)). symmetry. apply firstn_skipn.
  - exists []. reflexivity.
Qed.

Lemma deliver_buffer e s :
  buffer (deliver e s)
  = match e with
    | StdoutData chunk => append_output (maxOutput (config s)) (buffer s) chunk
    | _ => buffer s
    end.
Proof.
  destruct e; simpl; auto. destruct (inactivityTimer s); [apply kill_buffer|reflexivity].
Qed.

Lemma deliver_config e s : config (deliver e s) = config s.
Proof. destruct (deliver_quiet e s) as (C & _). exact C. Qed.

(** Whatever the ceiling, and whatever events arrive, the buffer is always
    the end of what it held followed by the stdout chunks in their order of
    arrival: truncation discards from the front only, and stderr data,
    [close] events and the inactivity timer never touch the buffer. *)
Theorem buffer_is_suffix_of_stdout :
  forall es s,
    exists oldest,
      buffer s ++ concat (stdout_of es) = oldest ++ buffer (deliver_all es s).
Proof.
  unfold deliver_all. induction es as [|e es IH]; intros s.
  - exists []. simpl. apply app_nil_r.
  - cbn [fold_left]. destruct (IH (deliver e s)) as (o2 & E2).
    rewrite deliver_buffer in E2. destruct e; cbn [stdout_of concat];
      try (exists o2; exact E2).
    destruct (append_output_suffix (maxOutput (config s)) (buffer s) chunk) as (o1 & E1).
    exists (o1 ++ o2). rewrite app_assoc, E1, <- !app_assoc. f_equal. exact E2.
Qed.

(** Under a positive ceiling the buffer holds, after any events, exactly
    the last [maxOutput] code units of what it held followed by the stdout
    chunks (all of them when they are fewer), so it never grows beyond the
    ceiling. *)
Theorem buffer_is_tail_of_stdout :
  forall es s,
    0 < maxOutput (config s) ->
    Z.of_nat (length (buffer s)) <= maxOutput (config s) ->
    buffer (deliver_all es s)
    = tail_of (Z.to_nat (maxOutput (config s))) (buffer s ++ concat (stdout_of es))
    /\ Z.of_nat (length (buffer (deliver_all es s))) <= maxOutput (config s).
Proof.
  unfold deliver_all. induction es as [|e es IH]; intros s Hpos Hlen.
  - simpl. rewrite app_nil_r. split; [|exact Hlen].
    symmetry. apply tail_of_all. lia.
  - cbn [fold_left].
    assert (Z.of_nat (length (buffer (deliver e s))) <= maxOutput (config s)) as Hlen'.
    { rewrite deliver_buffer. destruct e; auto.
      rewrite append_output_tail, tail_of_length by exact Hpos. lia. }
    specialize (IH (deliver e s)). rewrite deliver_config in IH.
    destruct (IH Hpos Hlen') as (E & L). split; [|exact L].
    rewrite E, deliver_buffer. destruct e; cbn [stdout_of concat]; try reflexivity.
    rewrite append_output_tail by exact Hpos.
    rewrite app_assoc. apply tail_of_tail_app.
Qed.

Lemma buffer_is_tail_of_stdout_witness :
  let s := new_RailsConsole
             (mkConfig docker (js "web") [] (js "default") [] (js "web") 60000 7200000 4) in
  let es := [StdoutData (js "abc"); StderrData (js "warn"); StdoutData (js "def")] in
  0 < maxOutput (config s)
  /\ Z.of_nat (length (buffer s)) <= maxOutput (config s)
  /\ buffer (deliver_all es s)
     = tail_of (Z.to_nat (maxOutput (config s))) (buffer s ++ concat (stdout_of es))
  /\ Z.of_nat (length (buffer (deliver_all es s))) <= maxOutput (config s).
Proof.
  cbv zeta. split; [reflexivity|split; [discriminate|]].
  apply (buffer_is_tail_of_stdout
           [StdoutData (js "abc"); StderrData (js "warn"); StdoutData (js "def")]
           (new_RailsConsole
              (mkConfig docker (js "web") [] (js "default") [] (js "web") 60000 7200000 4)));
    [reflexivity|discriminate].
Defined.

(** ** The completion detector *)

(** The detector judges a buffer complete exactly when its text, once the
    control sequences are stripped, is some body, a line feed, and a text
    that one of the three alternatives of the pattern matches to the end. *)
Theorem detector_characterised :
  forall b,
    isComplete b = true <->
    exists body p, stripAnsi b = body ++ NL :: p /\ is_prompt_line p = true.
Proof.
  intros b. rewrite isComplete_iff. split; intros (body & p & E & H);
    exists body, p; (split; [exact E|]); apply is_prompt_line_iff; exact H.
Qed.

(** Each of the five prompts of the source's comments and tests, and every
    customised prompt of the shape [who(context)> ], ends the wait when it
    follows a line feed at the end of the cleaned text, whatever the body
    before it. *)
Theorem listed_and_custom_prompts_end_the_wait :
  forall b body p,
    stripAnsi b = body ++ NL :: p ->
    In p listed_prompts \/ custom_shape p ->
    isComplete b = true.
Proof. intros b body p E H. eapply prompts_recognised; eauto. Qed.

Lemma listed_and_custom_prompts_end_the_wait_witness :
  stripAnsi (js "=> nil" ++ NL :: js "dev@box(main)> ")
  = js "=> nil" ++ NL :: js "dev@box(main)> "
  /\ (In (js "dev@box(main)> ") listed_prompts \/ custom_shape (js "dev@box(main)> "))
  /\ isComplete (js "=> nil" ++ NL :: js "dev@box(main)> ") = true.
Proof.
  assert (custom_shape (js "dev@box(main)> ")) as Hc.
  { exists (js "dev@box"), (js "main"). repeat split; try reflexivity; discriminate. }
  split; [reflexivity|split; [right; exact Hc|]].
  apply (listed_and_custom_prompts_end_the_wait
           (js "=> nil" ++ NL :: js "dev@box(main)> ") (js "=> nil") (js "dev@box(main)> "));
    [reflexivity|right; exact Hc].
Defined.

(** A cleaned text without a line feed is never complete: a prompt alone
    in the buffer, or an empty buffer, does not end the wait. *)
Theorem text_without_line_feed_is_incomplete :
  forall b,
    forallb (fun c => negb (code_eqb c NL)) (stripAnsi b) = true ->
    isComplete b = false.
Proof.
  intros b H. apply Bool.not_true_is_false. intros C.
  apply isComplete_iff in C as (body & p & E & _).
  rewrite E, forallb_app in H. apply andb_true_iff in H as [_ H].
  cbn [forallb] in H. change (code_eqb NL NL) with true in H. discriminate.
Qed.

Lemma text_without_line_feed_is_incomplete_witness :
  forallb (fun c => negb (code_eqb c NL)) (stripAnsi (js "irb(main):001:0> ")) = true
  /\ isComplete (js "irb(main):001:0> ") = false.
Proof.
  split; [reflexivity|].
  apply (text_without_line_feed_is_incomplete (js "irb(main):001:0> ")). reflexivity.
Defined.

Lemma last_app_cons {A} (l : list A) x t d : last (l ++ x :: t) d = last (x :: t) d.
Proof.
  induction l as [|y l IH]; [reflexivity|].
  simpl app. rewrite <- IH. simpl. destruct (l ++ x :: t) eqn:E; [|reflexivity].
  destruct l; discriminate.
Qed.

Lemma Matches_Opt_inv p prev w rest :
  Matches (Opt p) prev w rest -> w = [] \/ exists c, w = [c] /\ p c = true.
Proof. inversion 1; subst; eauto. Qed.

Lemma Matches_Cls_inv p prev w rest :
  Matches (Cls p) prev w rest -> exists c, w = [c] /\ p c = true.
Proof. inversion 1; subst; eauto. Qed.

Lemma ends_in_mark_Seq a b : ends_in_mark b -> ends_in_mark (Seq a b).
Proof.
  intros Hb prev w M. apply Matches_Seq_inv in M as (w1 & w2 & -> & _ & M2).
  apply Hb in M2 as [Hn Hm]. destruct w2 as [|x t]; [congruence|]. split.
  - destruct w1; discriminate.
  - rewrite last_app_cons. exact Hm.
Qed.

Lemma ends_in_mark_Alt a b : ends_in_mark a -> ends_in_mark b -> ends_in_mark (Alt a b).
Proof. intros Ha Hb prev w M. inversion M; subst; eauto. Qed.

Lemma ends_in_mark_lit l :
  l <> [] -> prompt_mark (last l NL) -> ends_in_mark (lit l).
Proof. intros Hn Hm prev w M. apply Matches_lit in M. subst. auto. Qed.

Lemma ends_in_mark_irb_tail :
  ends_in_mark (Seq (Cls gt_or_star) (Opt (code_eqb (ch " ")))).
Proof.
  intros prev w M. apply Matches_Seq_inv in M as (w1 & w2 & -> & M1 & M2).
  apply Matches_Cls_inv in M1 as (c & -> & Hc).
  apply Matches_Opt_inv in M2 as [->|(c' & -> & Hc')]; (split; [discriminate|]).
  - simpl. unfold gt_or_star in Hc. apply orb_true_iff in Hc.
    destruct Hc as [Hc|Hc]; apply code_eqb_eq in Hc; subst; unfold prompt_mark; auto.
  - simpl. apply code_eqb_eq in Hc'. subst. left. reflexivity.
Qed.

Lemma prompt_group_ends_in_mark : ends_in_mark prompt_group.
Proof.
  unfold prompt_group, irb_prompt, pry_prompt, custom_prompt. cbn [alts seqs].
  apply ends_in_mark_Alt; [|apply ends_in_mark_Alt].
  - do 6 apply ends_in_mark_Seq. apply ends_in_mark_irb_tail.
  - do 4 apply ends_in_mark_Seq.
    apply ends_in_mark_lit; [discriminate|left; reflexivity].
  - do 3 apply ends_in_mark_Seq.
    apply ends_in_mark_lit; [discriminate|left; reflexivity].
Qed.

(** A complete text ends in the prompt itself: its last code unit is a
    space, [>] or [*].  Anything after the prompt, a line feed included,
    keeps the wait going. *)
Theorem complete_text_ends_in_prompt_mark :
  forall b,
    isComplete b = true ->
    stripAnsi b <> [] /\ prompt_mark (last (stripAnsi b) NL).
Proof.
  intros b H. apply isComplete_iff in H as (body & p & E & M).
  apply prompt_group_ends_in_mark in M as [Hn Hm]. rewrite E. split.
  - destruct body; discriminate.
  - destruct p as [|x t]; [congruence|].
    change (body ++ NL :: x :: t) with (body ++ [NL] ++ x :: t).
    rewrite app_assoc, last_app_cons. exact Hm.
Qed.

Lemma complete_text_ends_in_prompt_mark_witness :
  isComplete (js "=> 42" ++ NL :: js "irb(main):002:0* ") = true
  /\ stripAnsi (js "=> 42" ++ NL :: js "irb(main):002:0* ") <> []
  /\ prompt_mark (last (stripAnsi (js "=> 42" ++ NL :: js "irb(main):002:0* ")) NL).
Proof.
  split; [reflexivity|].
  apply (complete_text_ends_in_prompt_mark (js "=> 42" ++ NL :: js "irb(main):002:0* ")).
  reflexivity.
Defined.

(** What a completed command's response is: the cleaned text up to the
    leftmost line feed from which the pattern matches through the end of
    the text, so that the cleaned text is the response, that line feed and
    a text of one of the three alternatives, and no shorter split of this
    kind exists.  A buffer that is not complete is returned whole, cleaned. *)
Theorem response_stops_at_leftmost_match :
  forall b,
    (isComplete b = true ->
     exists p,
       stripAnsi b = extractResponse b ++ NL :: p
       /\ is_prompt_line p = true
       /\ forall body' p',
            stripAnsi b = body' ++ NL :: p' -> is_prompt_line p' = true ->
            (length (extractResponse b) <= length body')%nat)
    /\ (isComplete b = false -> extractResponse b = stripAnsi b).
Proof.
  intros b. split.
  - intros H. apply extractResponse_complete in H as (p & E & M & Hmin).
    exists p. split; [exact E|split; [apply is_prompt_line_iff; exact M|]].
    intros body' p' E' M'. apply (Hmin body' p' E'). apply is_prompt_line_iff. exact M'.
  - apply extractResponse_incomplete.
Qed.

Lemma response_stops_at_leftmost_match_witness :
  (isComplete (js "=> 42" ++ NL :: js "irb(main):002:0> ") = true
   /\ exists p,
        stripAnsi (js "=> 42" ++ NL :: js "irb(main):002:0> ")
        = extractResponse (js "=> 42" ++ NL :: js "irb(main):002:0> ") ++ NL :: p
        /\ is_prompt_line p = true)
  /\ (isComplete (js "=> 4") = false /\ extractResponse (js "=> 4") = stripAnsi (js "=> 4")).
Proof.
  split.
  - split; [reflexivity|].
    destruct (proj1 (response_stops_at_leftmost_match
                       (js "=> 42" ++ NL :: js "irb(main):002:0> ")) eq_refl)
      as (p & E & Hp & _).
    exists p. split; assumption.
  - split; [reflexivity|].
    apply (proj2 (response_stops_at_leftmost_match (js "=> 4"))). reflexivity.
Defined.

(** ** Waiting for the prompt *)

(** A wait resolves [true] only on a buffer that shows a prompt: neither
    the deadline nor the loss of the handle can make it report
    completion. *)
Theorem wait_resolves_true_only_on_a_prompt :
  forall timeoutMs polls s,
    fst (waitForPrompt timeoutMs polls s) = true ->
    isComplete (buffer (snd (waitForPrompt timeoutMs polls s))) = true.
Proof. intros. apply waitForPrompt_true. assumption. Qed.

Lemma wait_resolves_true_only_on_a_prompt_witness :
  fst (waitForPrompt 60000 (answers (js "=> 84" ++ [NL]))
         (with_buffer [] ready_session)) = true
  /\ isComplete (buffer (snd (waitForPrompt 60000 (answers (js "=> 84" ++ [NL]))
                                (with_buffer [] ready_session)))) = true.
Proof.
  split; [reflexivity|].
  apply (wait_resolves_true_only_on_a_prompt 60000 (answers (js "=> 84" ++ [NL]))
           (with_buffer [] ready_session)).
  reflexivity.
Defined.

Lemma poll_loop_longer t t' polls : forall s,
  t <= t' ->
  fst (poll_loop t polls s) = true ->
  poll_loop t' polls s = poll_loop t polls s.
Proof.
  induction polls as [|p polls IH]; intros s Ht H; simpl in *; [reflexivity|].
  destruct (isComplete _); [reflexivity|].
  destruct (Z.gtb_spec (elapsed p) t); [discriminate|].
  destruct (Z.gtb_spec (elapsed p) t'); [lia|].
  destruct (negb _); [reflexivity|]. apply IH; assumption.
Qed.

(** A longer timeout never loses a completion: a wait that resolves [true]
    under a timeout resolves in the same way, in the same state, under any
    longer one. *)
Theorem longer_timeout_keeps_completion :
  forall t t' polls s,
    t <= t' ->
    fst (waitForPrompt t polls s) = true ->
    waitForPrompt t' polls s = waitForPrompt t polls s.
Proof.
  intros t t' polls s Ht H. unfold waitForPrompt in *.
  destruct (isComplete (buffer s)); [reflexivity|].
  destruct (Z.gtb_spec 0 t); [discriminate|].
  destruct (Z.gtb_spec 0 t'); [lia|].
  destruct (negb _); [reflexivity|]. apply poll_loop_longer; assumption.
Qed.

Lemma longer_timeout_keeps_completion_witness :
  5000 <= 60000
  /\ fst (waitForPrompt 5000 (answers (js "=> 84" ++ [NL]))
            (with_buffer [] ready_session)) = true
  /\ waitForPrompt 60000 (answers (js "=> 84" ++ [NL])) (with_buffer [] ready_session)
     = waitForPrompt 5000 (answers (js "=> 84" ++ [NL])) (with_buffer [] ready_session).
Proof.
  split; [discriminate|split; [reflexivity|]].
  apply (longer_timeout_keeps_completion 5000 60000); [discriminate|reflexivity].
Defined.

(** Whatever arrives while it lasts, a wait spawns nothing and writes
    nothing: it leaves the configuration, the restart flag and the count of
    spawns as they were, keeps the handle or loses it, and adds no command
    write to the trace. *)
Theorem wait_spawns_and_writes_nothing :
  forall timeoutMs polls s,
    let s' := snd (waitForPrompt timeoutMs polls s) in
    config s' = config s
    /\ hasRestarted s' = hasRestarted s
    /\ spawned s' = spawned s
    /\ (process s' = process s \/ process s' = None)
    /\ exists ks, trace s' = trace s ++ ks /\ writes_of ks = [].
Proof. intros. apply waitForPrompt_quiet. Qed.

(** ** Starting the console *)

Lemma start_spawned w s :
  spawned (snd (start w s)) = spawned s
  \/ spawned (snd (start w s)) = S (spawned s).
Proof.
  unfold start. destruct (buildSpawnArgs _ _) as [[cmd args]|]; [|left; reflexivity].
  destruct (spawnFault w); [left; reflexivity|].
  match goal with |- context [waitForPrompt ?t ?ps ?s1] =>
    pose proof (waitForPrompt_quiet t ps s1) as Q;
    destruct (waitForPrompt t ps s1) as [ready s2] end.
  unfold quiet in Q. simpl in Q. destruct Q as (_ & _ & N & _).
  right. destruct ready; simpl; [exact N|].
  destruct (kill_quiet s2) as (_ & _ & N' & _). congruence.
Qed.

Lemma deliver_data_process e s : is_data e = true -> process (deliver e s) = process s.
Proof. destruct e; simpl; try discriminate; reflexivity. Qed.

Lemma deliver_all_data_process es : forall s,
  forallb is_data es = true -> process (deliver_all es s) = process s.
Proof.
  unfold deliver_all. induction es as [|e es IH]; intros s H; simpl in *; [reflexivity|].
  apply andb_true_iff in H as [He Hes]. rewrite IH by exact Hes.
  apply deliver_data_process, He.
Qed.

Lemma poll_loop_data_process t polls : forall s,
  only_data polls = true -> process (snd (poll_loop t polls s)) = process s.
Proof.
  unfold only_data. induction polls as [|p polls IH]; intros s H; simpl in *; [reflexivity|].
  apply andb_true_iff in H as [Hp Hps].
  pose proof (deliver_all_data_process (arrived p) s Hp) as E.
  destruct (isComplete _); [exact E|].
  destruct (_ >? _); [exact E|]. destruct (negb _); [exact E|].
  rewrite IH by exact Hps. exact E.
Qed.

Lemma waitForPrompt_data_process t polls s :
  only_data polls = true -> process (snd (waitForPrompt t polls s)) = process s.
Proof.
  intros H. unfold waitForPrompt.
  destruct (isComplete _); [reflexivity|].
  destruct (_ >? _); [reflexivity|]. destruct (negb _); [reflexivity|].
  apply poll_loop_data_process, H.
Qed.

(** A start that succeeds has spawned exactly one console, under a handle
    never issued before, and hands over an empty buffer and an unused
    restart.  The session then holds the handle of the new console or
    none; it holds the handle whenever nothing but data of the subprocess
    arrived during the wait for the first prompt. *)
Theorem successful_start_state :
  forall w s,
    success (fst (start w s)) = true ->
    fst (start w s) = mkResult true [] None
    /\ buffer (snd (start w s)) = []
    /\ hasRestarted (snd (start w s)) = false
    /\ spawned (snd (start w s)) = S (spawned s)
    /\ (process (snd (start w s)) = Some (spawned s) \/ process (snd (start w s)) = None)
    /\ (only_data (bootPolls w) = true -> process (snd (start w s)) = Some (spawned s))
    /\ exists cmd args ks,
         trace (snd (start w s)) = trace s ++ Spawn (spawned s) cmd args :: ks
         /\ writes_of ks = [].
Proof.
  intros w s. unfold start.
  destruct (buildSpawnArgs _ _) as [[cmd args]|]; [|discriminate].
  destruct (spawnFault w); [discriminate|].
  match goal with |- context [waitForPrompt ?t ?ps ?s1] =>
    pose proof (waitForPrompt_quiet t ps s1) as Q;
    pose proof (waitForPrompt_data_process t ps s1) as D;
    destruct (waitForPrompt t ps s1) as [ready s2] end.
  unfold quiet in Q. simpl in Q, D. destruct Q as (_ & _ & N & P & ks & T & W).
  destruct ready; simpl; [intros _|discriminate].
  split; [reflexivity|]. split; [reflexivity|]. split; [reflexivity|].
  split; [exact N|]. split; [exact P|]. split; [exact D|].
  exists cmd, args, ks. rewrite T, <- app_assoc. auto.
Qed.

Lemma successful_start_state_witness :
  success (fst (start boots (new_RailsConsole cfg0))) = true
  /\ fst (start boots (new_RailsConsole cfg0)) = mkResult true [] None
  /\ buffer (snd (start boots (new_RailsConsole cfg0))) = []
  /\ hasRestarted (snd (start boots (new_RailsConsole cfg0))) = false
  /\ spawned (snd (start boots (new_RailsConsole cfg0))) = 1%nat
  /\ process (snd (start boots (new_RailsConsole cfg0))) = Some 0%nat.
Proof.
  split; [reflexivity|].
  destruct (successful_start_state boots (new_RailsConsole cfg0) eq_refl)
    as (R & B & F & N & _ & D & _).
  split; [exact R|]. split; [exact B|]. split; [exact F|]. split; [exact N|].
  apply D. reflexivity.
Defined.

(** A start that fails on an Empty session leaves it Empty, with the
    configuration and the restart flag as they were, and returns an empty
    output with an error text. *)
Theorem failed_start_leaves_session_empty :
  forall w s,
    process s = None ->
    success (fst (start w s)) = false ->
    process (snd (start w s)) = None
    /\ config (snd (start w s)) = config s
    /\ hasRestarted (snd (start w s)) = hasRestarted s
    /\ output (fst (start w s)) = []
    /\ error (fst (start w s)) <> None.
Proof.
  intros w s Ps. unfold start.
  destruct (buildSpawnArgs _ _) as [[cmd args]|];
    [|intros _; simpl; repeat split; auto; discriminate].
  destruct (spawnFault w); [intros _; simpl; repeat split; auto; discriminate|].
  match goal with |- context [waitForPrompt ?t ?ps ?s1] =>
    pose proof (waitForPrompt_quiet t ps s1) as Q;
    destruct (waitForPrompt t ps s1) as [ready s2] end.
  unfold quiet in Q. simpl in Q. destruct Q as (C & F & _).
  destruct ready; simpl; [discriminate|intros _].
  destruct (kill_quiet s2) as (C' & F' & _).
  repeat split; try congruence. apply kill_process.
Qed.

Lemma failed_start_leaves_session_empty_witness :
  process (new_RailsConsole cfg0) = None
  /\ success (fst (start silent (new_RailsConsole cfg0))) = false
  /\ process (snd (start silent (new_RailsConsole cfg0))) = None
  /\ config (snd (start silent (new_RailsConsole cfg0))) = config (new_RailsConsole cfg0)
  /\ hasRestarted (snd (start silent (new_RailsConsole cfg0)))
     = hasRestarted (new_RailsConsole cfg0)
  /\ output (fst (start silent (new_RailsConsole cfg0))) = []
  /\ error (fst (start silent (new_RailsConsole cfg0))) <> None.
Proof.
  split; [reflexivity|split; [reflexivity|]].
  apply (failed_start_leaves_session_empty silent (new_RailsConsole cfg0)); reflexivity.
Defined.

(** In kubectl mode the pod is looked up before anything is spawned: with
    no pod the start fails at once and the session is untouched; with a pod
    the first effect is the spawn of [kubectl exec] on that pod. *)
Theorem kubectl_start_needs_a_pod :
  forall w s,
    mode (config s) = kubectl ->
    spawnFault w = None ->
    match discoverPod (podQuery w) with
    | None => start w s = (failure [] (js "Failed to build spawn arguments"), s)
    | Some podName =>
        exists ks,
          trace (snd (start w s))
          = trace s ++ Spawn (spawned s) (js "kubectl") (kubectl_args (config s) podName) :: ks
          /\ writes_of ks = []
    end.
Proof.
  intros w s Hm Hf. unfold start, buildSpawnArgs. rewrite Hm.
  destruct (discoverPod (podQuery w)) as [podName|]; [|reflexivity].
  rewrite Hf.
  match goal with |- context [waitForPrompt ?t ?ps ?s1] =>
    pose proof (waitForPrompt_quiet t ps s1) as Q;
    destruct (waitForPrompt t ps s1) as [ready s2] end.
  unfold quiet in Q. simpl in Q. destruct Q as (_ & _ & _ & _ & ks & T & W).
  destruct ready; simpl.
  - exists ks. rewrite T, <- app_assoc. auto.
  - destruct (kill_quiet s2) as (_ & _ & _ & _ & ks' & T' & W').
    exists (ks ++ ks'). rewrite T', T, <- !app_assoc, writes_of_app, W, W'. auto.
Qed.

Lemma kubectl_start_needs_a_pod_witness :
  let s := new_RailsConsole
             (mkConfig kubectl (js "web") (js "staging") (js "default") (js "app=web")
                (js "web") 60000 7200000 1048576) in
  let w := mkBoot (Some (js "web-7d9f" ++ [NL])) None [] in
  mode (config s) = kubectl
  /\ spawnFault w = None
  /\ exists ks,
       trace (snd (start w s))
       = trace s ++ Spawn (spawned s) (js "kubectl")
                      (kubectl_args (config s) (js "web-7d9f")) :: ks
       /\ writes_of ks = [].
Proof.
  cbv zeta. split; [reflexivity|split; [reflexivity|]].
  apply (kubectl_start_needs_a_pod
           (mkBoot (Some (js "web-7d9f" ++ [NL])) None [])
           (new_RailsConsole
              (mkConfig kubectl (js "web") (js "staging") (js "default") (js "app=web")
                 (js "web") 60000 7200000 1048576)));
    reflexivity.
Defined.

(** ** Pod discovery *)

Lemma trimStart_app_ws ws s :
  forallb isTrimmed ws = true -> trimStart (ws ++ s) = trimStart s.
Proof.
  induction ws as [|c ws IH]; simpl; [reflexivity|].
  intros H. apply andb_true_iff in H as [Hc H]. rewrite Hc. apply IH. exact H.
Qed.

Lemma trimStart_keep c t : isTrimmed c = false -> trimStart (c :: t) = c :: t.
Proof. intros H. simpl. rewrite H. reflexivity. Qed.

Lemma forallb_rev {A} (f : A -> bool) l : forallb f (rev l) = forallb f l.
Proof.
  induction l as [|x l IH]; [reflexivity|].
  simpl. rewrite forallb_app, IH. simpl. rewrite andb_true_r. apply andb_comm.
Qed.

Lemma trimEnd_app_ws s ws :
  forallb isTrimmed ws = true -> trimEnd (s ++ ws) = trimEnd s.
Proof.
  intros H. unfold trimEnd. rewrite rev_app_distr, trimStart_app_ws; [reflexivity|].
  rewrite forallb_rev. exact H.
Qed.

Lemma trimEnd_keep s c : isTrimmed c = false -> trimEnd (s ++ [c]) = s ++ [c].
Proof.
  intros H. unfold trimEnd. rewrite rev_app_distr. simpl rev at 2. cbn [app].
  rewrite trimStart_keep by exact H.
  change (c :: rev s) with ([c] ++ rev s). rewrite rev_app_distr, rev_involutive.
  reflexivity.
Qed.

(** Trimming a text that is padded with white space on both sides gives
    the core, when the core begins and ends with other code units. *)
Lemma trim_padded ws1 c mid l ws2 :
  forallb isTrimmed ws1 = true -> forallb isTrimmed ws2 = true ->
  isTrimmed c = false -> isTrimmed l = false ->
  trim (ws1 ++ (c :: mid ++ [l]) ++ ws2) = c :: mid ++ [l].
Proof.
  intros H1 H2 Hc Hl. unfold trim.
  rewrite trimStart_app_ws by exact H1.
  cbn [app]. rewrite trimStart_keep by exact Hc.
  change (c :: (mid ++ [l]) ++ ws2) with ((c :: mid ++ [l]) ++ ws2).
  rewrite trimEnd_app_ws by exact H2.
  change (c :: mid ++ [l]) with ((c :: mid) ++ [l]). apply trimEnd_keep. exact Hl.
Qed.

Lemma trim_blank ws : forallb isTrimmed ws = true -> trim ws = [].
Proof.
  intros H. unfold trim. rewrite <- (app_nil_r ws), trimStart_app_ws by exact H.
  reflexivity.
Qed.

Lemma remove_quotes_plain s :
  forallb (fun c => negb (is_quote c)) s = true -> remove_quotes s = s.
Proof.
  unfold remove_quotes, is_quote. induction s as [|c s IH]; cbn [filter forallb];
    [reflexivity|].
  intros H. apply andb_true_iff in H as [Hc H]. rewrite Hc, IH by exact H. reflexivity.
Qed.

Lemma remove_quotes_app a b : remove_quotes (a ++ b) = remove_quotes a ++ remove_quotes b.
Proof. unfold remove_quotes. apply filter_app. Qed.

Lemma remove_quotes_quotes qs : forallb is_quote qs = true -> remove_quotes qs = [].
Proof.
  unfold remove_quotes, is_quote. induction qs as [|c qs IH]; cbn [filter forallb];
    [reflexivity|].
  intros H. apply andb_true_iff in H as [Hc H]. rewrite Hc. cbn [negb]. apply IH. exact H.
Qed.

Lemma quote_is_not_trimmed c : is_quote c = true -> isTrimmed c = false.
Proof. intros Hc. apply code_eqb_eq in Hc. subst. reflexivity. Qed.

Lemma trim_core ws1 core ws2 :
  forallb isTrimmed ws1 = true -> forallb isTrimmed ws2 = true ->
  core <> [] ->
  (forall c, In c core -> isTrimmed c = false) ->
  trim (ws1 ++ core ++ ws2) = core.
Proof.
  intros H1 H2 Hn Hc.
  destruct (exists_last Hn) as (mid & l & E). subst core.
  assert (isTrimmed l = false) as Hl by (apply Hc, in_or_app; right; left; reflexivity).
  destruct mid as [|c mid].
  - unfold trim. rewrite trimStart_app_ws by exact H1.
    cbn [app]. rewrite trimStart_keep by exact Hl.
    change (l :: ws2) with ([l] ++ ws2). rewrite trimEnd_app_ws by exact H2.
    change [l] with ([] ++ [l]) at 1. apply trimEnd_keep. exact Hl.
  - apply trim_padded; try assumption. apply Hc. left. reflexivity.
Qed.

(** A pod name that comes back between single quotes, padded with white
    space or not, is read as the bare name. *)
Theorem discoverPod_reads_a_quoted_name :
  forall ws1 podName ws2,
    forallb isTrimmed ws1 = true -> forallb isTrimmed ws2 = true ->
    podName <> [] ->
    forallb (fun c => negb (is_quote c)) podName = true ->
    discoverPod (Some (ws1 ++ (ch "'" :: podName ++ [ch "'"]) ++ ws2)) = Some podName.
Proof.
  intros ws1 podName ws2 H1 H2 Hn Hq. unfold discoverPod.
  rewrite trim_padded by (assumption || reflexivity).
  change (ch "'" :: podName ++ [ch "'"]) with ([ch "'"] ++ podName ++ [ch "'"]).
  rewrite !remove_quotes_app, (remove_quotes_plain podName Hq).
  change (remove_quotes [ch "'"]) with (@nil char). simpl. rewrite app_nil_r.
  destruct podName; [congruence|reflexivity].
Qed.

Lemma discoverPod_reads_a_quoted_name_witness :
  forallb isTrimmed [] = true /\ forallb isTrimmed [NL] = true
  /\ js "web-7d9f" <> []
  /\ forallb (fun c => negb (is_quote c)) (js "web-7d9f") = true
  /\ discoverPod (Some ([] ++ (ch "'" :: js "web-7d9f" ++ [ch "'"]) ++ [NL]))
     = Some (js "web-7d9f").
Proof.
  split; [reflexivity|split; [reflexivity|split; [discriminate|split; [reflexivity|]]]].
  apply (discoverPod_reads_a_quoted_name [] (js "web-7d9f") [NL]);
    try reflexivity. discriminate.
Defined.

(** What [discoverPod] hands on is never empty and never holds a single
    quote; a failed query, a blank answer and an answer of bare quotes are
    no pod. *)
Theorem discoverPod_result_is_a_name :
  (forall queried podName,
     discoverPod queried = Some podName ->
     podName <> [] /\ forallb (fun c => negb (is_quote c)) podName = true)
  /\ discoverPod None = None
  /\ (forall ws1 qs ws2,
        forallb isTrimmed ws1 = true -> forallb is_quote qs = true ->
        forallb isTrimmed ws2 = true ->
        discoverPod (Some (ws1 ++ qs ++ ws2)) = None).
Proof.
  split; [|split; [reflexivity|]].
  - intros queried podName. unfold discoverPod. destruct queried as [raw|]; [|discriminate].
    destruct (remove_quotes (trim raw)) as [|c t] eqn:E; [discriminate|].
    intros H. inversion H; subst. split; [discriminate|].
    rewrite <- E. unfold remove_quotes, is_quote. apply forallb_forall.
    intros x Hx. apply filter_In in Hx as [_ Hx]. exact Hx.
  - intros ws1 qs ws2 H1 Hq H2. unfold discoverPod.
    destruct qs as [|q qs].
    + simpl app. rewrite trim_blank; [reflexivity|].
      rewrite forallb_app, H1, H2. reflexivity.
    + rewrite trim_core; try assumption.
      * rewrite remove_quotes_quotes by exact Hq. reflexivity.
      * discriminate.
      * intros c Hc. apply quote_is_not_trimmed.
        rewrite forallb_forall in Hq. apply Hq. exact Hc.
Qed.

Lemma discoverPod_result_is_a_name_witness :
  discoverPod (Some (js "web-7d9f")) = Some (js "web-7d9f")
  /\ js "web-7d9f" <> []
  /\ forallb (fun c => negb (is_quote c)) (js "web-7d9f") = true
  /\ discoverPod (Some ([NL] ++ js "''" ++ [NL])) = None.
Proof.
  split; [reflexivity|].
  destruct (proj1 discoverPod_result_is_a_name (Some (js "web-7d9f")) (js "web-7d9f") eq_refl)
    as [Hn Hq].
  split; [exact Hn|split; [exact Hq|]].
  apply (proj2 (proj2 discoverPod_result_is_a_name) [NL] (js "''") [NL]); reflexivity.
Defined.

(** ** Killing and closing *)

(** [kill] leaves the session Empty with the inactivity timer off, touches
    neither the buffer, the configuration nor the restart flag, sends
    SIGTERM exactly when a handle was held, and does nothing the second
    time. *)
Theorem kill_empties_the_session_once :
  forall s,
    process (kill s) = None
    /\ inactivityTimer (kill s) = false
    /\ buffer (kill s) = buffer s
    /\ config (kill s) = config s
    /\ hasRestarted (kill s) = hasRestarted s
    /\ trace (kill s)
       = trace s ++ match process s with Some h => [Kill h] | None => [] end
    /\ kill (kill s) = kill s.
Proof.
  intros s. unfold kill.
  destruct s as [c p b t f n tr]. destruct t, p; simpl;
    rewrite ?app_nil_r; repeat split; reflexivity.
Qed.

(** ** The inactivity timer *)

Lemma kill_timer s : inactivityTimer (kill s) = false.
Proof.
  unfold kill. destruct (inactivityTimer s) eqn:E; simpl;
    destruct (process s); simpl; auto.
Qed.

Lemma deliver_armed e s : armed_or_gone s -> armed_or_gone (deliver e s).
Proof.
  unfold armed_or_gone. destruct e; simpl; auto.
  destruct (inactivityTimer s) eqn:E; [|rewrite E; auto].
  intros _. left. apply kill_process.
Qed.

Lemma deliver_all_armed es : forall s, armed_or_gone s -> armed_or_gone (deliver_all es s).
Proof.
  unfold deliver_all. induction es as [|e es IH]; intros s H; simpl; [exact H|].
  apply IH, deliver_armed, H.
Qed.

Lemma poll_loop_armed t polls : forall s,
  armed_or_gone s -> armed_or_gone (snd (poll_loop t polls s)).
Proof.
  induction polls as [|p polls IH]; intros s H; simpl; [exact H|].
  pose proof (deliver_all_armed (arrived p) s H) as H'.
  destruct (isComplete _); [exact H'|].
  destruct (_ >? _); [exact H'|]. destruct (negb _); [exact H'|]. apply IH, H'.
Qed.

Lemma waitForPrompt_armed t polls s :
  armed_or_gone s -> armed_or_gone (snd (waitForPrompt t polls s)).
Proof.
  intros H. unfold waitForPrompt.
  destruct (isComplete _); [exact H|].
  destruct (_ >? _); [exact H|]. destruct (negb _); [exact H|]. apply poll_loop_armed, H.
Qed.

Lemma deliver_timer_off e s :
  inactivityTimer s = false -> inactivityTimer (deliver e s) = false.
Proof. destruct e; simpl; auto. intros H. rewrite H. exact H. Qed.

Lemma deliver_all_timer_off es : forall s,
  inactivityTimer s = false -> inactivityTimer (deliver_all es s) = false.
Proof.
  unfold deliver_all. induction es as [|e es IH]; intros s H; simpl; [exact H|].
  apply IH, deliver_timer_off, H.
Qed.

Lemma poll_loop_timer_off t polls : forall s,
  inactivityTimer s = false -> inactivityTimer (snd (poll_loop t polls s)) = false.
Proof.
  induction polls as [|p polls IH]; intros s H; simpl; [exact H|].
  pose proof (deliver_all_timer_off (arrived p) s H) as H'.
  destruct (isComplete _); [exact H'|].
  destruct (_ >? _); [exact H'|]. destruct (negb _); [exact H'|]. apply IH, H'.
Qed.

Lemma waitForPrompt_timer_off t polls s :
  inactivityTimer s = false -> inactivityTimer (snd (waitForPrompt t polls s)) = false.
Proof.
  intros H. unfold waitForPrompt.
  destruct (isComplete _); [exact H|].
  destruct (_ >? _); [exact H|]. destruct (negb _); [exact H|].
  apply poll_loop_timer_off, H.
Qed.

Lemma start_timer_off w s :
  inactivityTimer s = false -> inactivityTimer (snd (start w s)) = false.
Proof.
  intros H. unfold start.
  destruct (buildSpawnArgs _ _) as [[cmd args]|]; [|exact H].
  destruct (spawnFault w); [exact H|].
  match goal with |- context [waitForPrompt ?t ?ps ?s1] =>
    pose proof (waitForPrompt_timer_off t ps s1 H) as Q;
    destruct (waitForPrompt t ps s1) as [ready s2] end.
  simpl in Q. destruct ready; simpl; [exact Q|apply kill_timer].
Qed.

(** The error texts of a failed start. *)
Lemma start_error_cases w s :
  success (fst (start w s)) = true
  \/ error (fst (start w s)) = Some (js "Failed to build spawn arguments")
  \/ (exists err, error (fst (start w s)) = Some (js "Failed to start: " ++ err))
  \/ error (fst (start w s)) = Some (js "Timeout waiting for Rails console to start").
Proof.
  unfold start. destruct (buildSpawnArgs _ _) as [[cmd args]|];
    [|right; left; reflexivity].
  destruct (spawnFault w) as [err|]; [right; right; left; exists err; reflexivity|].
  match goal with |- context [waitForPrompt ?t ?ps ?s1] =>
    destruct (waitForPrompt t ps s1) as [[|] s2] end; simpl; auto.
Qed.

Lemma executeCommand_timer code w s :
  armed_or_gone s ->
  (is_command_outcome (fst (executeCommand code w s)) ->
   process s <> None /\ armed_or_gone (snd (executeCommand code w s)))
  /\ (is_timeout_report (config s) (fst (executeCommand code w s)) ->
      process s <> None /\ inactivityTimer (snd (executeCommand code w s)) = false).
Proof.
  intros Ha. unfold is_command_outcome, is_timeout_report, ruby_error, executeCommand.
  destruct (process s) as [h|] eqn:Ps.
  2:{ simpl. split; intros [H|H]; discriminate H. }
  pose proof (await_command_quiet h code w s) as (ks & C & _).
  assert (armed_or_gone (snd (await_command h code w s))) as Ha2.
  { unfold await_command. apply waitForPrompt_armed.
    unfold armed_or_gone in *. simpl. rewrite Ps in *. exact Ha. }
  destruct (await_command h code w s) as [completed s2]. simpl in *.
  destruct completed; simpl.
  - split.
    + intros _. split; [discriminate|exact Ha2].
    + destruct (hasError _); simpl; intros [H|H]; discriminate H.
  - pose proof (kill_timer s2) as Kt.
    destruct (hasRestarted (kill s2)); simpl.
    + split; [intros [H|H]; discriminate H|].
      intros _. split; [discriminate|exact Kt].
    + pose proof (start_timer_off (restart w) (with_hasRestarted true (kill s2)) Kt) as St.
      destruct (start (restart w) (with_hasRestarted true (kill s2))) as [restarted s5].
      simpl in *. destruct (success restarted); simpl;
        (split; [intros [H|H]; discriminate H|intros _; split; [discriminate|exact St]]).
Qed.

(** When [exec] returns the outcome of a command, success or Ruby error,
    and the session still holds its handle, the inactivity timer is set. *)
Theorem completed_call_leaves_timer_armed :
  forall code w s,
    is_command_outcome (fst (exec code w s)) ->
    process (snd (exec code w s)) = None
    \/ inactivityTimer (snd (exec code w s)) = true.
Proof.
  intros code w s. unfold exec. destruct (process s) as [h|] eqn:Ps.
  - intros H. apply (executeCommand_timer code w (resetInactivityTimer s)); [|exact H].
    right. reflexivity.
  - pose proof (start_error_cases (lazyStart w) s) as Hs.
    destruct (start (lazyStart w) s) as [started s1]. simpl in Hs.
    destruct (success started) eqn:Sr; simpl.
    + intros H. apply (executeCommand_timer code w (resetInactivityTimer s1)); [|exact H].
      right. reflexivity.
    + unfold is_command_outcome, ruby_error.
      destruct Hs as [Hs|[Hs|[(err & Hs)|Hs]]]; [discriminate|..];
        rewrite Hs; intros [H|H]; discriminate H.
Qed.

Lemma completed_call_leaves_timer_armed_witness :
  is_command_outcome (fst (exec (js "x * 2") doubles ready_session))
  /\ (process (snd (exec (js "x * 2") doubles ready_session)) = None
      \/ inactivityTimer (snd (exec (js "x * 2") doubles ready_session)) = true).
Proof.
  assert (is_command_outcome (fst (exec (js "x * 2") doubles ready_session))) as H
    by (left; reflexivity).
  split; [exact H|].
  apply (completed_call_leaves_timer_armed (js "x * 2") doubles ready_session). exact H.
Defined.

(** When [exec] reports a command that timed out, the inactivity timer is
    off afterwards, also when the restart has brought up a new console:
    [kill] clears the timer and nothing sets it again before the next
    call. *)
Theorem timed_out_call_leaves_timer_off :
  forall code w s,
    is_timeout_report (config s) (fst (exec code w s)) ->
    inactivityTimer (snd (exec code w s)) = false.
Proof.
  intros code w s. unfold exec. destruct (process s) as [h|] eqn:Ps.
  - intros H. apply (executeCommand_timer code w (resetInactivityTimer s)); [|exact H].
    right. reflexivity.
  - pose proof (start_error_cases (lazyStart w) s) as Hs.
    destruct (start_spec (lazyStart w) s) as (es & C & _).
    destruct (start (lazyStart w) s) as [started s1]. simpl in Hs, C.
    destruct (success started) eqn:Sr; simpl.
    + intros H.
      apply (executeCommand_timer code w (resetInactivityTimer s1));
        [right; reflexivity|].
      simpl. rewrite C. exact H.
    + unfold is_timeout_report, timed_out_message, restarted_message.
      destruct Hs as [Hs|[Hs|[(err & Hs)|Hs]]]; [discriminate|..];
        rewrite Hs; intros [H|H]; discriminate H.
Qed.

Lemma timed_out_call_leaves_timer_off_witness :
  is_timeout_report (config ready_session)
    (fst (exec (fst slow_query) (snd slow_query) ready_session))
  /\ process (snd (exec (fst slow_query) (snd slow_query) ready_session)) = Some 1%nat
  /\ inactivityTimer (snd (exec (fst slow_query) (snd slow_query) ready_session)) = false.
Proof.
  assert (is_timeout_report (config ready_session)
            (fst (exec (fst slow_query) (snd slow_query) ready_session))) as H
    by (right; reflexivity).
  split; [exact H|split; [reflexivity|]].
  apply (timed_out_call_leaves_timer_off (fst slow_query) (snd slow_query) ready_session).
  exact H.
Defined.

(** ** Counting the spawns *)

Lemma executeCommand_spawned code w s :
  (spawned s <= spawned (snd (executeCommand code w s)) <= S (spawned s))%nat
  /\ (is_command_outcome (fst (executeCommand code w s)) ->
      spawned (snd (executeCommand code w s)) = spawned s).
Proof.
  unfold is_command_outcome, ruby_error, executeCommand.
  destruct (process s) as [h|] eqn:Ps; [|simpl; split; [lia|reflexivity]].
  pose proof (await_command_quiet h code w s) as (ks & _ & _ & N & _).
  destruct (await_command h code w s) as [completed s2]. simpl in *.
  destruct completed; simpl; [split; [lia|intros _; exact N]|].
  destruct (kill_quiet s2) as (_ & _ & N' & _).
  destruct (hasRestarted (kill s2)); simpl.
  - split; [lia|]. intros [H|H]; discriminate H.
  - pose proof (start_spawned (restart w) (with_hasRestarted true (kill s2))) as Ns.
    destruct (start (restart w) (with_hasRestarted true (kill s2))) as [restarted s5].
    simpl in *. destruct (success restarted); simpl;
      (split; [lia|intros [H|H]; discriminate H]).
Qed.

(** A call spawns at most two consoles, the lazy start and the restart;
    on a session that holds a handle at most one; and none at all when it
    returns the outcome of a command: a session that is up is reused. *)
Theorem exec_spawn_count :
  forall code w s,
    (spawned s <= spawned (snd (exec code w s)) <= spawned s + 2)%nat
    /\ (process s <> None ->
        (spawned (snd (exec code w s)) <= spawned s + 1)%nat
        /\ (is_command_outcome (fst (exec code w s)) ->
            spawned (snd (exec code w s)) = spawned s)).
Proof.
  intros code w s. unfold exec. destruct (process s) as [h|] eqn:Ps.
  - destruct (executeCommand_spawned code w (resetInactivityTimer s)) as [B E].
    simpl in B, E. split; [lia|]. intros _. split; [lia|exact E].
  - split; [|congruence].
    pose proof (start_spawned (lazyStart w) s) as Ns.
    destruct (start (lazyStart w) s) as [started s1]. simpl in Ns.
    destruct (success started); simpl; [|lia].
    destruct (executeCommand_spawned code w (resetInactivityTimer s1)) as [B _].
    simpl in B. lia.
Qed.

Lemma exec_spawn_count_witness :
  process ready_session <> None
  /\ is_command_outcome (fst (exec (js "x * 2") doubles ready_session))
  /\ spawned (snd (exec (js "x * 2") doubles ready_session)) = spawned ready_session.
Proof.
  assert (process ready_session <> None) as Hp by discriminate.
  assert (is_command_outcome (fst (exec (js "x * 2") doubles ready_session))) as H
    by (left; reflexivity).
  split; [exact Hp|split; [exact H|]].
  apply (proj2 (proj2 (exec_spawn_count (js "x * 2") doubles ready_session) Hp)). exact H.
Defined.

(** ** Handles, spawns and the trace *)

Lemma holder_from_app a : forall cur b,
  holder_from cur (a ++ b) = holder_from (holder_from cur a) b.
Proof. induction a as [|e a IH]; intros cur b; [reflexivity|]. destruct e; simpl; apply IH. Qed.

Lemma aimed_from_app a : forall cur b,
  aimed_from cur (a ++ b) = (aimed_from cur a && aimed_from (holder_from cur a) b)%bool.
Proof.
  induction a as [|e a IH]; intros cur b; [reflexivity|].
  destruct e; simpl; rewrite IH; try reflexivity; rewrite andb_assoc; reflexivity.
Qed.

Lemma spawns_of_app a b : spawns_of (a ++ b) = spawns_of a ++ spawns_of b.
Proof.
  induction a as [|e a IH]; [reflexivity|]. destruct e; simpl; rewrite IH; reflexivity.
Qed.

Lemma coherent_frame s s' :
  process s' = process s -> spawned s' = spawned s -> trace s' = trace s ->
  coherent s -> coherent s'.
Proof. unfold coherent. intros -> -> ->. auto. Qed.

Lemma coherent_drop s s' :
  process s' = None -> spawned s' = spawned s -> trace s' = trace s ->
  coherent s -> coherent s'.
Proof.
  unfold coherent. intros -> -> -> (A & _ & S). repeat split; auto; discriminate.
Qed.

Lemma coherent_kill s s' h :
  process s = Some h ->
  process s' = None -> spawned s' = spawned s -> trace s' = trace s ++ [Kill h] ->
  coherent s -> coherent s'.
Proof.
  unfold coherent. intros Ps -> -> -> (A & P & S).
  destruct (P h Ps) as [Hh _].
  rewrite aimed_from_app, spawns_of_app, A, Hh. simpl.
  rewrite Nat.eqb_refl, app_nil_r. repeat split; auto; discriminate.
Qed.

Lemma coherent_write s s' h d :
  process s = Some h ->
  process s' = Some h -> spawned s' = spawned s -> trace s' = trace s ++ [Write h d] ->
  coherent s -> coherent s'.
Proof.
  unfold coherent. intros Ps -> -> -> (A & P & S).
  destruct (P h Ps) as [Hh Hn].
  rewrite aimed_from_app, spawns_of_app, holder_from_app, A, Hh. simpl.
  rewrite Nat.eqb_refl, app_nil_r. repeat split; auto; congruence.
Qed.

Lemma coherent_spawn s s' cmd args :
  process s' = Some (spawned s) -> spawned s' = S (spawned s) ->
  trace s' = trace s ++ [Spawn (spawned s) cmd args] ->
  coherent s -> coherent s'.
Proof.
  unfold coherent. intros -> -> -> (A & P & S).
  rewrite aimed_from_app, spawns_of_app, holder_from_app, A, S, seq_S. simpl.
  repeat split; auto; congruence.
Qed.

Lemma kill_coherent s : coherent s -> coherent (kill s).
Proof.
  intros H. unfold kill. destruct (inactivityTimer s); simpl;
    destruct (process s) as [h|] eqn:Ps.
  - apply (coherent_kill s _ h Ps); [reflexivity..|exact H].
  - apply (coherent_frame s); [reflexivity..|exact H].
  - apply (coherent_kill s _ h Ps); [reflexivity..|exact H].
  - exact H.
Qed.

Lemma deliver_coherent e s : coherent s -> coherent (deliver e s).
Proof.
  intros H. destruct e; simpl.
  - apply (coherent_frame s); [reflexivity..|exact H].
  - exact H.
  - apply (coherent_drop s); [reflexivity..|exact H].
  - destruct (inactivityTimer s); [apply kill_coherent|]; exact H.
Qed.

Lemma deliver_all_coherent es : forall s, coherent s -> coherent (deliver_all es s).
Proof.
  unfold deliver_all. induction es as [|e es IH]; intros s H; simpl; [exact H|].
  apply IH, deliver_coherent, H.
Qed.

Lemma poll_loop_coherent t polls : forall s,
  coherent s -> coherent (snd (poll_loop t polls s)).
Proof.
  induction polls as [|p polls IH]; intros s H; simpl; [exact H|].
  pose proof (deliver_all_coherent (arrived p) s H) as H'.
  destruct (isComplete _); [exact H'|].
  destruct (_ >? _); [exact H'|]. destruct (negb _); [exact H'|]. apply IH, H'.
Qed.

Lemma waitForPrompt_coherent t polls s :
  coherent s -> coherent (snd (waitForPrompt t polls s)).
Proof.
  intros H. unfold waitForPrompt.
  destruct (isComplete _); [exact H|].
  destruct (_ >? _); [exact H|]. destruct (negb _); [exact H|].
  apply poll_loop_coherent, H.
Qed.

Lemma start_coherent w s : coherent s -> coherent (snd (start w s)).
Proof.
  intros H. unfold start.
  destruct (buildSpawnArgs _ _) as [[cmd args]|]; [|exact H].
  destruct (spawnFault w); [exact H|].
  match goal with |- context [waitForPrompt ?t ?ps ?s1] =>
    assert (coherent s1) as H1
      by (apply (coherent_spawn s _ cmd args); [reflexivity..|exact H]);
    pose proof (waitForPrompt_coherent t ps s1 H1) as Q;
    destruct (waitForPrompt t ps s1) as [ready s2] end.
  simpl in Q. destruct ready; simpl; [|apply kill_coherent, Q].
  apply (coherent_frame s2); [reflexivity..|exact Q].
Qed.

Lemma executeCommand_coherent code w s :
  coherent s -> coherent (snd (executeCommand code w s)).
Proof.
  intros H. unfold executeCommand. destruct (process s) as [h|] eqn:Ps; [|exact H].
  assert (coherent (snd (await_command h code w s))) as Q.
  { unfold await_command. apply waitForPrompt_coherent.
    apply (coherent_write s _ h (code ++ [NL]) Ps); [exact Ps|reflexivity..|exact H]. }
  destruct (await_command h code w s) as [completed s2]. simpl in Q.
  destruct completed; simpl; [exact Q|].
  pose proof (kill_coherent s2 Q) as K.
  destruct (hasRestarted (kill s2)); simpl; [exact K|].
  assert (coherent (with_hasRestarted true (kill s2))) as K'
    by (apply (coherent_frame (kill s2)); [reflexivity..|exact K]).
  pose proof (start_coherent (restart w) _ K') as St.
  destruct (start (restart w) (with_hasRestarted true (kill s2))) as [restarted s5].
  simpl in St. destruct (success restarted); exact St.
Qed.

Lemma exec_coherent code w s : coherent s -> coherent (snd (exec code w s)).
Proof.
  intros H. unfold exec. destruct (process s) as [h|] eqn:Ps.
  - apply executeCommand_coherent.
    apply (coherent_frame s); [reflexivity..|exact H].
  - pose proof (start_coherent (lazyStart w) s H) as St.
    destruct (start (lazyStart w) s) as [started s1]. simpl in St.
    destruct (success started); simpl; [|exact St].
    apply executeCommand_coherent.
    apply (coherent_frame s1); [reflexivity..|exact St].
Qed.

Lemma override_frame req s :
  process (override req s) = process s /\ spawned (override req s) = spawned s
  /\ trace (override req s) = trace s /\ hasRestarted (override req s) = hasRestarted s.
Proof.
  unfold override. destruct (timeout req); [|auto].
  destruct (truthy_number _); simpl; auto.
Qed.

Lemma handler_config req w s : config (snd (handler req w s)) = config s.
Proof.
  unfold handler. destruct (negb _); [reflexivity|].
  rewrite override_cases.
  match goal with |- context [exec ?c ?w ?s1] =>
    pose proof (exec_config c w s1) as C; destruct (exec c w s1) as [result s2] end.
  simpl in *. rewrite C. apply set_commandTimeout_back.
Qed.

Lemma handler_coherent req w s :
  coherent s /\ live_is_fresh s ->
  coherent (snd (handler req w s)) /\ live_is_fresh (snd (handler req w s)).
Proof.
  intros [H F]. unfold handler. destruct (negb _); [simpl; auto|].
  destruct (override_frame req s) as (P & N & T & R).
  assert (coherent (override req s)) as H1
    by (apply (coherent_frame s); assumption).
  assert (live_is_fresh (override req s)) as F1
    by (unfold live_is_fresh in *; rewrite P, R; exact F).
  pose proof (exec_coherent (code req) w _ H1) as H2.
  pose proof (exec_keeps_live_fresh (code req) w _ F1) as F2.
  destruct (exec (code req) w (override req s)) as [result s2]. simpl in *.
  split; [apply (coherent_frame s2); [reflexivity..|exact H2]|exact F2].
Qed.

Lemma kill_keeps_live_fresh s : live_is_fresh (kill s).
Proof. unfold live_is_fresh. rewrite kill_process. congruence. Qed.

(** ** The tool-call handler *)

Lemma str_eqb_eq a : forall b, str_eqb a b = true <-> a = b.
Proof.
  induction a as [|x a IH]; destruct b as [|y b]; simpl; split; try discriminate; auto.
  - intros H. apply andb_true_iff in H as [Hx H].
    apply code_eqb_eq in Hx. apply IH in H. congruence.
  - intros H. inversion H; subst. apply andb_true_iff. split.
    + apply code_eqb_eq. reflexivity.
    + apply IH. reflexivity.
Qed.

Lemma executeCommand_error_nonempty code w s e :
  error (fst (executeCommand code w s)) = Some e -> e <> [].
Proof.
  unfold executeCommand. destruct (process s); [|simpl; intros H; inversion H; discriminate].
  destruct (await_command _ _ _ _) as [[|] s2]; simpl.
  - destruct (hasError _); simpl; intros H; inversion H; discriminate.
  - destruct (hasRestarted (kill s2)); simpl;
      [intros H; inversion H; discriminate|].
    destruct (start _ _) as [restarted s5]. destruct (success restarted); simpl;
      intros H; inversion H; discriminate.
Qed.

Lemma exec_error_nonempty code w s e :
  error (fst (exec code w s)) = Some e -> e <> [].
Proof.
  unfold exec. destruct (process s); [apply executeCommand_error_nonempty|].
  pose proof (start_error_cases (lazyStart w) s) as Hs.
  destruct (start (lazyStart w) s) as [started s1]. simpl in Hs.
  destruct (success started) eqn:Sr; simpl; [apply executeCommand_error_nonempty|].
  destruct Hs as [Hs|[Hs|[(err & Hs)|Hs]]]; [discriminate|..];
    rewrite Hs; intros H; inversion H; discriminate.
Qed.

(** What the tool answers: the output alone when the call succeeded, and
    otherwise [Error: ], the error text, an empty line and the output. *)
Theorem handler_response_format :
  forall req w s,
    name req = js "rails_console_exec" ->
    let r := fst (exec (code req) w (override req s)) in
    (success r = true -> fst (handler req w s) = inr (output r))
    /\ (success r = false ->
        exists e, error r = Some e /\ e <> []
                  /\ fst (handler req w s)
                     = inr (js "Error: " ++ e ++ [NL; NL] ++ output r)).
Proof.
  intros req w s Hn. cbv zeta. unfold handler.
  rewrite Hn, str_eqb_refl. simpl negb. cbv iota.
  destruct (exec_spec (code req) w (override req s)) as (es & _ & _ & WF & _).
  pose proof (exec_error_nonempty (code req) w (override req s)) as Hne.
  destruct (exec (code req) w (override req s)) as [r s2]. simpl in *.
  unfold response_text, truthy_string. split.
  - intros Hs. destruct (error r) as [e|] eqn:E; [|reflexivity].
    exfalso. assert (success r = false) by (apply WF; discriminate). congruence.
  - intros Hs. destruct (error r) as [e|] eqn:E.
    + exists e. pose proof (Hne e eq_refl) as Hn'. destruct e; [congruence|]. auto.
    + exfalso. apply WF in Hs. congruence.
Qed.

Lemma handler_response_format_witness :
  name short_timeout_request = js "rails_console_exec"
  /\ success (fst (exec (code short_timeout_request) hangs_6s
                     (override short_timeout_request ready_session))) = false
  /\ exists e,
       error (fst (exec (code short_timeout_request) hangs_6s
                     (override short_timeout_request ready_session))) = Some e
       /\ e <> []
       /\ fst (handler short_timeout_request hangs_6s ready_session)
          = inr (js "Error: " ++ e ++ [NL; NL]
                 ++ output (fst (exec (code short_timeout_request) hangs_6s
                                   (override short_timeout_request ready_session)))).
Proof.
  split; [reflexivity|split; [reflexivity|]].
  apply (proj2 (handler_response_format short_timeout_request hangs_6s ready_session
                  eq_refl)).
  reflexivity.
Defined.

(** A call of any other tool is refused before the session is touched:
    the handler throws and the state is the one it found. *)
Theorem handler_refuses_other_tools :
  forall req w s,
    name req <> js "rails_console_exec" ->
    handler req w s = (inl (js "Unknown tool: " ++ name req), s).
Proof.
  intros req w s Hn. unfold handler.
  destruct (str_eqb (name req) (js "rails_console_exec")) eqn:E; [|reflexivity].
  apply str_eqb_eq in E. contradiction.
Qed.

Lemma handler_refuses_other_tools_witness :
  name (mkRequest (js "rails_console_reset") [] None) <> js "rails_console_exec"
  /\ handler (mkRequest (js "rails_console_reset") [] None) doubles ready_session
     = (inl (js "Unknown tool: " ++ js "rails_console_reset"), ready_session).
Proof.
  assert (name (mkRequest (js "rails_console_reset") [] None) <> js "rails_console_exec")
    as Hn by discriminate.
  split; [exact Hn|].
  apply (handler_refuses_other_tools (mkRequest (js "rails_console_reset") [] None)
           doubles ready_session Hn).
Defined.

(** ** The configuration from the environment *)

Lemma js_String a t : js (String a t) = N_of_ascii a :: js t.
Proof. reflexivity. Qed.

Lemma uint_digits u : forallb is_digit (js (NilEmpty.string_of_uint u)) = true.
Proof.
  induction u; cbn [NilEmpty.string_of_uint]; rewrite ?js_String; cbn [forallb];
    try rewrite IHu; reflexivity.
Qed.

Lemma uint_fold u : forall acc,
  fold_left (fun acc c => 10 * acc + (Z.of_N c - 48)) (js (NilEmpty.string_of_uint u)) acc
  = uint_value u acc.
Proof.
  induction u; intros acc; cbn [NilEmpty.string_of_uint uint_value];
    rewrite ?js_String; cbn [fold_left]; try rewrite IHu; try reflexivity;
    f_equal;
    match goal with |- context [Z.of_N (N_of_ascii ?a)] =>
      let v := eval vm_compute in (Z.of_N (N_of_ascii a)) in
      change (Z.of_N (N_of_ascii a)) with v end;
    lia.
Qed.

Lemma of_uint_acc_value l : forall acc,
  Z.pos (Pos.of_uint_acc l acc) = uint_value l (Z.pos acc).
Proof.
  induction l; intros acc; cbn [Pos.of_uint_acc uint_value]; try rewrite IHl;
    try reflexivity; f_equal; lia.
Qed.

Lemma of_uint_value d : Z.of_N (Pos.of_uint d) = uint_value d 0.
Proof.
  induction d; cbn [Pos.of_uint uint_value]; try exact IHd; try reflexivity;
    cbn [Z.of_N]; rewrite of_uint_acc_value; reflexivity.
Qed.

Lemma to_uint_not_Nil n : N.to_uint n <> Decimal.Nil.
Proof.
  destruct n; [discriminate|]. apply DecimalPos.Unsigned.to_uint_nonnil.
Qed.

Lemma digits_unfold n :
  0 <= n -> digits n = js (NilEmpty.string_of_uint (N.to_uint (Z.to_N n))).
Proof.
  intros _. unfold digits, NilZero.string_of_uint.
  destruct (N.to_uint (Z.to_N n)) eqn:E; try reflexivity.
  exfalso. apply (to_uint_not_Nil (Z.to_N n)). exact E.
Qed.

Lemma digits_are_digits n : 0 <= n -> forallb is_digit (digits n) = true.
Proof. intros H. rewrite digits_unfold by exact H. apply uint_digits. Qed.

Lemma digits_not_empty n : 0 <= n -> digits n <> [].
Proof.
  intros H. rewrite digits_unfold by exact H.
  pose proof (to_uint_not_Nil (Z.to_N n)) as Hn.
  destruct (N.to_uint (Z.to_N n)); try congruence; discriminate.
Qed.

Lemma digits_value n : 0 <= n -> decimal_value (digits n) = n.
Proof.
  intros H. unfold decimal_value. rewrite digits_unfold, uint_fold by exact H.
  rewrite <- of_uint_value.
  change (Pos.of_uint (N.to_uint (Z.to_N n))) with (N.of_uint (N.to_uint (Z.to_N n))).
  rewrite DecimalN.Unsigned.of_to. lia.
Qed.

Lemma leading_digits_run ds : forall rest,
  forallb is_digit ds = true -> stops_number rest ->
  leading_digits (ds ++ rest) = ds.
Proof.
  induction ds as [|c ds IH]; intros rest Hd Hr.
  - simpl. destruct Hr as [->|(c & r & -> & Hc)]; [reflexivity|].
    simpl. rewrite Hc. reflexivity.
  - cbn [forallb] in Hd. apply andb_true_iff in Hd as [Hc Hd].
    cbn [app leading_digits]. rewrite Hc, IH by assumption. reflexivity.
Qed.

Lemma digit_is_plain c :
  is_digit c = true ->
  isTrimmed c = false /\ code_eqb c (ch "-") = false /\ code_eqb c (ch "+") = false.
Proof.
  unfold is_digit, in_range, isTrimmed, isWhiteSpace, isLineTerminator, in_range, code_eqb.
  change (ch "-") with 45%N. change (ch "+") with 43%N.
  intros H. apply andb_true_iff in H as [H1 H2]. apply N.leb_le in H1, H2.
  repeat split; rewrite ?orb_false_iff, ?andb_false_iff, ?N.eqb_neq, ?N.leb_gt;
    repeat split; lia.
Qed.

(** [parseInt] on a decimal numeral: leading white space is skipped, what
    follows the digits is ignored, and a minus sign negates. *)
Lemma parseInt_decimal ws n rest :
  forallb isTrimmed ws = true -> 0 <= n -> stops_number rest ->
  parseInt (ws ++ digits n ++ rest) = Some n
  /\ parseInt (ws ++ ch "-" :: digits n ++ rest) = Some (- n).
Proof.
  intros Hw Hn Hr.
  pose proof (digits_are_digits n Hn) as Hd.
  pose proof (digits_not_empty n Hn) as Hne.
  pose proof (digits_value n Hn) as Hv.
  unfold parseInt. split.
  - rewrite !trimStart_app_ws by exact Hw.
    destruct (digits n) as [|c ds] eqn:E; [congruence|].
    cbn [forallb] in Hd. apply andb_true_iff in Hd as [Hc Hd].
    destruct (digit_is_plain c Hc) as (Ht & Hm & Hp).
    cbn [app]. rewrite trimStart_keep by exact Ht. rewrite Hm, Hp.
    change (c :: ds ++ rest) with ((c :: ds) ++ rest).
    rewrite leading_digits_run; [|cbn [forallb]; rewrite Hc, Hd; reflexivity|exact Hr].
    rewrite Hv. f_equal. lia.
  - rewrite !trimStart_app_ws by exact Hw.
    rewrite trimStart_keep by reflexivity.
    change (code_eqb (ch "-") (ch "-")) with true. cbv iota.
    rewrite leading_digits_run by assumption.
    destruct (digits n) as [|c ds] eqn:E; [congruence|]. rewrite Hv. f_equal; lia.
Qed.

Lemma parseInt_no_number ws t :
  forallb isTrimmed ws = true -> t = [] \/ starts_no_number t ->
  parseInt (ws ++ t) = None.
Proof.
  intros Hw Ht. unfold parseInt. rewrite trimStart_app_ws by exact Hw.
  destruct Ht as [->|(c & r & -> & Hc & Hd & Hm & Hp)]; [reflexivity|].
  rewrite trimStart_keep by exact Hc. rewrite Hm, Hp. simpl. rewrite Hd. reflexivity.
Qed.

Lemma or_default_blank env v d : blank env -> or_default (env v) d = d.
Proof. intros H. destruct (H v) as [E|E]; rewrite E; reflexivity. Qed.

Lemma or_default_set v d : v <> [] -> or_default (Some v) d = v.
Proof. destruct v; [congruence|reflexivity]. Qed.

(** With no variable set, or with the variables set to the empty string,
    the configuration is the documented default: docker mode, container
    [web], namespace [default], 60 s per command, 2 h of inactivity, 1 MiB
    of output. *)
Theorem loadConfig_defaults :
  forall env, blank env -> checked (loadConfig env) = Some cfg0.
Proof.
  intros env H. unfold loadConfig. rewrite !(or_default_blank env) by exact H.
  reflexivity.
Qed.

Lemma loadConfig_defaults_witness :
  blank (fun _ => Some []) /\ checked (loadConfig (fun _ => Some [])) = Some cfg0.
Proof.
  assert (blank (fun _ => Some [])) as H by (intros v; right; reflexivity).
  split; [exact H|]. apply (loadConfig_defaults (fun _ => Some []) H).
Defined.

Lemma numeral_not_empty ws n rest : 0 <= n -> ws ++ digits n ++ rest <> [].
Proof.
  intros Hn E. apply app_eq_nil in E as [_ E]. apply app_eq_nil in E as [E _].
  exact (digits_not_empty n Hn E).
Qed.

(** A numeric variable set to a decimal numeral below 2^53, with or
    without white space before it and other text after it, gives that
    number; in particular [0] is read as 0 and not replaced by the
    default. *)
Theorem loadConfig_reads_numbers :
  forall env ws n rest,
    forallb isTrimmed ws = true -> 0 <= n < 2 ^ 53 -> stops_number rest ->
    (env (js "RAILS_MCP_COMMAND_TIMEOUT") = Some (ws ++ digits n ++ rest) ->
     Loaded.commandTimeout (loadConfig env) = Some n)
    /\ (env (js "RAILS_MCP_INACTIVITY_TIMEOUT") = Some (ws ++ digits n ++ rest) ->
        Loaded.inactivityTimeout (loadConfig env) = Some n)
    /\ (env (js "RAILS_MCP_MAX_OUTPUT") = Some (ws ++ digits n ++ rest) ->
        Loaded.maxOutput (loadConfig env) = Some n).
Proof.
  intros env ws n rest Hw [Hn _] Hr.
  destruct (parseInt_decimal ws n rest Hw Hn Hr) as [Hp _].
  pose proof (numeral_not_empty ws n rest Hn) as Hne.
  unfold loadConfig. cbn [Loaded.commandTimeout Loaded.inactivityTimeout Loaded.maxOutput].
  split; [|split]; intros E; rewrite E, or_default_set by exact Hne; exact Hp.
Qed.

Lemma loadConfig_reads_numbers_witness :
  let env : Env := fun v => if str_eqb v (js "RAILS_MCP_MAX_OUTPUT")
                            then Some (js "0") else None in
  forallb isTrimmed [] = true /\ 0 <= 0 < 2 ^ 53 /\ stops_number []
  /\ env (js "RAILS_MCP_MAX_OUTPUT") = Some ([] ++ digits 0 ++ [])
  /\ Loaded.maxOutput (loadConfig env) = Some 0.
Proof.
  cbv zeta.
  assert (0 <= 0 < 2 ^ 53) as Hn by (split; [discriminate|reflexivity]).
  assert (stops_number []) as Hr by (left; reflexivity).
  split; [reflexivity|split; [exact Hn|split; [exact Hr|split; [reflexivity|]]]].
  apply (proj2 (proj2 (loadConfig_reads_numbers
                         (fun v => if str_eqb v (js "RAILS_MCP_MAX_OUTPUT")
                                   then Some (js "0") else None)
                         [] 0 [] eq_refl Hn Hr))).
  reflexivity.
Defined.

(** A numeric variable set to a text with which no integer begins is not
    replaced by the default: the number is [NaN], and the configuration is
    none that the session is specified for. *)
Theorem loadConfig_bad_number_is_NaN :
  forall env ws t,
    forallb isTrimmed ws = true -> starts_no_number t ->
    (env (js "RAILS_MCP_COMMAND_TIMEOUT") = Some (ws ++ t) ->
     Loaded.commandTimeout (loadConfig env) = None /\ checked (loadConfig env) = None)
    /\ (env (js "RAILS_MCP_INACTIVITY_TIMEOUT") = Some (ws ++ t) ->
        Loaded.inactivityTimeout (loadConfig env) = None
        /\ checked (loadConfig env) = None)
    /\ (env (js "RAILS_MCP_MAX_OUTPUT") = Some (ws ++ t) ->
        Loaded.maxOutput (loadConfig env) = None /\ checked (loadConfig env) = None).
Proof.
  intros env ws t Hw Ht.
  pose proof (parseInt_no_number ws t Hw (or_intror Ht)) as Hp.
  assert (ws ++ t <> []) as Hne.
  { destruct Ht as (c & r & -> & _). intros E. apply app_eq_nil in E as [_ E]. discriminate. }
  unfold checked, loadConfig.
  cbn [Loaded.mode Loaded.commandTimeout Loaded.inactivityTimeout Loaded.maxOutput].
  split; [|split]; intros E; rewrite E, or_default_set by exact Hne; rewrite ?Hp;
    (split; [reflexivity|]);
    repeat match goal with |- context [match ?x with _ => _ end] => destruct x end;
    reflexivity.
Qed.

Lemma loadConfig_bad_number_is_NaN_witness :
  let env : Env := fun v => if str_eqb v (js "RAILS_MCP_COMMAND_TIMEOUT")
                            then Some (js "one minute") else None in
  forallb isTrimmed [] = true /\ starts_no_number (js "one minute")
  /\ env (js "RAILS_MCP_COMMAND_TIMEOUT") = Some ([] ++ js "one minute")
  /\ Loaded.commandTimeout (loadConfig env) = None
  /\ checked (loadConfig env) = None.
Proof.
  cbv zeta.
  assert (starts_no_number (js "one minute")) as Ht.
  { exists (ch "o"), (js "ne minute"). repeat split; reflexivity. }
  split; [reflexivity|split; [exact Ht|split; [reflexivity|]]].
  apply (proj1 (loadConfig_bad_number_is_NaN
                  (fun v => if str_eqb v (js "RAILS_MCP_COMMAND_TIMEOUT")
                            then Some (js "one minute") else None)
                  [] (js "one minute") eq_refl Ht)).
  reflexivity.
Defined.

(** ** The output of a completed command *)

Lemma trimStart_head : forall s c t, trimStart s = c :: t -> isTrimmed c = false.
Proof.
  induction s as [|x s IH]; intros c t; simpl; [discriminate|].
  destruct (isTrimmed x) eqn:E; [apply IH|]. intros H. inversion H; subst. exact E.
Qed.

Lemma trimStart_split s :
  exists ws, s = ws ++ trimStart s /\ forallb isTrimmed ws = true.
Proof.
  induction s as [|x s (ws & E & H)]; [exists []; auto|].
  simpl. destruct (isTrimmed x) eqn:Ex.
  - exists (x :: ws). simpl. rewrite Ex, H. split; [f_equal; exact E|reflexivity].
  - exists []. auto.
Qed.

Lemma trim_ends s :
  trim s = []
  \/ (isTrimmed (hd NL (trim s)) = false /\ isTrimmed (last (trim s) NL) = false).
Proof.
  unfold trim, trimEnd. destruct (trimStart s) as [|c x] eqn:Ex; [left; reflexivity|].
  right. pose proof (trimStart_head s c x Ex) as Hc.
  destruct (trimStart_split (rev (c :: x))) as (ws & E & Hws).
  destruct (trimStart (rev (c :: x))) as [|h t] eqn:Et.
  - exfalso. rewrite app_nil_r in E. simpl in E.
    assert (In c ws) as Hin by (rewrite <- E; apply in_or_app; right; left; reflexivity).
    rewrite forallb_forall in Hws. rewrite (Hws c Hin) in Hc. discriminate.
  - pose proof (trimStart_head _ h t Et) as Hh.
    destruct (exists_last (l := h :: t)) as (t' & l & El); [discriminate|].
    rewrite El in E. simpl in E. rewrite app_assoc in E.
    apply app_inj_tail in E as [_ E]. subst l.
    split.
    + rewrite El, rev_app_distr. simpl. exact Hc.
    + change (h :: t) with ([h] ++ t). rewrite rev_app_distr. simpl.
      rewrite last_last. exact Hh.
Qed.

Lemma executeCommand_outcome_trimmed code w s :
  is_command_outcome (fst (executeCommand code w s)) ->
  exists o, output (fst (executeCommand code w s)) = trim o.
Proof.
  unfold is_command_outcome, ruby_error, executeCommand.
  destruct (process s); [|simpl; intros [H|H]; discriminate H].
  destruct (await_command _ _ _ _) as [[|] s2]; simpl; [eauto|].
  destruct (hasRestarted (kill s2)); simpl; [intros [H|H]; discriminate H|].
  destruct (start _ _) as [restarted s5].
  destruct (success restarted); simpl; intros [H|H]; discriminate H.
Qed.

(** The output of a command that ran to its prompt, successful or not, is
    trimmed: it is empty, or it neither begins nor ends with white space
    or a line terminator. *)
Theorem completed_output_is_trimmed :
  forall code w s,
    is_command_outcome (fst (exec code w s)) ->
    output (fst (exec code w s)) = []
    \/ (isTrimmed (hd NL (output (fst (exec code w s)))) = false
        /\ isTrimmed (last (output (fst (exec code w s))) NL) = false).
Proof.
  intros code w s H.
  assert (exists o, output (fst (exec code w s)) = trim o) as (o & E).
  { revert H. unfold exec. destruct (process s);
      [apply executeCommand_outcome_trimmed|].
    pose proof (start_error_cases (lazyStart w) s) as Hs.
    destruct (start (lazyStart w) s) as [started s1]. simpl in Hs.
    destruct (success started) eqn:Sr; simpl; [apply executeCommand_outcome_trimmed|].
    unfold is_command_outcome, ruby_error.
    destruct Hs as [Hs|[Hs|[(err & Hs)|Hs]]]; [discriminate|..];
      rewrite Hs; intros [H|H]; discriminate H. }
  rewrite E. apply trim_ends.
Qed.

Lemma completed_output_is_trimmed_witness :
  is_command_outcome (fst (exec (js "x * 2") doubles ready_session))
  /\ (output (fst (exec (js "x * 2") doubles ready_session)) = []
      \/ (isTrimmed (hd NL (output (fst (exec (js "x * 2") doubles ready_session)))) = false
          /\ isTrimmed (last (output (fst (exec (js "x * 2") doubles ready_session))) NL)
             = false)).
Proof.
  assert (is_command_outcome (fst (exec (js "x * 2") doubles ready_session))) as H
    by (left; reflexivity).
  split; [exact H|].
  apply (completed_output_is_trimmed (js "x * 2") doubles ready_session H).
Defined.

(** * The server under overlapping calls *)

(** ** The halves of [executeCommand] *)

Lemma executeCommand_split code w s :
  executeCommand code w s
  = (command_end (fst (command_begin code w s)) (snd (command_begin code w s)),
     snd (command_begin code w s)).
Proof.
  unfold executeCommand, command_begin. destruct (process s) as [h|]; [|reflexivity].
  destruct (await_command h code w s) as [completed s2].
  destruct completed; simpl; [reflexivity|].
  destruct (hasRestarted (kill s2)); simpl; [reflexivity|].
  destruct (start (restart w) (with_hasRestarted true (kill s2))) as [restarted s5].
  simpl. destruct (success restarted); reflexivity.
Qed.

Lemma command_begin_state code w s :
  snd (command_begin code w s) = snd (executeCommand code w s).
Proof. rewrite executeCommand_split. reflexivity. Qed.

(** What the first half hands over. *)
Lemma command_begin_cases code w s :
  match process s with
  | None => command_begin code w s = (Resolved (failure [] (js "No active session")), s)
  | Some _ =>
      match fst (command_begin code w s) with
      | Resolved r => error r = None \/ error r = Some ruby_error
      | TimedOut _ => True
      end
  end.
Proof.
  unfold command_begin. destruct (process s) as [h|]; [|reflexivity].
  destruct (await_command h code w s) as [completed s2].
  destruct completed; simpl.
  - destruct (hasError _); [right|left]; reflexivity.
  - destruct (hasRestarted (kill s2)); simpl; [exact I|].
    destruct (start _ _) as [restarted s5]. exact I.
Qed.

Lemma command_end_timed_out b s :
  of_a_command (command_end (TimedOut b) s).
Proof.
  right. right. destruct b; simpl; unfold restarted_message, timed_out_message.
  - exists (seconds (commandTimeout (config s)) ++ js "s" ++ js ". Session restarted.").
    rewrite <- !app_assoc. reflexivity.
  - exists (seconds (commandTimeout (config s)) ++ js "s"). reflexivity.
Qed.

Lemma start_failure_cases w s :
  success (fst (start w s)) = false -> of_no_command (fst (start w s)).
Proof.
  unfold start, of_no_command.
  destruct (buildSpawnArgs _ _) as [[cmd args]|]; [|intros _; simpl; auto].
  destruct (spawnFault w) as [err|]; [intros _; simpl; eauto 6|].
  destruct (waitForPrompt _ _ _) as [ready s2].
  destruct ready; simpl; [discriminate|auto].
Qed.

(** ** The waits neither read nor write [commandTimeout] *)

Lemma deliver_retimed z e s :
  deliver e (write_commandTimeout z s) = write_commandTimeout z (deliver e s).
Proof.
  destruct e; simpl; try reflexivity.
  unfold kill. simpl. destruct (inactivityTimer s); simpl;
    destruct (process s); reflexivity.
Qed.

Lemma kill_retimed z s :
  kill (write_commandTimeout z s) = write_commandTimeout z (kill s).
Proof.
  unfold kill. simpl. destruct (inactivityTimer s); simpl;
    destruct (process s); reflexivity.
Qed.

Lemma deliver_all_retimed z es : forall s,
  deliver_all es (write_commandTimeout z s) = write_commandTimeout z (deliver_all es s).
Proof.
  unfold deliver_all. induction es as [|e es IH]; intros s; simpl; [reflexivity|].
  rewrite deliver_retimed. apply IH.
Qed.

Lemma poll_loop_retimed z t polls : forall s,
  poll_loop t polls (write_commandTimeout z s)
  = (fst (poll_loop t polls s), write_commandTimeout z (snd (poll_loop t polls s))).
Proof.
  induction polls as [|p polls IH]; intros s; simpl; [reflexivity|].
  rewrite deliver_all_retimed.
  change (buffer (write_commandTimeout z ?x)) with (buffer x).
  change (has_process (write_commandTimeout z ?x)) with (has_process x).
  destruct (isComplete _); [reflexivity|].
  destruct (_ >? _); [reflexivity|]. destruct (negb _); [reflexivity|]. apply IH.
Qed.

Lemma waitForPrompt_retimed z t polls s :
  waitForPrompt t polls (write_commandTimeout z s)
  = (fst (waitForPrompt t polls s), write_commandTimeout z (snd (waitForPrompt t polls s))).
Proof.
  unfold waitForPrompt.
  change (buffer (write_commandTimeout z s)) with (buffer s).
  change (has_process (write_commandTimeout z s)) with (has_process s).
  destruct (isComplete _); [reflexivity|].
  destruct (_ >? _); [reflexivity|]. destruct (negb _); [reflexivity|].
  apply poll_loop_retimed.
Qed.

Lemma start_retimed z w s :
  start w (write_commandTimeout z s)
  = (fst (start w s), write_commandTimeout z (snd (start w s))).
Proof.
  unfold start.
  change (buildSpawnArgs (config (write_commandTimeout z s)) (podQuery w))
    with (buildSpawnArgs (config s) (podQuery w)).
  destruct (buildSpawnArgs _ _) as [[cmd args]|]; [|reflexivity].
  destruct (spawnFault w); [reflexivity|].
  match goal with |- context [waitForPrompt ?t ?ps (with_buffer [] (with_process ?p
      (fresh_handle (emit ?e (write_commandTimeout z s))))) ] =>
    change (with_buffer [] (with_process p (fresh_handle (emit e (write_commandTimeout z s)))))
      with (write_commandTimeout z (with_buffer [] (with_process p (fresh_handle (emit e s)))))
  end.
  simpl mode.
  rewrite waitForPrompt_retimed.
  destruct (waitForPrompt _ _ _) as [ready s2]. simpl.
  destruct ready; [reflexivity|]. rewrite kill_retimed. reflexivity.
Qed.

(** ** Lists updated in place *)

Lemma update_length {A} (f : A -> A) : forall l i, length (update i f l) = length l.
Proof. induction l as [|x l IH]; intros [|i]; simpl; auto. Qed.

Lemma update_mid {A} (f : A -> A) x b : forall a,
  update (length a) f (a ++ x :: b) = a ++ f x :: b.
Proof. induction a as [|y a IH]; simpl; [reflexivity|]. rewrite IH. reflexivity. Qed.

Lemma update_left {A} (f : A -> A) b : forall a i,
  (i < length a)%nat -> update i f (a ++ b) = update i f a ++ b.
Proof.
  induction a as [|y a IH]; intros i Hi; simpl in Hi; [lia|].
  destruct i as [|i]; simpl; [reflexivity|]. rewrite IH by lia. reflexivity.
Qed.

Lemma update_beyond {A} (f : A -> A) : forall l i,
  (length l <= i)%nat -> update i f l = l.
Proof.
  induction l as [|x l IH]; intros i Hi; simpl in Hi; [reflexivity|].
  destruct i as [|i]; simpl; [lia|]. rewrite IH by lia. reflexivity.
Qed.

Lemma nth_error_update {A} (f : A -> A) : forall l i n,
  nth_error (update i f l) n
  = if Nat.eqb n i then option_map f (nth_error l n) else nth_error l n.
Proof.
  induction l as [|x l IH]; intros i n; simpl.
  - destruct n; destruct (Nat.eqb _ _); reflexivity.
  - destruct i as [|i]; destruct n as [|n]; simpl; try reflexivity. apply IH.
Qed.

Lemma forallb_update {A} (p : A -> bool) (f : A -> A) :
  (forall x, p x = true -> p (f x) = true) ->
  forall l i, forallb p l = true -> forallb p (update i f l) = true.
Proof.
  intros Hf. induction l as [|x l IH]; intros i H; simpl in *; [reflexivity|].
  apply andb_true_iff in H as [Hx Hl].
  destruct i as [|i]; simpl; apply andb_true_iff; auto.
Qed.

Lemma In_update {A} (f : A -> A) : forall l i y,
  In y (update i f l) -> In y l \/ exists x, In x l /\ y = f x.
Proof.
  induction l as [|x l IH]; intros i y H; simpl in *; [contradiction|].
  destruct i as [|i]; simpl in H.
  - destruct H as [H|H]; [right; exists x; auto|auto].
  - destruct H as [H|H]; [auto|].
    destruct (IH i y H) as [H'|(x' & Hx & E)]; [auto|right; exists x'; auto].
Qed.

(** ** The journal read from the left *)

Lemma scan_snoc j m : scan (j ++ [m]) = scan_step (scan j) m.
Proof. unfold scan. rewrite fold_left_app. reflexivity. Qed.

Lemma scan_stops : forall b, fold_left scan_step b None = None.
Proof. induction b as [|m b IH]; simpl; auto. Qed.

Lemma scan_prefix a b st :
  scan (a ++ b) = Some st -> exists st', scan a = Some st'.
Proof.
  unfold scan. rewrite fold_left_app.
  destruct (fold_left scan_step a (Some (0%nat, false))) as [st'|]; [eauto|].
  rewrite scan_stops. discriminate.
Qed.

Lemma scan_step_Wrote st i x st' :
  scan_step st (Wrote i x) = Some st' -> st = Some (i, false) /\ st' = (i, true).
Proof.
  destruct st as [[k [|]]|]; simpl; try discriminate.
  destruct (Nat.eqb i k) eqn:E; [|discriminate].
  apply Nat.eqb_eq in E. subst. intros H. inversion H. auto.
Qed.

Lemma scan_step_Finalized st i r st' :
  scan_step st (Finalized i r) = Some st' ->
  exists w, st = Some (i, w) /\ st' = (S i, false).
Proof.
  destruct st as [[k w]|]; simpl; [|discriminate].
  assert ((if Nat.eqb i k then Some (S k, false) else None) = Some st' ->
          exists w0, Some (k, w) = Some (i, w0) /\ st' = (S i, false)) as H.
  { destruct (Nat.eqb i k) eqn:E; [|discriminate].
    apply Nat.eqb_eq in E. subst. intros H. inversion H. eauto. }
  destruct w; exact H.
Qed.

Lemma writes_in_app a b : writes_in (a ++ b) = writes_in a ++ writes_in b.
Proof.
  induction a as [|m a IH]; [reflexivity|]. destruct m; simpl; rewrite IH; reflexivity.
Qed.

Lemma In_writes_in j : forall i x, In (i, x) (writes_in j) <-> In (Wrote i x) j.
Proof.
  induction j as [|m j IH]; intros i x; simpl; [tauto|].
  destruct m as [i' x'|i' r]; simpl; rewrite IH; split.
  - intros [H|H]; [inversion H; auto|auto].
  - intros [H|H]; [inversion H; auto|auto].
  - auto.
  - intros [H|H]; [discriminate|auto].
Qed.

Lemma increasing_snoc l k :
  increasing l -> (forall x, In x l -> (x < k)%nat) -> increasing (l ++ [k]).
Proof.
  intros Hl Hk p q x y Hpq Hp Hq.
  assert (q < length (l ++ [k]))%nat as Lq by (apply nth_error_Some; congruence).
  rewrite length_app in Lq. simpl in Lq.
  assert (p < length l)%nat as Lp by lia.
  rewrite nth_error_app1 in Hp by exact Lp.
  destruct (Nat.eq_dec q (length l)) as [->|Nq].
  - rewrite nth_error_app2, Nat.sub_diag in Hq by lia. simpl in Hq. inversion Hq; subst.
    apply Hk. eapply nth_error_In. exact Hp.
  - rewrite nth_error_app1 in Hq by lia. exact (Hl p q x y Hpq Hp Hq).
Qed.

Lemma scan_facts : forall j k w,
  scan j = Some (k, w) ->
  (forall i r, In (Finalized i r) j -> (i < k)%nat)
  /\ (forall i x, In (Wrote i x) j -> (i < k)%nat \/ (i = k /\ w = true))
  /\ (forall i, (i < k)%nat -> exists r, In (Finalized i r) j)
  /\ (w = true -> wrote k j)
  /\ increasing (map fst (writes_in j)).
Proof.
  induction j as [|m j IH] using rev_ind; intros k w H.
  - unfold scan in H. simpl in H. inversion H; subst.
    repeat split; try (intros; simpl in *; contradiction); try lia; try discriminate.
    intros p q x y _ Hp. destruct p; discriminate.
  - rewrite scan_snoc in H. destruct m as [i x|i r].
    + apply scan_step_Wrote in H as [Hj E]. inversion E; subst.
      destruct (IH _ _ Hj) as (F & W & A & _ & Inc).
      split; [|split; [|split; [|split]]].
      * intros i' r Hin. apply in_app_or in Hin as [Hin|[Hin|[]]]; [eauto|discriminate].
      * intros i' x' Hin. apply in_app_or in Hin as [Hin|[Hin|[]]].
        -- destruct (W _ _ Hin) as [L|[_ C]]; [auto|discriminate].
        -- inversion Hin; auto.
      * intros i' L. destruct (A i' L) as (r & Hr). exists r. apply in_or_app. auto.
      * intros _. exists x. apply in_or_app. right. left. reflexivity.
      * rewrite writes_in_app, map_app. simpl. apply increasing_snoc; [exact Inc|].
        intros y Hy. apply in_map_iff in Hy as ([i' x'] & <- & Hy).
        apply In_writes_in in Hy. destruct (W _ _ Hy) as [L|[_ C]]; [exact L|discriminate].
    + apply scan_step_Finalized in H as (w0 & Hj & E). inversion E; subst.
      destruct (IH _ _ Hj) as (F & W & A & _ & Inc).
      split; [|split; [|split; [|split]]].
      * intros i' r' Hin. apply in_app_or in Hin as [Hin|[Hin|[]]].
        -- specialize (F _ _ Hin). lia.
        -- inversion Hin. lia.
      * intros i' x' Hin. apply in_app_or in Hin as [Hin|[Hin|[]]]; [|discriminate].
        destruct (W _ _ Hin) as [L|[-> _]]; left; lia.
      * intros i' L. destruct (Nat.eq_dec i' i) as [->|N].
        -- exists r. apply in_or_app. right. left. reflexivity.
        -- destruct (A i' ltac:(lia)) as (r' & Hr). exists r'. apply in_or_app. auto.
      * discriminate.
      * rewrite writes_in_app, map_app. simpl. rewrite app_nil_r. exact Inc.
Qed.

Lemma scan_not_yet j k :
  scan j = Some (k, false) -> ~ wrote k j.
Proof.
  intros H (x & Hx). destruct (scan_facts _ _ _ H) as (_ & W & _).
  destruct (W _ _ Hx) as [L|[_ C]]; [lia|discriminate].
Qed.

(** ** The order of the calls *)

Lemma new_effects_app s s' es :
  trace s' = trace s ++ es -> new_effects s s' = es.
Proof.
  intros E. unfold new_effects. rewrite E, skipn_app, skipn_all, Nat.sub_diag. reflexivity.
Qed.

Lemma written_app i s s' es :
  trace s' = trace s ++ es -> written i s s' = map (Wrote i) (writes_of es).
Proof. intros E. unfold written. rewrite (new_effects_app s s' es E). reflexivity. Qed.

Lemma start_written i w s : written i s (snd (start w s)) = [].
Proof.
  destruct (start_spec w s) as (es & _ & T & W & _).
  rewrite (written_app i _ _ es T), W. reflexivity.
Qed.

Lemma command_begin_written i code w s :
  written i s (snd (command_begin code w s))
  = match process s with
    | Some h => [Wrote i (h, code ++ [NL])]
    | None => []
    end.
Proof.
  rewrite command_begin_state.
  destruct (executeCommand_spec code w s) as (es & _ & T & _ & Wn & Ws & _).
  rewrite (written_app i _ _ es T).
  destruct (process s) as [h|].
  - rewrite (Ws h eq_refl). reflexivity.
  - rewrite (Wn eq_refl). reflexivity.
Qed.

Lemma holder_is_current (cs done cur rest : list ToolCall) w i c :
  cs = done ++ cur ++ rest ->
  forallb is_finished done = true ->
  (length cur <= 1)%nat ->
  forallb is_queued rest = true ->
  nth_error cs i = Some c ->
  is_finished c = false -> is_queued c = false ->
  forallb (in_body w) cur = true ->
  i = length done /\ cur = [c] /\ in_body w c = true.
Proof.
  intros -> Hd Hc Hr Hn Nf Nq Hb.
  destruct (Nat.lt_ge_cases i (length done)) as [L|G].
  { rewrite nth_error_app1 in Hn by exact L. apply nth_error_In in Hn.
    rewrite forallb_forall in Hd. rewrite (Hd _ Hn) in Nf. discriminate. }
  rewrite nth_error_app2 in Hn by exact G.
  destruct cur as [|x [|y cur]]; simpl in Hc; try lia.
  - simpl in Hn. apply nth_error_In in Hn.
    rewrite forallb_forall in Hr. rewrite (Hr _ Hn) in Nq. discriminate.
  - destruct (i - length done)%nat as [|n] eqn:E; simpl in Hn.
    + inversion Hn; subst. simpl in Hb. rewrite andb_true_r in Hb.
      repeat split; auto. lia.
    + apply nth_error_In in Hn.
      rewrite forallb_forall in Hr. rewrite (Hr _ Hn) in Nq. discriminate.
Qed.

Lemma finished_is_done (cs done cur rest : list ToolCall) w i c :
  cs = done ++ cur ++ rest ->
  forallb (in_body w) cur = true ->
  forallb is_queued rest = true ->
  nth_error cs i = Some c ->
  is_finished c = true ->
  (i < length done)%nat.
Proof.
  intros -> Hb Hr Hn Hf.
  destruct (Nat.lt_ge_cases i (length done)) as [L|G]; [exact L|].
  rewrite nth_error_app2 in Hn by exact G. apply nth_error_In in Hn.
  apply in_app_or in Hn as [Hn|Hn].
  - rewrite forallb_forall in Hb. specialize (Hb _ Hn).
    unfold in_body, is_finished in *. destruct (stage c); discriminate.
  - rewrite forallb_forall in Hr. specialize (Hr _ Hn).
    unfold is_queued, is_finished in *. destruct (stage c); discriminate.
Qed.

Lemma scan_Finalized j k w r :
  scan j = Some (k, w) -> scan (j ++ [Finalized k r]) = Some (S k, false).
Proof.
  intros H. rewrite scan_snoc, H. simpl. rewrite Nat.eqb_refl. destruct w; reflexivity.
Qed.

Lemma scan_Wrote j k x :
  scan j = Some (k, false) -> scan (j ++ [Wrote k x]) = Some (k, true).
Proof. intros H. rewrite scan_snoc, H. simpl. rewrite Nat.eqb_refl. reflexivity. Qed.

Lemma finalize_orderly sv done c rest w r s j :
  calls sv = done ++ [c] ++ rest ->
  forallb is_finished done = true ->
  forallb is_queued rest = true ->
  waiters (mutex sv) = seq (length done + 1) (length rest) ->
  scan j = Some (length done, w) ->
  orderly (finalize (length done) r s j sv).
Proof.
  intros Hc Hd Hr Hw Hs. unfold finalize, release, set_stage.
  rewrite Hc. simpl app. rewrite update_mid.
  set (c' := restaged (Returned r) c).
  assert (forallb is_finished (done ++ [c']) = true) as Hd'
    by (rewrite forallb_app, Hd; reflexivity).
  assert (length (done ++ [c']) = S (length done)) as L
    by (rewrite length_app; simpl; lia).
  destruct rest as [|q rest]; rewrite Hw; simpl seq; cbv iota beta.
  - exists (done ++ [c']), [], [], false. simpl. rewrite L, app_nil_r.
    repeat split; auto. apply scan_Finalized with (w := w). exact Hs.
  - replace (done ++ c' :: q :: rest) with ((done ++ [c']) ++ q :: rest)
      by (rewrite <- app_assoc; reflexivity).
    replace (length done + 1)%nat with (length (done ++ [c'])) by lia.
    rewrite update_mid.
    exists (done ++ [c']), [restaged Granted q], rest, false.
    simpl in Hr. apply andb_true_iff in Hr as [_ Hr]. simpl.
    rewrite L. replace (S (length done) + 1)%nat with (S (S (length done))) by lia.
    repeat split; auto; try discriminate.
    apply scan_Finalized with (w := w). exact Hs.
Qed.

Lemma restage_orderly sv done c rest w st s j :
  calls sv = done ++ [c] ++ rest ->
  forallb is_finished done = true ->
  forallb is_queued rest = true ->
  locked (mutex sv) = true ->
  waiters (mutex sv) = seq (length done + 1) (length rest) ->
  scan j = Some (length done, w) ->
  in_body w (restaged st c) = true ->
  orderly (mkServer s (mutex sv) (set_stage (length done) st (calls sv)) j (halted sv)).
Proof.
  intros Hc Hd Hr Hl Hw Hs Hb. unfold set_stage. rewrite Hc. simpl app.
  rewrite update_mid.
  exists done, [restaged st c], rest, w. simpl.
  rewrite Hb. repeat split; auto; discriminate.
Qed.

Lemma orderly_same sv sv' :
  calls sv' = calls sv -> mutex sv' = mutex sv -> journal sv' = journal sv ->
  orderly sv -> orderly sv'.
Proof. unfold orderly. intros -> -> ->. auto. Qed.

Lemma current_of_locked (cur : list ToolCall) :
  (length cur <= 1)%nat -> negb (Nat.eqb (length cur) 0) = true -> exists c, cur = [c].
Proof. destruct cur as [|c [|d cur]]; simpl; try discriminate; try lia. eauto. Qed.

Lemma step_orderly l sv sv' :
  server_step l sv = Some sv' -> orderly sv -> orderly sv'.
Proof.
  intros H O. unfold server_step in H.
  destruct (halted sv) eqn:Hh; [discriminate|].
  destruct l as [req|i bw|i cw|i|i|e|].
  - (* Arrive *)
    destruct (negb (str_eqb (name req) (js "rails_console_exec")));
      [inversion H; subst; exact O|].
    destruct O as (done & cur & rest & w & Hc & Hd & Hb & Hl & Hr & Lk & Wt & Em & Sc).
    unfold acquire in H. rewrite Lk in H.
    destruct cur as [|c [|d cur]]; simpl in Hl; try lia; simpl in H;
      inversion H; subst; clear H.
    + destruct (Em eq_refl) as [-> ->].
      exists done, [mkToolCall req (commandTimeout (config (session sv))) Granted], [], false.
      simpl in *. rewrite Hc, !app_nil_r. repeat split; auto; discriminate.
    + exists done, [c],
        (rest ++ [mkToolCall req (commandTimeout (config (session sv))) Queued]), w.
      cbn [calls mutex journal locked waiters].
      split; [rewrite Hc, <- !app_assoc; reflexivity|].
      split; [exact Hd|]. split; [exact Hb|]. split; [simpl; lia|].
      split; [rewrite forallb_app, Hr; reflexivity|].
      split; [reflexivity|].
      split; [|split; [discriminate|exact Sc]].
      rewrite Wt, Hc, !length_app. cbn [length].
      rewrite (Nat.add_1_r (length rest)), seq_S. f_equal. f_equal. lia.
  - (* LazyStart *)
    destruct (nth_error (calls sv) i) as [c|] eqn:Hn; [|discriminate].
    destruct (stage c) eqn:St; try discriminate.
    destruct (process (session sv)) eqn:Ps; [discriminate|].
    destruct O as (done & cur & rest & w & Hc & Hd & Hb & Hl & Hr & Lk & Wt & Em & Sc).
    destruct (holder_is_current _ done cur rest w i c Hc Hd Hl Hr Hn) as (-> & -> & Hw);
      try (unfold is_finished, is_queued; rewrite St; reflexivity); [exact Hb|].
    unfold in_body in Hw. rewrite St in Hw. apply negb_true_iff in Hw. subst w.
    pose proof (start_written (length done) bw (session sv)) as Wr.
    destruct (start bw (session sv)) as [started s1]. simpl in Wr.
    rewrite Wr, app_nil_r in H.
    destruct (negb (success started)); inversion H; subst; clear H.
    + apply (finalize_orderly sv done c rest false started s1 (journal sv)); auto.
    + apply (restage_orderly sv done c rest false Started s1 (journal sv)); auto.
  - (* RunCommand *)
    destruct (nth_error (calls sv) i) as [c|] eqn:Hn; [|discriminate].
    destruct (ready_for_command (stage c) (process (session sv))) eqn:Rd; [|discriminate].
    destruct O as (done & cur & rest & w & Hc & Hd & Hb & Hl & Hr & Lk & Wt & Em & Sc).
    assert (is_finished c = false /\ is_queued c = false /\ (in_body w c = true -> w = false))
      as (Nf & Nq & Hcw).
    { unfold ready_for_command, is_finished, is_queued, in_body in *.
      destruct (stage c); try discriminate; repeat split; auto;
        intros E; apply negb_true_iff in E; exact E. }
    destruct (holder_is_current _ done cur rest w i c Hc Hd Hl Hr Hn Nf Nq Hb)
      as (-> & -> & Hw).
    specialize (Hcw Hw). subst w.
    pose proof (command_begin_written (length done) (code (request c)) cw
                  (resetInactivityTimer (session sv))) as Wr.
    pose proof (command_begin_cases (code (request c)) cw
                  (resetInactivityTimer (session sv))) as Cs.
    destruct (command_begin (code (request c)) cw (resetInactivityTimer (session sv)))
      as [p s1] eqn:Cb.
    simpl in Wr, Cs. rewrite Wr in H.
    destruct (process (session sv)) as [h|] eqn:Ps.
    + assert (scan (journal sv ++ [Wrote (length done) (h, code (request c) ++ [NL])])
              = Some (length done, true)) as Sc' by (apply scan_Wrote; exact Sc).
      destruct p as [r|b]; inversion H; subst; clear H.
      * apply (finalize_orderly sv done c rest true r s1 _); auto.
      * apply (restage_orderly sv done c rest true (Suspended b) s1 _); auto.
    + inversion Cs; subst. rewrite app_nil_r in H. inversion H; subst; clear H.
      apply (finalize_orderly sv done c rest false _ _ (journal sv)); auto.
  - (* Report *)
    destruct (nth_error (calls sv) i) as [c|] eqn:Hn; [|discriminate].
    destruct (stage c) eqn:St; try discriminate.
    inversion H; subst; clear H.
    destruct O as (done & cur & rest & w & Hc & Hd & Hb & Hl & Hr & Lk & Wt & Em & Sc).
    destruct (holder_is_current _ done cur rest w i c Hc Hd Hl Hr Hn) as (-> & -> & Hw);
      try (unfold is_finished, is_queued; rewrite St; reflexivity); [exact Hb|].
    apply (finalize_orderly sv done c rest w _ _ (journal sv)); auto.
  - (* Respond *)
    destruct (nth_error (calls sv) i) as [c|] eqn:Hn; [|discriminate].
    destruct (stage c) eqn:St; try discriminate.
    inversion H; subst; clear H.
    destruct O as (done & cur & rest & w & Hc & Hd & Hb & Hl & Hr & Lk & Wt & Em & Sc).
    assert (i < length done)%nat as L.
    { apply (finished_is_done _ done cur rest w i c Hc Hb Hr Hn).
      unfold is_finished. rewrite St. reflexivity. }
    exists (update i (restaged (Answered (response_text result))) done), cur, rest, w.
    simpl. unfold set_stage. rewrite Hc, update_left by exact L.
    rewrite update_length.
    split; [reflexivity|]. split; [apply forallb_update; [reflexivity|exact Hd]|].
    split; [exact Hb|]. split; [exact Hl|]. split; [exact Hr|]. split; [exact Lk|].
    split; [exact Wt|]. split; [exact Em|exact Sc].
  - (* Happen *)
    destruct (locked (mutex sv)); [discriminate|]. inversion H; subst; clear H.
    apply (orderly_same sv); auto.
  - (* Signal *)
    inversion H; subst; clear H. apply (orderly_same sv); auto.
Qed.

(** ** The journal and the trace *)

Lemma nth_error_set_stage i st cs n :
  nth_error (set_stage i st cs) n
  = if Nat.eqb n i then option_map (restaged st) (nth_error cs n) else nth_error cs n.
Proof. unfold set_stage. apply nth_error_update. Qed.

(** The calls after the body of call [i] has returned. *)
Lemma finalize_calls i r s j sv n tc :
  nth_error (calls sv) n = Some tc ->
  (forall m, In m (waiters (mutex sv)) -> (i < m)%nat) ->
  exists tc',
    nth_error (calls (finalize i r s j sv)) n = Some tc'
    /\ request tc' = request tc
    /\ (n = i -> stage tc' = Returned r)
    /\ ((n < i)%nat -> stage tc' = stage tc).
Proof.
  intros Hn Hw. unfold finalize, release.
  destruct (waiters (mutex sv)) as [|m ms]; simpl.
  - rewrite nth_error_set_stage, Hn. destruct (Nat.eqb n i) eqn:E; simpl.
    + eexists. split; [reflexivity|]. repeat split; auto.
      apply Nat.eqb_eq in E. lia.
    + apply Nat.eqb_neq in E. exists tc. repeat split; auto. contradiction.
  - specialize (Hw m (or_introl eq_refl)).
    rewrite !nth_error_set_stage, Hn.
    destruct (Nat.eqb_spec n m) as [Em|Em]; destruct (Nat.eqb_spec n i) as [Ei|Ei];
      simpl; eexists; (split; [reflexivity|]); simpl; repeat split; auto;
      try lia; try contradiction.
Qed.

Lemma finalize_journal i r s j sv : journal (finalize i r s j sv) = j ++ [Finalized i r].
Proof. unfold finalize. destruct (release (mutex sv)) as [next m]. reflexivity. Qed.

Lemma finalize_session i r s j sv : session (finalize i r s j sv) = s.
Proof. unfold finalize. destruct (release (mutex sv)) as [next m]. reflexivity. Qed.

Lemma orderly_waiters sv k w :
  orderly sv -> scan (journal sv) = Some (k, w) ->
  forall m, In m (waiters (mutex sv)) -> (k < m)%nat.
Proof.
  intros (done & cur & rest & w' & Hc & Hd & Hb & Hl & Hr & Lk & Wt & Em & Sc) H m Hm.
  rewrite Sc in H. inversion H; subst. rewrite Wt in Hm. apply in_seq in Hm.
  destruct cur as [|c cur]; [|simpl in Hm; lia].
  destruct (Em eq_refl) as [-> _]. simpl in Hm. lia.
Qed.

Lemma orderly_holder sv i c :
  orderly sv -> nth_error (calls sv) i = Some c -> holds_mutex c = true ->
  exists w, scan (journal sv) = Some (i, w) /\ in_body w c = true.
Proof.
  intros (done & cur & rest & w & Hc & Hd & Hb & Hl & Hr & Lk & Wt & Em & Sc) Hn Hh.
  destruct (holder_is_current _ done cur rest w i c Hc Hd Hl Hr Hn) as (-> & -> & Hw);
    try (unfold holds_mutex, is_finished, is_queued in *; destruct (stage c);
         reflexivity || discriminate); [exact Hb|].
  exists w. auto.
Qed.

Lemma orderly_scans sv : orderly sv -> exists k w, scan (journal sv) = Some (k, w).
Proof. intros (done & cur & rest & w & H). exists (length done), w. apply H. Qed.

(** A step that adds the effects [es] and the marks [js] of call [k]. *)
Lemma recorded_step sv sv' k w es js :
  recorded sv ->
  scan (journal sv) = Some (k, w) ->
  trace (session sv') = trace (session sv) ++ es ->
  journal sv' = journal sv ++ js ->
  map snd (writes_in js) = writes_of es ->
  (forall n tc, nth_error (calls sv) n = Some tc ->
     exists tc', nth_error (calls sv') n = Some tc'
                 /\ request tc' = request tc
                 /\ ((n < k)%nat ->
                     stage tc' = stage tc
                     \/ exists r, stage tc = Returned r
                                  /\ stage tc' = Answered (response_text r))) ->
  (forall i x, In (Wrote i x) js ->
     i = k /\ exists tc, nth_error (calls sv) k = Some tc
                         /\ snd x = code (request tc) ++ [NL]) ->
  (forall i r, In (Finalized i r) js ->
     i = k
     /\ (exists tc', nth_error (calls sv') k = Some tc' /\ stage tc' = Returned r)
     /\ ((wrote k (journal sv ++ js) /\ of_a_command r)
         \/ (~ wrote k (journal sv ++ js) /\ of_no_command r))) ->
  recorded sv'.
Proof.
  intros (R1 & R2 & R3) Sc T J W Cs Nw Nf.
  destruct (scan_facts _ _ _ Sc) as (Fk & _).
  split; [|split].
  - rewrite J, T, writes_in_app, map_app, writes_of_app, R1, W. reflexivity.
  - intros i x Hin. rewrite J in Hin. apply in_app_or in Hin as [Hin|Hin].
    + destruct (R2 i x Hin) as (tc & Hn & E).
      destruct (Cs i tc Hn) as (tc' & Hn' & Rq & _). exists tc'. rewrite Rq. auto.
    + destruct (Nw i x Hin) as (-> & tc & Hn & E).
      destruct (Cs k tc Hn) as (tc' & Hn' & Rq & _). exists tc'. rewrite Rq. auto.
  - intros i r Hin. rewrite J in Hin |- *. apply in_app_or in Hin as [Hin|Hin].
    + destruct (R3 i r Hin) as ((tc & Hn & St) & D). specialize (Fk i r Hin).
      split.
      * destruct (Cs i tc Hn) as (tc' & Hn' & _ & Sg). exists tc'. split; [exact Hn'|].
        destruct (Sg Fk) as [E|(r0 & E0 & E1)].
        -- rewrite E. exact St.
        -- rewrite E1. destruct St as [St|St]; rewrite St in E0; inversion E0; subst.
           right. reflexivity.
      * assert (wrote i (journal sv ++ js) <-> wrote i (journal sv)) as Eq.
        { split; intros (x & Hx).
          - apply in_app_or in Hx as [Hx|Hx]; [exists x; exact Hx|].
            destruct (Nw i x Hx) as (-> & _). lia.
          - exists x. apply in_or_app. auto. }
        rewrite Eq. exact D.
    + destruct (Nf i r Hin) as (-> & (tc' & Hn' & St) & D).
      split; [exists tc'; auto|exact D].
Qed.

Lemma recorded_quiet sv sv' es :
  recorded sv -> orderly sv ->
  trace (session sv') = trace (session sv) ++ es -> writes_of es = [] ->
  journal sv' = journal sv ->
  (forall n tc, nth_error (calls sv) n = Some tc ->
     exists tc', nth_error (calls sv') n = Some tc'
                 /\ request tc' = request tc
                 /\ (stage tc' = stage tc
                     \/ exists r, stage tc = Returned r
                                  /\ stage tc' = Answered (response_text r))) ->
  recorded sv'.
Proof.
  intros R O T W J C. destruct (orderly_scans sv O) as (k & w & Sc).
  apply (recorded_step sv sv' k w es []);
    [exact R|exact Sc|exact T|rewrite app_nil_r; exact J|rewrite W; reflexivity| | |].
  - intros n tc Hn. destruct (C n tc Hn) as (tc' & H1 & H2 & H3). exists tc'. auto.
  - intros i x [].
  - intros i r [].
Qed.

Lemma same_calls (cs : list ToolCall) n tc :
  nth_error cs n = Some tc ->
  exists tc', nth_error cs n = Some tc'
              /\ request tc' = request tc
              /\ (stage tc' = stage tc
                  \/ exists r, stage tc = Returned r
                               /\ stage tc' = Answered (response_text r)).
Proof. intros H. exists tc. auto. Qed.

Lemma step_recorded l sv sv' :
  server_step l sv = Some sv' -> orderly sv -> recorded sv -> recorded sv'.
Proof.
  intros H O R. unfold server_step in H.
  destruct (halted sv) eqn:Hh; [discriminate|].
  destruct l as [req|i bw|i cw|i|i|e|].
  - (* Arrive *)
    destruct (negb (str_eqb (name req) (js "rails_console_exec")));
      [inversion H; subst; exact R|].
    destruct (acquire (length (calls sv)) (mutex sv)) as [granted m].
    inversion H; subst; clear H.
    destruct (override_frame req (session sv)) as (_ & _ & T & _).
    apply (recorded_quiet sv _ []); [exact R|exact O| |reflexivity|reflexivity|].
    + simpl. rewrite T, app_nil_r. reflexivity.
    + intros n tc Hn. exists tc. simpl.
      rewrite nth_error_app1 by (apply nth_error_Some; congruence). auto.
  - (* LazyStart *)
    destruct (nth_error (calls sv) i) as [c|] eqn:Hn; [|discriminate].
    destruct (stage c) eqn:St; try discriminate.
    destruct (process (session sv)) eqn:Ps; [discriminate|].
    destruct (orderly_holder sv i c O Hn) as (w & Sc & Hw);
      [unfold holds_mutex; rewrite St; reflexivity|].
    unfold in_body in Hw. rewrite St in Hw. apply negb_true_iff in Hw. subst w.
    pose proof (start_written i bw (session sv)) as Wr.
    destruct (start_spec bw (session sv)) as (es & _ & T & W & _).
    pose proof (start_failure_cases bw (session sv)) as Fc.
    destruct (start bw (session sv)) as [started s1]. simpl in Wr, T, Fc.
    rewrite Wr, app_nil_r in H.
    destruct (success started) eqn:Su; simpl in H; inversion H; subst; clear H.
    + apply (recorded_step sv _ i false es []); [exact R|exact Sc| | | | | |].
      * exact T.
      * simpl. rewrite app_nil_r. reflexivity.
      * rewrite W. reflexivity.
      * intros n tc Hn'. simpl. rewrite nth_error_set_stage, Hn'.
        destruct (Nat.eqb_spec n i) as [->|Ne]; simpl; eexists;
          (split; [reflexivity|]); simpl; split; auto; lia.
      * intros i' x [].
      * intros i' r [].
    + apply (recorded_step sv _ i false es [Finalized i started]);
        [exact R|exact Sc| | | | | |].
      * rewrite finalize_session. exact T.
      * apply finalize_journal.
      * rewrite W. reflexivity.
      * intros n tc Hn'.
        destruct (finalize_calls i started s1 (journal sv) sv n tc Hn'
                    (orderly_waiters sv i false O Sc)) as (tc' & H1 & H2 & _ & H4).
        exists tc'. auto.
      * intros i' x [H|[]]. discriminate.
      * intros i' r [H|[]]. inversion H; subst. split; [reflexivity|]. split.
        -- destruct (finalize_calls i' r s1 (journal sv) sv i' c Hn
                       (orderly_waiters sv i' false O Sc)) as (tc' & H1 & _ & H3 & _).
           exists tc'. auto.
        -- right. split; [|apply Fc; reflexivity].
           intros (x & Hx). apply in_app_or in Hx as [Hx|[Hx|[]]]; [|discriminate].
           apply (scan_not_yet _ _ Sc). exists x. exact Hx.
  - (* RunCommand *)
    destruct (nth_error (calls sv) i) as [c|] eqn:Hn; [|discriminate].
    destruct (ready_for_command (stage c) (process (session sv))) eqn:Rd; [|discriminate].
    destruct (orderly_holder sv i c O Hn) as (w & Sc & Hw).
    { unfold ready_for_command, holds_mutex in *. destruct (stage c); auto; discriminate. }
    assert (w = false) as ->.
    { unfold ready_for_command, in_body in *.
      destruct (stage c); try discriminate; apply negb_true_iff in Hw; exact Hw. }
    pose proof (command_begin_written i (code (request c)) cw
                  (resetInactivityTimer (session sv))) as Wr.
    pose proof (command_begin_cases (code (request c)) cw
                  (resetInactivityTimer (session sv))) as Cs.
    pose proof (command_begin_state (code (request c)) cw
                  (resetInactivityTimer (session sv))) as Eq.
    destruct (executeCommand_spec (code (request c)) cw (resetInactivityTimer (session sv)))
      as (es & _ & T & _ & Wn & Ws & _).
    rewrite <- Eq in T. clear Eq.
    destruct (command_begin (code (request c)) cw (resetInactivityTimer (session sv)))
      as [p s1].
    simpl in Wr, Cs, T, Wn, Ws. rewrite Wr in H.
    destruct (process (session sv)) as [h|] eqn:Ps.
    + specialize (Ws h eq_refl).
      destruct p as [r|b]; inversion H; subst; clear H.
      * apply (recorded_step sv _ i false es
                 [Wrote i (h, code (request c) ++ [NL]); Finalized i r]);
          [exact R|exact Sc| | | | | |].
        -- rewrite finalize_session. exact T.
        -- rewrite finalize_journal, <- app_assoc. reflexivity.
        -- rewrite Ws. reflexivity.
        -- intros n tc Hn'.
           destruct (finalize_calls i r s1
                       (journal sv ++ [Wrote i (h, code (request c) ++ [NL])])
                       sv n tc Hn' (orderly_waiters sv i false O Sc))
             as (tc' & H1 & H2 & _ & H4).
           exists tc'. auto.
        -- intros i' x [H|[H|[]]]; [|discriminate]. inversion H; subst.
           split; [reflexivity|]. exists c. auto.
        -- intros i' r' [H|[H|[]]]; [discriminate|]. inversion H; subst.
           split; [reflexivity|]. split.
           ++ destruct (finalize_calls i' r' s1
                          (journal sv ++ [Wrote i' (h, code (request c) ++ [NL])])
                          sv i' c Hn (orderly_waiters sv i' false O Sc))
                as (tc' & H1 & _ & H3 & _).
              exists tc'. auto.
           ++ left. split.
              ** exists (h, code (request c) ++ [NL]). apply in_or_app. right. left.
                 reflexivity.
              ** destruct Cs as [Cs|Cs]; [left|right; left]; exact Cs.
      * apply (recorded_step sv _ i false es [Wrote i (h, code (request c) ++ [NL])]);
          [exact R|exact Sc| | | | | |].
        -- exact T.
        -- reflexivity.
        -- rewrite Ws. reflexivity.
        -- intros n tc Hn'. simpl. rewrite nth_error_set_stage, Hn'.
           destruct (Nat.eqb_spec n i) as [->|Ne]; simpl; eexists;
             (split; [reflexivity|]); simpl; split; auto; lia.
        -- intros i' x [H|[]]. inversion H; subst. split; [reflexivity|]. exists c. auto.
        -- intros i' r [H|[]]. discriminate.
    + inversion Cs; subst. rewrite app_nil_r in H. inversion H; subst; clear H.
      specialize (Wn eq_refl). subst es.
      apply (recorded_step sv _ i false []
               [Finalized i (failure [] (js "No active session"))]);
        [exact R|exact Sc| | | | | |].
      * rewrite finalize_session. simpl. rewrite app_nil_r. reflexivity.
      * apply finalize_journal.
      * reflexivity.
      * intros n tc Hn'.
        destruct (finalize_calls i (failure [] (js "No active session"))
                    (resetInactivityTimer (session sv)) (journal sv)
                    sv n tc Hn' (orderly_waiters sv i false O Sc))
          as (tc' & H1 & H2 & _ & H4).
        exists tc'. auto.
      * intros i' x [H|[]]. discriminate.
      * intros i' r [H|[]]. inversion H; subst. split; [reflexivity|]. split.
        -- destruct (finalize_calls i' (failure [] (js "No active session"))
                       (resetInactivityTimer (session sv)) (journal sv)
                       sv i' c Hn (orderly_waiters sv i' false O Sc))
             as (tc' & H1 & _ & H3 & _).
           exists tc'. auto.
        -- right. split; [|split; [reflexivity|left; reflexivity]].
           intros (x & Hx). apply in_app_or in Hx as [Hx|[Hx|[]]]; [|discriminate].
           apply (scan_not_yet _ _ Sc). exists x. exact Hx.
  - (* Report *)
    destruct (nth_error (calls sv) i) as [c|] eqn:Hn; [|discriminate].
    destruct (stage c) eqn:St; try discriminate.
    inversion H; subst; clear H.
    destruct (orderly_holder sv i c O Hn) as (w & Sc & Hw);
      [unfold holds_mutex; rewrite St; reflexivity|].
    unfold in_body in Hw. rewrite St in Hw. subst w.
    apply (recorded_step sv _ i true []
             [Finalized i (command_end (TimedOut restarted) (session sv))]);
      [exact R|exact Sc| | | | | |].
    + rewrite finalize_session, app_nil_r. reflexivity.
    + apply finalize_journal.
    + reflexivity.
    + intros n tc Hn'.
      destruct (finalize_calls i (command_end (TimedOut restarted) (session sv))
                  (session sv) (journal sv) sv n tc Hn' (orderly_waiters sv i true O Sc))
        as (tc' & H1 & H2 & _ & H4).
      exists tc'. auto.
    + intros i' x [H|[]]. discriminate.
    + intros i' r [H|[]]. inversion H; subst. split; [reflexivity|]. split.
      * destruct (finalize_calls i' (command_end (TimedOut restarted) (session sv))
                    (session sv) (journal sv) sv i' c Hn (orderly_waiters sv i' true O Sc))
          as (tc' & H1 & _ & H3 & _).
        exists tc'. auto.
      * left. split; [|apply command_end_timed_out].
        destruct (scan_facts _ _ _ Sc) as (_ & _ & _ & Wk & _).
        destruct (Wk eq_refl) as (x & Hx). exists x. apply in_or_app. auto.
  - (* Respond *)
    destruct (nth_error (calls sv) i) as [c|] eqn:Hn; [|discriminate].
    destruct (stage c) eqn:St; try discriminate.
    inversion H; subst; clear H.
    apply (recorded_quiet sv _ []); [exact R|exact O| |reflexivity|reflexivity|].
    + simpl. rewrite app_nil_r. reflexivity.
    + intros n tc Hn'. simpl. rewrite nth_error_set_stage, Hn'.
      destruct (Nat.eqb_spec n i) as [->|Ne]; simpl; eexists;
        (split; [reflexivity|]); simpl; split; auto.
      right. exists result. rewrite Hn in Hn'. inversion Hn'; subst. auto.
  - (* Happen *)
    destruct (locked (mutex sv)); [discriminate|]. inversion H; subst; clear H.
    destruct (deliver_quiet e (session sv)) as (_ & _ & _ & _ & ks & T & W).
    apply (recorded_quiet sv _ ks);
      [exact R|exact O|exact T|exact W|reflexivity|apply same_calls].
  - (* Signal *)
    inversion H; subst; clear H.
    destruct (kill_quiet (session sv)) as (_ & _ & _ & _ & ks & T & W).
    apply (recorded_quiet sv _ ks);
      [exact R|exact O|exact T|exact W|reflexivity|apply same_calls].
Qed.

(** ** The session of the server *)

Lemma map_update {A B} (g : A -> B) (f : A -> A) :
  (forall x, g (f x) = g x) -> forall l i, map g (update i f l) = map g l.
Proof.
  intros Hf. induction l as [|x l IH]; intros i; simpl; [reflexivity|].
  destruct i as [|i]; simpl; [rewrite Hf|rewrite IH]; reflexivity.
Qed.

Lemma set_stage_requests i st cs : map request (set_stage i st cs) = map request cs.
Proof. apply map_update. reflexivity. Qed.

Lemma set_stage_originals i st cs :
  map originalTimeout (set_stage i st cs) = map originalTimeout cs.
Proof. apply map_update. reflexivity. Qed.

Lemma finalize_requests i r s j sv :
  map request (calls (finalize i r s j sv)) = map request (calls sv).
Proof.
  unfold finalize. destruct (release (mutex sv)) as [[n|] m]; simpl;
    rewrite ?set_stage_requests; reflexivity.
Qed.

Lemma finalize_originals i r s j sv :
  map originalTimeout (calls (finalize i r s j sv)) = map originalTimeout (calls sv).
Proof.
  unfold finalize. destruct (release (mutex sv)) as [[n|] m]; simpl;
    rewrite ?set_stage_originals; reflexivity.
Qed.

Lemma known_timeout_same c0 cs cs' t :
  map request cs' = map request cs -> known_timeout c0 cs t -> known_timeout c0 cs' t.
Proof.
  unfold known_timeout. intros E [H|H]; [left; exact H|right].
  rewrite <- (map_map request timeout) in *. rewrite E. exact H.
Qed.

Lemma known_timeout_more c0 cs c t :
  known_timeout c0 cs t -> known_timeout c0 (cs ++ [c]) t.
Proof.
  unfold known_timeout. intros [H|H]; [left; exact H|right].
  rewrite map_app. apply in_or_app. auto.
Qed.

Lemma retime_twice t t' c : set_commandTimeout t' (set_commandTimeout t c) = set_commandTimeout t' c.
Proof. destruct c; reflexivity. Qed.

Lemma start_keeps_live_fresh w s : live_is_fresh s -> live_is_fresh (snd (start w s)).
Proof.
  intros F. destruct (start_spec w s) as (es & _ & _ & _ & _ & OK & KO).
  destruct (success (fst (start w s))) eqn:Su.
  - intros _. apply OK. reflexivity.
  - destruct (KO eq_refl) as (_ & [Hn|E]); [intros C; congruence|rewrite E; exact F].
Qed.

(** A step that leaves the calls' requests and saved timeouts alone and
    the configuration as it is. *)
Lemma sound_step c0 sv sv' :
  sound c0 sv ->
  coherent (session sv') -> live_is_fresh (session sv') ->
  config (session sv') = config (session sv) ->
  map request (calls sv') = map request (calls sv) ->
  map originalTimeout (calls sv') = map originalTimeout (calls sv) ->
  sound c0 sv'.
Proof.
  intros (_ & _ & Cf & Kn & Fo) Co Li C Rq Or.
  split; [exact Co|]. split; [exact Li|]. rewrite C, Or.
  split; [exact Cf|]. split; [apply (known_timeout_same c0 (calls sv)); assumption|].
  eapply Forall_impl; [|exact Fo]. intros t. apply known_timeout_same. exact Rq.
Qed.

Lemma step_sound c0 l sv sv' :
  server_step l sv = Some sv' -> sound c0 sv -> sound c0 sv'.
Proof.
  intros H S. unfold server_step in H.
  destruct (halted sv) eqn:Hh; [discriminate|].
  destruct l as [req|i bw|i cw|i|i|e|].
  - (* Arrive *)
    destruct (negb (str_eqb (name req) (js "rails_console_exec")));
      [inversion H; subst; exact S|].
    destruct (acquire (length (calls sv)) (mutex sv)) as [granted m].
    inversion H; subst; clear H.
    destruct S as (Co & Li & (t & Cf) & Kn & Fo).
    destruct (override_frame req (session sv)) as (P & N & T & Hr).
    unfold sound. cbn [session calls].
    split; [apply (coherent_frame (session sv)); assumption|].
    split; [unfold live_is_fresh in *; rewrite P, Hr; exact Li|].
    rewrite override_cases. cbn [config with_config commandTimeout set_commandTimeout].
    split; [rewrite Cf, retime_twice; eauto|]. split.
    + destruct (timeout req) as [t'|] eqn:Tr; [|apply known_timeout_more, Kn].
      destruct (t' =? 0); [apply known_timeout_more, Kn|].
      right. rewrite map_app. apply in_or_app. right. simpl. auto.
    + rewrite map_app. apply Forall_app. split.
      * eapply Forall_impl; [|exact Fo]. intros t'. apply known_timeout_more.
      * constructor; [apply known_timeout_more, Kn|constructor].
  - (* LazyStart *)
    destruct (nth_error (calls sv) i) as [c|] eqn:Hn; [|discriminate].
    destruct (stage c) eqn:St; try discriminate.
    destruct (process (session sv)) eqn:Ps; [discriminate|].
    pose proof S as (Co & Li & Cf & Kn & Fo).
    pose proof (start_coherent bw (session sv) Co) as Co'.
    pose proof (start_keeps_live_fresh bw (session sv) Li) as Li'.
    destruct (start_spec bw (session sv)) as (es & C & _).
    destruct (start bw (session sv)) as [started s1]. simpl in Co', Li', C.
    destruct (negb (success started)); inversion H; subst; clear H.
    + apply (sound_step c0 sv); [exact S|..];
        rewrite ?finalize_session; auto;
        [apply finalize_requests|apply finalize_originals].
    + apply (sound_step c0 sv); [exact S|..]; auto;
        [apply set_stage_requests|apply set_stage_originals].
  - (* RunCommand *)
    destruct (nth_error (calls sv) i) as [c|] eqn:Hn; [|discriminate].
    destruct (ready_for_command (stage c) (process (session sv))); [|discriminate].
    pose proof S as (Co & Li & Cf & Kn & Fo).
    assert (coherent (resetInactivityTimer (session sv))) as Co0
      by (apply (coherent_frame (session sv)); [reflexivity..|exact Co]).
    pose proof (executeCommand_coherent (code (request c)) cw _ Co0) as Co'.
    destruct (executeCommand_spec (code (request c)) cw (resetInactivityTimer (session sv)))
      as (es & C & _ & _ & _ & _ & Li').
    specialize (Li' Li).
    rewrite <- command_begin_state in Co', C, Li'.
    destruct (command_begin (code (request c)) cw (resetInactivityTimer (session sv)))
      as [p s1].
    simpl in Co', C, Li'.
    destruct p as [r|b]; inversion H; subst; clear H.
    + apply (sound_step c0 sv); [exact S|..];
        rewrite ?finalize_session; auto;
        [apply finalize_requests|apply finalize_originals].
    + apply (sound_step c0 sv); [exact S|..]; auto;
        [apply set_stage_requests|apply set_stage_originals].
  - (* Report *)
    destruct (nth_error (calls sv) i) as [c|] eqn:Hn; [|discriminate].
    destruct (stage c) eqn:St; try discriminate.
    inversion H; subst; clear H.
    pose proof S as (Co & Li & Cf & Kn & Fo).
    apply (sound_step c0 sv); [exact S|..];
      rewrite ?finalize_session; auto;
      [apply finalize_requests|apply finalize_originals].
  - (* Respond *)
    destruct (nth_error (calls sv) i) as [c|] eqn:Hn; [|discriminate].
    destruct (stage c) eqn:St; try discriminate.
    inversion H; subst; clear H.
    destruct S as (Co & Li & (t & Cf) & Kn & Fo).
    unfold sound. cbn [session calls].
    split; [apply (coherent_frame (session sv)); [reflexivity..|exact Co]|].
    split; [exact Li|].
    cbn [config write_commandTimeout with_config commandTimeout set_commandTimeout].
    rewrite set_stage_originals.
    assert (known_timeout c0 (calls sv) (originalTimeout c)) as Kc.
    { rewrite Forall_forall in Fo. apply Fo. apply in_map. eapply nth_error_In. exact Hn. }
    split; [rewrite Cf, retime_twice; eauto|]. split.
    + apply (known_timeout_same c0 (calls sv)); [apply set_stage_requests|exact Kc].
    + eapply Forall_impl; [|exact Fo]. intros t'.
      apply known_timeout_same. apply set_stage_requests.
  - (* Happen *)
    destruct (locked (mutex sv)); [discriminate|]. inversion H; subst; clear H.
    pose proof S as (Co & Li & Cf & Kn & Fo).
    apply (sound_step c0 sv); [exact S|..]; auto.
    + apply deliver_coherent, Co.
    + apply deliver_keeps_live_fresh, Li.
    + apply deliver_config.
  - (* Signal *)
    inversion H; subst; clear H.
    pose proof S as (Co & Li & Cf & Kn & Fo).
    apply (sound_step c0 sv); [exact S|..]; auto.
    + apply kill_coherent, Co.
    + apply kill_keeps_live_fresh.
    + destruct (kill_quiet (session sv)) as (C & _). exact C.
Qed.

(** ** Every interleaving *)

Lemma new_Server_orderly c : orderly (new_Server c).
Proof. exists [], [], [], false. simpl. repeat split; auto. Qed.

Lemma new_Server_recorded c : recorded (new_Server c).
Proof. split; [reflexivity|]. split; intros i x []. Qed.

Lemma new_Server_sound c : sound c (new_Server c).
Proof.
  unfold sound, new_Server. cbn [session calls].
  split; [unfold coherent; simpl; repeat split; try reflexivity; discriminate|].
  split; [apply new_console_live_fresh|].
  split; [exists (commandTimeout c); simpl; symmetry; apply set_commandTimeout_same|].
  split; [left; reflexivity|constructor].
Qed.

Lemma run_stable c0 ls : forall sv sv',
  run ls sv = Some sv' ->
  orderly sv /\ recorded sv /\ sound c0 sv ->
  orderly sv' /\ recorded sv' /\ sound c0 sv'.
Proof.
  induction ls as [|l ls IH]; intros sv sv' H (O & R & S); simpl in H.
  - inversion H; subst. auto.
  - destruct (server_step l sv) as [sv1|] eqn:E; [|discriminate].
    apply (IH sv1 sv' H). split; [|split].
    + apply (step_orderly l sv); assumption.
    + apply (step_recorded l sv); assumption.
    + apply (step_sound c0 l sv); assumption.
Qed.

Lemma reachable_stable c ls sv :
  run ls (new_Server c) = Some sv -> orderly sv /\ recorded sv /\ sound c sv.
Proof.
  intros H. apply (run_stable c ls _ _ H).
  split; [apply new_Server_orderly|].
  split; [apply new_Server_recorded|apply new_Server_sound].
Qed.

Lemma increasing_above l :
  increasing l -> forall p x, nth_error l p = Some x -> (p <= x)%nat.
Proof.
  intros Inc. induction p as [|p IH]; intros x Hx; [lia|].
  assert (p < length l)%nat as L.
  { assert (S p < length l)%nat by (apply nth_error_Some; congruence). lia. }
  destruct (nth_error l p) as [y|] eqn:Hy; [|apply nth_error_None in Hy; lia].
  specialize (IH y eq_refl). specialize (Inc p (S p) y x (Nat.lt_succ_diag_r p) Hy Hx). lia.
Qed.

Lemma increasing_length l n :
  increasing l -> (forall x, In x l -> (x < n)%nat) -> (length l <= n)%nat.
Proof.
  intros Inc Hn. destruct l as [|a l] using rev_ind; [simpl; lia|].
  clear IHl. rewrite length_app. simpl.
  assert (nth_error (l ++ [a]) (length l) = Some a) as Ha
    by (rewrite nth_error_app2, Nat.sub_diag by lia; reflexivity).
  pose proof (increasing_above _ Inc _ _ Ha).
  assert (In a (l ++ [a])) as Hi by (apply in_or_app; right; left; reflexivity).
  specialize (Hn a Hi). lia.
Qed.

(** C8 (per-call timeout override).  The handler saves the timeout, awaits
    [session.exec] and restores what it saved; a request that arrives
    while another call is in flight saves that call's override.  The first
    request carries [timeout: 5000]; the second, without timeout, arrives
    while the console of the first boots.  When both are answered and
    nothing is in flight, the configured timeout is 5000 and no longer
    60000.  A third request without timeout, whose command answers after
    six seconds, is then answered with a timeout after 5 s; served after
    the same two requests one by one, it gets its answer. *)
Theorem C8_overlapping_calls_keep_the_override :
  let sv := after overlapping (new_Server cfg0) in
  let sv1 := after one_by_one (new_Server cfg0) in
  commandTimeout cfg0 = 60000
  /\ timeout plain_request = None /\ timeout report_request = None
  /\ run overlapping (new_Server cfg0) = Some sv
  /\ run one_by_one (new_Server cfg0) = Some sv1
  /\ forallb is_answered (calls sv) = true
  /\ mutex sv = mkMutex false []
  /\ stage_of 0 sv = Some (Answered (js "=> 42"))
  /\ stage_of 1 sv = Some (Answered (js "=> 2"))
  /\ commandTimeout (config (session sv)) = 5000
  /\ commandTimeout (config (session sv1)) = 60000
  /\ option_map (stage_of 2) (run third_times_out sv)
     = Some (Some (Answered (js "Error: Command timed out after 5s. Session restarted."
                               ++ [NL; NL])))
  /\ option_map (stage_of 2) (run third_completes sv1)
     = Some (Some (Answered (js "=> :done"))).
Proof. vm_compute. repeat split; reflexivity. Qed.

(** C9, as the specification states it: N calls, N command writes.  It
    fails for a single call whose console never shows its first prompt:
    the call is answered with the failure of the start, and nothing was
    written. *)
Lemma C9_failed_start_writes_nothing :
  ~ (forall c ls sv,
       run ls (new_Server c) = Some sv ->
       forallb is_answered (calls sv) = true ->
       length (writes_of (trace (session sv))) = length (calls sv)).
Proof.
  intros H.
  specialize (H cfg0 never_boots (after never_boots (new_Server cfg0)) eq_refl eq_refl).
  vm_compute in H. discriminate H.
Qed.

(** C9 (serialization), amended.  Whatever the interleaving of the calls,
    of their awaits and of the events:
    - the command writes the subprocesses receive are those of the
      journal, and a write of call [i] is the code of request [i] and a
      line feed;
    - the writes are in the order of arrival of their calls, one per call
      at most, so at most N for N calls;
    - when a call writes, the results of all the calls that arrived before
      it are final;
    - a call whose result is final has written once and its result is the
      outcome of its command or the report of its timeout, or it has
      written nothing and its result is the failure of the lazy start or
      [No active session];
    - every call that has returned has its result in the journal, and at
      most one call is in the body of [exec]. *)
Theorem C9_writes_are_serialized :
  forall c ls sv,
    run ls (new_Server c) = Some sv ->
    map snd (writes_in (journal sv)) = writes_of (trace (session sv))
    /\ (forall i h d, In (Wrote i (h, d)) (journal sv) ->
          exists tc, nth_error (calls sv) i = Some tc
                     /\ d = code (request tc) ++ [NL])
    /\ increasing (map fst (writes_in (journal sv)))
    /\ (length (writes_of (trace (session sv))) <= length (calls sv))%nat
    /\ (forall before i x rest,
          journal sv = before ++ Wrote i x :: rest ->
          forall i', (i' < i)%nat -> exists r, In (Finalized i' r) before)
    /\ (forall i r, In (Finalized i r) (journal sv) ->
          (exists tc, nth_error (calls sv) i = Some tc
                      /\ (stage tc = Returned r
                          \/ stage tc = Answered (response_text r)))
          /\ ((wrote i (journal sv) /\ of_a_command r)
              \/ (~ wrote i (journal sv) /\ of_no_command r)))
    /\ (forall i tc, nth_error (calls sv) i = Some tc -> is_finished tc = true ->
          exists r, In (Finalized i r) (journal sv))
    /\ (forall i i' tc tc',
          nth_error (calls sv) i = Some tc -> nth_error (calls sv) i' = Some tc' ->
          holds_mutex tc = true -> holds_mutex tc' = true -> i = i').
Proof.
  intros c ls sv H.
  destruct (reachable_stable c ls sv H) as (O & (R1 & R2 & R3) & _).
  destruct (orderly_scans sv O) as (k & w & Sc).
  destruct (scan_facts _ _ _ Sc) as (Fk & Wk & Ak & _ & Inc).
  split; [exact R1|]. split; [|split; [exact Inc|split; [|split; [|split; [exact R3|split]]]]].
  - intros i h d Hin. destruct (R2 i (h, d) Hin) as (tc & Hn & E). exists tc. auto.
  - rewrite <- R1, length_map, <- (length_map fst).
    apply increasing_length; [exact Inc|].
    intros i Hi. apply in_map_iff in Hi as ([i' x] & <- & Hi). apply In_writes_in in Hi.
    destruct (R2 i' x Hi) as (tc & Hn & _). apply nth_error_Some. simpl. congruence.
  - intros before i x rest E i' L.
    assert (exists st, scan (before ++ [Wrote i x]) = Some st) as (st & Hs).
    { apply (scan_prefix _ rest (k, w)). rewrite <- app_assoc. simpl. rewrite <- E. exact Sc. }
    rewrite scan_snoc in Hs. apply scan_step_Wrote in Hs as [Hb _].
    destruct (scan_facts _ _ _ Hb) as (_ & _ & A & _). apply A. exact L.
  - intros i tc Hn Hf. apply Ak.
    destruct O as (done & cur & rest & w' & Hc & Hd & Hb & Hl & Hr & Lk & Wt & Em & Sc').
    rewrite Sc' in Sc. inversion Sc; subst.
    apply (finished_is_done _ done cur rest w i tc Hc Hb Hr Hn Hf).
  - intros i i' tc tc' Hn Hn' Hh Hh'.
    destruct (orderly_holder sv i tc O Hn Hh) as (w1 & S1 & _).
    destruct (orderly_holder sv i' tc' O Hn' Hh') as (w2 & S2 & _).
    rewrite S1 in S2. inversion S2. reflexivity.
Qed.

Lemma C9_writes_are_serialized_witness :
  let sv := after (overlapping ++ third_times_out) (new_Server cfg0) in
  run (overlapping ++ third_times_out) (new_Server cfg0) = Some sv
  /\ length (calls sv) = 3%nat
  /\ map snd (writes_in (journal sv)) = writes_of (trace (session sv))
  /\ map fst (writes_in (journal sv)) = [0; 1; 2]%nat
  /\ increasing (map fst (writes_in (journal sv)))
  /\ (length (writes_of (trace (session sv))) <= length (calls sv))%nat.
Proof.
  cbv zeta. split; [vm_compute; reflexivity|]. split; [vm_compute; reflexivity|].
  destruct (C9_writes_are_serialized cfg0 (overlapping ++ third_times_out)
              (after (overlapping ++ third_times_out) (new_Server cfg0)))
    as (W & _ & Inc & Len & _); [vm_compute; reflexivity|].
  split; [exact W|]. split; [vm_compute; reflexivity|]. split; [exact Inc|exact Len].
Defined.



(** ** A request that is served alone *)

Lemma nth_error_last {A} (l : list A) x : nth_error (l ++ [x]) (length l) = Some x.
Proof. rewrite nth_error_app2, Nat.sub_diag by lia. reflexivity. Qed.

Lemma set_stage_last cs tc st :
  set_stage (length cs) st (cs ++ [tc]) = cs ++ [restaged st tc].
Proof. unfold set_stage. apply update_mid. Qed.

Lemma finalize_alone cs tc r s j s0 j0 :
  finalize (length cs) r s j (mkServer s0 (mkMutex true []) (cs ++ [tc]) j0 false)
  = mkServer s (mkMutex false []) (cs ++ [restaged (Returned r) tc])
      (j ++ [Finalized (length cs) r]) false.
Proof. unfold finalize. simpl. rewrite set_stage_last. reflexivity. Qed.

Lemma respond_alone cs req orig r s j :
  server_step (Respond (length cs))
    (mkServer s (mkMutex false []) (cs ++ [mkToolCall req orig (Returned r)]) j false)
  = Some (mkServer (write_commandTimeout orig s) (mkMutex false [])
            (cs ++ [mkToolCall req orig (Answered (response_text r))]) j false).
Proof.
  unfold server_step. cbn [halted calls]. rewrite nth_error_last. cbn [stage].
  cbn [session mutex journal halted originalTimeout]. rewrite set_stage_last. reflexivity.
Qed.

(** The handler is what the steps of one call compute when they are taken
    in a row on a server with nothing in flight. *)
Lemma handler_is_a_run req w sv :
  halted sv = false -> mutex sv = mkMutex false [] ->
  str_eqb (name req) tool = true ->
  exists ls sv' text,
    run ls sv = Some sv'
    /\ handler req w (session sv) = (inr text, session sv')
    /\ calls sv' = calls sv ++ [mkToolCall req (commandTimeout (config (session sv)))
                                  (Answered text)]
    /\ mutex sv' = mkMutex false [].
Proof.
  intros Hh Hm Hn. destruct sv as [s m cs j hl]. simpl in Hh, Hm. subst hl m.
  cbn [session calls]. unfold handler. fold tool. rewrite Hn. cbn [negb].
  set (orig := commandTimeout (config s)).
  set (tc := fun st => mkToolCall req orig st).
  assert (server_step (Arrive req) (mkServer s (mkMutex false []) cs j false)
          = Some (mkServer (override req s) (mkMutex true []) (cs ++ [tc Granted]) j false))
    as A.
  { unfold server_step. cbn [halted]. fold tool. rewrite Hn. reflexivity. }
  assert (forall s1 r j1,
            run [Respond (length cs)]
              (finalize (length cs) r s1 j1
                 (mkServer (override req s) (mkMutex true []) (cs ++ [tc Granted]) j false))
            = Some (mkServer (write_commandTimeout orig s1) (mkMutex false [])
                      (cs ++ [tc (Answered (response_text r))])
                      (j1 ++ [Finalized (length cs) r]) false)) as Fin.
  { intros s1 r j1. rewrite finalize_alone. unfold restaged, tc. cbn [request originalTimeout].
    cbn [run]. rewrite respond_alone. reflexivity. }
  assert (forall s1 stg,
            ready_for_command stg (process s1) = true ->
            exists ls sv',
              run ls (mkServer s1 (mkMutex true []) (cs ++ [tc stg]) j false) = Some sv'
              /\ session sv'
                 = write_commandTimeout orig
                     (snd (executeCommand (code req) w (resetInactivityTimer s1)))
              /\ calls sv'
                 = cs ++ [tc (Answered (response_text
                           (fst (executeCommand (code req) w (resetInactivityTimer s1)))))]
              /\ mutex sv' = mkMutex false []) as Cmd.
  { intros s1 stg Rd. rewrite executeCommand_split.
    destruct (command_begin (code req) w (resetInactivityTimer s1)) as [p s2] eqn:Cb.
    cbn [fst snd]. destruct p as [r|b].
    - exists [RunCommand (length cs) w; Respond (length cs)]. eexists.
      split; [|split; [|split]]; cycle 1.
      4:{ cbn [run]. unfold server_step at 1. cbn [halted calls].
          rewrite nth_error_last. cbn [stage tc session]. rewrite Rd.
          cbn [request tc]. rewrite Cb.
          change (cs ++ [mkToolCall req orig stg]) with (cs ++ [tc stg]).
          cbn [mutex journal halted calls].
          match goal with |- context [finalize ?i ?r ?s ?j ?sv] =>
            replace (finalize i r s j sv)
              with (mkServer s (mkMutex false []) (cs ++ [restaged (Returned r) (tc stg)])
                      (j ++ [Finalized i r]) false)
              by (symmetry; apply (finalize_alone cs (tc stg))) end.
          unfold restaged, tc. cbn [request originalTimeout].
          rewrite respond_alone. reflexivity. }
      all: reflexivity.
    - exists [RunCommand (length cs) w; Report (length cs); Respond (length cs)]. eexists.
      split; [|split; [|split]]; cycle 1.
      4:{ cbn [run]. unfold server_step at 1. cbn [halted calls].
          rewrite nth_error_last. cbn [stage tc session]. rewrite Rd.
          cbn [request tc]. rewrite Cb.
          cbn [mutex journal halted calls]. rewrite set_stage_last.
          unfold restaged at 1. cbn [request originalTimeout].
          unfold server_step at 1. cbn [halted calls].
          rewrite nth_error_last. cbn [stage session journal].
          match goal with |- context [finalize ?i ?r ?s ?j ?sv] =>
            replace (finalize i r s j sv)
              with (mkServer s (mkMutex false [])
                      (cs ++ [restaged (Returned r) (mkToolCall req orig (Suspended b))])
                      (j ++ [Finalized i r]) false)
              by (symmetry; apply (finalize_alone cs (mkToolCall req orig (Suspended b)))) end.
          unfold restaged. cbn [request originalTimeout].
          rewrite respond_alone. reflexivity. }
      all: reflexivity. }
  destruct (override_frame req s) as (P & _).
  unfold exec. rewrite P. destruct (process s) as [h|] eqn:Ps.
  - destruct (Cmd (override req s) Granted) as (ls & sv' & R & S1 & C1 & M1).
    { rewrite P. reflexivity. }
    exists (Arrive req :: ls), sv',
      (response_text (fst (executeCommand (code req) w
                             (resetInactivityTimer (override req s))))).
    split; [cbn [run]; rewrite A; exact R|].
    split; [|split; [exact C1|exact M1]].
    rewrite S1. destruct (executeCommand _ _ _) as [r s2]. reflexivity.
  - destruct (start (lazyStart w) (override req s)) as [started s1] eqn:St.
    pose proof (start_written (length cs) (lazyStart w) (override req s)) as Wr.
    rewrite St in Wr. cbn [snd] in Wr.
    destruct (success started) eqn:Su; cbn [negb].
    + destruct (Cmd s1 Started eq_refl) as (ls & sv' & R & S1 & C1 & M1).
      exists (Arrive req :: LazyStart (length cs) (lazyStart w) :: ls), sv',
        (response_text (fst (executeCommand (code req) w (resetInactivityTimer s1)))).
      split; [|split; [|split; [exact C1|exact M1]]].
      * cbn [run]. rewrite A. unfold server_step at 1. cbn [halted calls].
        rewrite nth_error_last. cbn [stage tc session]. rewrite P, St, Su. cbn [negb].
        cbn [mutex journal halted calls]. rewrite set_stage_last, Wr, app_nil_r.
        exact R.
      * rewrite S1. destruct (executeCommand _ _ _) as [r s2]. reflexivity.
    + exists [Arrive req; LazyStart (length cs) (lazyStart w); Respond (length cs)],
        (mkServer (write_commandTimeout orig s1) (mkMutex false [])
           (cs ++ [tc (Answered (response_text started))])
           (j ++ [Finalized (length cs) started]) false),
        (response_text started).
      split; [|split; [|split]]; try reflexivity.
      cbn [run]. rewrite A. unfold server_step at 1. cbn [halted calls].
      rewrite nth_error_last. cbn [stage tc session]. rewrite P, St, Su. cbn [negb].
      cbn [journal]. rewrite Wr, app_nil_r.
      pose proof (Fin s1 started j) as F. cbn [run] in F.
      destruct (server_step (Respond (length cs)) _) as [sv2|] eqn:E; [|discriminate].
      exact F.
Qed.
